(** * Predis: the coin ledger, the betting transaction and the resolution
    transaction, embedded from the repository's TypeScript and Prisma schema.

    Sources embedded here:
    - docs/FEATURES_AND_FLOWS.md, section 3.3 (cancel / refund transaction),
      section 4.1 (odds calculation, place-bet transaction) and section 5.1
      (resolution transaction);
    - the Prisma schema (models User, Prediction, PredictionOption, Bet,
      Transaction, Notification and their enums), with the constraints it
      puts on an insert: required columns, 32-bit [Int]s, foreign keys and the
      unique index on [Transaction.betId];
    - hooks/use-predictions.ts ([usePlaceBet]);
    - the unit tests of [calculateOdds] and [validateBet].

    JavaScript numbers are IEEE 754 binary64 values.  They are modelled by the
    Standard Library's [spec_float] at precision 53 and maximal exponent 1024,
    whose operations round to nearest, ties to even, as JavaScript does.

    A [findMany] without [orderBy] returns its rows in an order the database
    chooses.  That order is a parameter, [rowOrder], of everything that runs
    such a query: the statements hold for every order.

    The file has three parts: the embedding (numbers, schema, transactions,
    the operations, and the predicates the statements use), facts about the
    embedding (binary64 rounding, the loops, the invariants), and the
    statements about the ledger, the bets and the resolution. *)

From Stdlib Require Import ZArith Lia Bool List.
From Stdlib Require Import Floats.SpecFloat.
From stdpp Require Import base option list.
From stdpp Require Import gmap.

Local Open Scope Z_scope.

(* ===================================================================== *)
(** ** JavaScript numbers *)
(* ===================================================================== *)

Module JS.

Definition prec : Z := 53.
Definition emax : Z := 1024.

Definition number := spec_float.

(** An integer read from an [Int] column, as a JavaScript number. *)
Definition ofInt (z : Z) : number := binary_normalize prec emax z 0 false.

(** [x / y] *)
Definition div (x y : number) : number := SFdiv prec emax x y.

(** [x * y] *)
Definition mul (x y : number) : number := SFmul prec emax x y.

(** The literal [0.05]: the binary64 value nearest to 1/20. *)
Definition lit_0_05 : number := S754_finite false 7205759403792794 (-57).

(** The literal [1.0]. *)
Definition lit_1_0 : number := S754_finite false 4503599627370496 (-52).

(** [Math.floor x] as an integer.  [Math.floor] of [NaN] or of an infinity
    is that same value, which is no integer: [None]. *)
Definition floor (x : number) : option Z :=
  match x with
  | S754_zero _ => Some 0
  | S754_finite s m e =>
      Some (if 0 <=? e then cond_Zopp s (Zpos m) * 2 ^ e
            else cond_Zopp s (Zpos m) / 2 ^ (- e))
  | S754_infinity _ | S754_nan => None
  end.

End JS.

(* ===================================================================== *)
(** ** The Prisma schema *)
(* ===================================================================== *)

(** Primary keys are [String @id @default(cuid())]: opaque keys generated by
    the database.  A row's key is modelled by its position in its table; no
    operation embedded here deletes a row. *)
Definition Id := nat.

(** [Int] columns are PostgreSQL 32-bit integers. *)
Definition int4 (z : Z) : bool := (-2147483648 <=? z) && (z <=? 2147483647).

Inductive PredictionStatus := DRAFT | ACTIVE | LOCKED | RESOLVED | CANCELLED | DISPUTED.

Inductive BetStatus := PENDING | WON | LOST | REFUNDED.

Inductive TransactionType :=
  | INITIAL_BALANCE | BET_PLACED | BET_WON | BET_REFUNDED
  | DAILY_BONUS | ACHIEVEMENT | CREATOR_REWARD | ADMIN_ADJUSTMENT.

(** The two notification types the resolution transaction creates. *)
Inductive NotificationType := NOTIFY_BET_WON | NOTIFY_BET_LOST.

#[global] Instance PredictionStatus_eq_dec : EqDecision PredictionStatus.
Proof. solve_decision. Defined.
#[global] Instance BetStatus_eq_dec : EqDecision BetStatus.
Proof. solve_decision. Defined.
#[global] Instance TransactionType_eq_dec : EqDecision TransactionType.
Proof. solve_decision. Defined.

Module User.
(** model User: the gamification balance and the denormalised counters. *)
Record t := mk {
    coinBalance : Z;
    totalBets : Z;
    totalWins : Z;
    totalLosses : Z
  }.
Definition valid (u : t) : bool :=
  int4 (coinBalance u) && int4 (totalBets u) && int4 (totalWins u) && int4 (totalLosses u).
End User.

Module Prediction.
(** model Prediction: creator, status, outcome and the pool metadata. *)
Record t := mk {
    creatorId : Id;
    status : PredictionStatus;
    correctOptionId : option Id;
    totalPool : Z;
    totalBets : Z
  }.
Definition valid (p : t) : bool := int4 (totalPool p) && int4 (totalBets p).
End Prediction.

Module PredictionOption.
(** model PredictionOption: owning prediction and the betting stats. *)
Record t := mk {
    predictionId : Id;
    totalBets : Z;
    totalCoins : Z
  }.
Definition valid (o : t) : bool := int4 (totalBets o) && int4 (totalCoins o).
End PredictionOption.

Module Bet.
(** model Bet.  [oddsAtBet] is a [Float] column. *)
Record t := mk {
    userId : Id;
    predictionId : Id;
    optionId : Id;
    amount : Z;
    oddsAtBet : JS.number;
    status : BetStatus;
    payout : Z
  }.
Definition valid (b : t) : bool := int4 (amount b) && int4 (payout b).
End Bet.

Module Transaction.
(** model Transaction, as the data of a [create] call: a field the call
    leaves out is [None].  The schema declares [balanceBefore] and
    [balanceAfter] as required [Int] columns and [betId] as an optional,
    [@unique] reference to a bet; [transaction_create] below refuses the data
    that do not meet it, so every stored row has both balances. *)
Record t := mk {
    userId : Id;
    type : TransactionType;
    amount : Z;
    balanceBefore : option Z;
    balanceAfter : option Z;
    betId : option Id
  }.
End Transaction.

Module Notification.
(** model Notification: the recipient and the type; [title] and [message],
    the other required columns, are string literals in every call. *)
Record t := mk {
    recipientId : Id;
    type : NotificationType
  }.
End Notification.

(** The database: one list of rows per table. *)
Record Db := mkDb {
  users : list User.t;
  predictions : list Prediction.t;
  options : list PredictionOption.t;
  bets : list Bet.t;
  transactions : list Transaction.t;
  notifications : list Notification.t
}.

Definition set_users (f : list User.t -> list User.t) (s : Db) : Db :=
  mkDb (f (users s)) (predictions s) (options s) (bets s) (transactions s) (notifications s).
Definition set_predictions (f : list Prediction.t -> list Prediction.t) (s : Db) : Db :=
  mkDb (users s) (f (predictions s)) (options s) (bets s) (transactions s) (notifications s).
Definition set_options (f : list PredictionOption.t -> list PredictionOption.t) (s : Db) : Db :=
  mkDb (users s) (predictions s) (f (options s)) (bets s) (transactions s) (notifications s).
Definition set_bets (f : list Bet.t -> list Bet.t) (s : Db) : Db :=
  mkDb (users s) (predictions s) (options s) (f (bets s)) (transactions s) (notifications s).
Definition set_transactions (f : list Transaction.t -> list Transaction.t) (s : Db) : Db :=
  mkDb (users s) (predictions s) (options s) (bets s) (f (transactions s)) (notifications s).
Definition set_notifications (f : list Notification.t -> list Notification.t) (s : Db) : Db :=
  mkDb (users s) (predictions s) (options s) (bets s) (transactions s) (f (notifications s)).

(* ===================================================================== *)
(** ** Interactive transactions *)
(* ===================================================================== *)

(** What makes a statement of a transaction throw. *)
Inductive Error :=
  | RecordNotFound        (** [update] or a required read of a row that does not exist *)
  | ArgumentMissing       (** a [create] whose data leave out a required column *)
  | UniqueConstraintFailed      (** an insert that repeats a value of a [@unique] column *)
  | ForeignKeyConstraintFailed  (** an insert that references a row that does not exist *)
  | NullDereference       (** a property read on the [null] of [findUnique] *)
  | InvalidIntValue       (** a value that is no 32-bit integer written to an [Int] column *)
  | InsufficientBalance   (** validateBet: 'Insufficient balance' *)
  | PredictionHasEnded    (** validateBet: 'Prediction has ended' *)
  | InvalidAmount.        (** validateBet: the amount is not positive *)

#[global] Instance Error_eq_dec : EqDecision Error.
Proof. solve_decision. Defined.

(** The body of [prisma.$transaction(async (tx) => ...)]: it reads and writes
    the database and may throw. *)
Definition Tx (A : Type) : Type := Db -> Error + (A * Db).

Definition ret {A} (a : A) : Tx A := fun s => inr (a, s).
Definition throw {A} (e : Error) : Tx A := fun _ => inl e.
Definition bind {A B} (m : Tx A) (k : A -> Tx B) : Tx B :=
  fun s => match m s with
           | inl e => inl e
           | inr (a, s') => k a s'
           end.

Declare Scope tx_scope.
Delimit Scope tx_scope with tx.
Notation "x <~ m ;; k" := (bind m (fun x => k))
  (at level 100, m at next level, right associativity) : tx_scope.

(** [for (const x of xs) { body x }] *)
Fixpoint forEach {A} (xs : list A) (body : A -> Tx unit) : Tx unit :=
  match xs with
  | [] => ret tt
  | x :: xs' => bind (body x) (fun _ => forEach xs' body)
  end.

(** [prisma.$transaction]: a body that throws leaves the database as it was. *)
Definition transaction {A} (body : Tx A) (s : Db) : Db * (Error + A) :=
  match body s with
  | inl e => (s, inl e)
  | inr (a, s') => (s', inr a)
  end.

Section Table.
Context {R : Type}.
Variable get : Db -> list R.
Variable set : (list R -> list R) -> Db -> Db.

(** [tx.model.findUnique({ where: { id } })] *)
Definition findUnique (id : Id) : Tx (option R) :=
  fun s => inr (get s !! id, s).

(** [tx.model.update({ where: { id }, data })]: throws when the row is
    missing or a written [Int] does not fit; returns the updated row. *)
Definition update (valid : R -> bool) (id : Id) (data : R -> R) : Tx R :=
  fun s => match get s !! id with
           | None => inl RecordNotFound
           | Some r =>
               if valid (data r) then inr (data r, set (fun t => <[id := data r]> t) s)
               else inl InvalidIntValue
           end.

(** [tx.model.create({ data })]: throws when the schema refuses the data
    ([refused]: a column check or a constraint); returns the new row's key. *)
Definition create (refused : R -> Db -> option Error) (row : R) : Tx Id :=
  fun s => match refused row s with
           | Some e => inl e
           | None => inr (length (get s), set (fun t => t ++ [row]) s)
           end.
End Table.

(** The rows of a table with their keys. *)
Definition rows {R} (t : list R) : list (Id * R) := imap pair t.

(** Whether a table has a row under a key: what a foreign key asks for. *)
Definition has_row {R} (t : list R) (id : Id) : bool := bool_decide (is_Some (t !! id)).

(** Whether some row of the Transaction table already references the bet:
    what the unique index on [betId] looks up. *)
Definition references (log : list Transaction.t) (b : Id) : bool :=
  bool_decide (Exists (fun t => Transaction.betId t = Some b) log).

(** What the schema refuses of the data of [tx.bet.create]: an [amount] or
    [payout] that is no 32-bit integer, and a [userId], [predictionId] or
    [optionId] without a row (the three relations of model Bet). *)
Definition bet_refused (row : Bet.t) (s : Db) : option Error :=
  if negb (Bet.valid row) then Some InvalidIntValue
  else if has_row (users s) (Bet.userId row)
          && has_row (predictions s) (Bet.predictionId row)
          && has_row (options s) (Bet.optionId row) then None
  else Some ForeignKeyConstraintFailed.

(** What the schema refuses of the data of [tx.transaction.create]:
    - data without [balanceBefore] or [balanceAfter], which are required;
    - an [amount] or a balance that is no 32-bit integer;
    - a [betId] that a stored row already carries ([@unique]);
    - a [userId] or a [betId] without a row (the relations [user], [bet]). *)
Definition transaction_refused (row : Transaction.t) (s : Db) : option Error :=
  match Transaction.balanceBefore row, Transaction.balanceAfter row with
  | Some before, Some after =>
      if negb (int4 (Transaction.amount row) && int4 before && int4 after)
      then Some InvalidIntValue
      else if match Transaction.betId row with
              | Some b => references (transactions s) b
              | None => false
              end
      then Some UniqueConstraintFailed
      else if has_row (users s) (Transaction.userId row)
              && match Transaction.betId row with
                 | Some b => has_row (bets s) b
                 | None => true
                 end
      then None
      else Some ForeignKeyConstraintFailed
  | _, _ => Some ArgumentMissing
  end.

(** What the schema refuses of the data of [tx.notification.create]: a
    [recipientId] without a row. *)
Definition notification_refused (row : Notification.t) (s : Db) : option Error :=
  if has_row (users s) (Notification.recipientId row) then None
  else Some ForeignKeyConstraintFailed.

(** The [tx.model] calls of the transactions below. *)
Definition user_update := update users set_users User.valid.
Definition prediction_update := update predictions set_predictions Prediction.valid.
Definition option_update := update options set_options PredictionOption.valid.
Definition bet_update := update bets set_bets Bet.valid.
Definition bet_create := create bets set_bets bet_refused.
Definition transaction_create := create transactions set_transactions transaction_refused.
Definition notification_create := create notifications set_notifications notification_refused.

(** A JavaScript number written to an [Int] column: it has to be an integer,
    which [NaN] and the infinities are not. *)
Definition asInt (x : option Z) : Tx Z :=
  match x with
  | Some z => ret z
  | None => throw InvalidIntValue
  end.

(** Reading a property of the result of [findUnique], which may be [null]. *)
Definition notNull {A} (x : option A) : Tx A :=
  match x with
  | Some a => ret a
  | None => throw NullDereference
  end.

(* ===================================================================== *)
(** ** Odds (FEATURES_AND_FLOWS 4.1, "Odds Calculation") *)
(* ===================================================================== *)

(** [const odds = totalPool / optionTotal;] *)
Definition odds (totalPool optionTotal : Z) : JS.number :=
  JS.div (JS.ofInt totalPool) (JS.ofInt optionTotal).

(** The odds shown for [option] once [betAmount] is placed on
    [selectedOption]:
<<
    const totalPool = prediction.totalPool + betAmount;
    const optionTotal = option.totalCoins + (selectedOption === option.id ? betAmount : 0);
    const odds = totalPool / optionTotal;
>>
    The two sums are sums of 32-bit integers, exact in binary64. *)
Definition oddsAfterBet (prediction : Prediction.t) (optionId : Id)
    (option : PredictionOption.t) (selectedOption : Id) (betAmount : Z) : JS.number :=
  let totalPool := Prediction.totalPool prediction + betAmount in
  let optionTotal :=
    PredictionOption.totalCoins option
    + (if decide (selectedOption = optionId) then betAmount else 0) in
  odds totalPool optionTotal.

(** [const potentialPayout = Math.floor(betAmount * odds);] *)
Definition potentialPayout (betAmount : Z) (odds : JS.number) : option Z :=
  JS.floor (JS.mul (JS.ofInt betAmount) odds).

(* ===================================================================== *)
(** ** Placing a bet (FEATURES_AND_FLOWS 4.1) *)
(* ===================================================================== *)

(** The transaction of "Transaction Example".  [currentOdds] is the free
    variable the snippet stores in [oddsAtBet]. *)
Definition placeBetTx (userId predictionId optionId : Id) (betAmount : Z)
    (currentOdds : JS.number) : Tx Id :=
  (* Deduct coins *)
  (user <~ user_update userId (fun u =>
     User.mk (User.coinBalance u - betAmount) (User.totalBets u + 1)
             (User.totalWins u) (User.totalLosses u)) ;;
  (* Create bet *)
   bet <~ bet_create
     (Bet.mk userId predictionId optionId betAmount currentOdds PENDING 0) ;;
  (* Update prediction totals *)
   _ <~ prediction_update predictionId (fun p =>
     Prediction.mk (Prediction.creatorId p) (Prediction.status p)
                   (Prediction.correctOptionId p)
                   (Prediction.totalPool p + betAmount) (Prediction.totalBets p + 1)) ;;
  (* Update option totals *)
   _ <~ option_update optionId (fun o =>
     PredictionOption.mk (PredictionOption.predictionId o)
                         (PredictionOption.totalBets o + 1)
                         (PredictionOption.totalCoins o + betAmount)) ;;
  (* Record transaction *)
   _ <~ transaction_create
     (Transaction.mk userId BET_PLACED (- betAmount)
        (Some (User.coinBalance user + betAmount)) (Some (User.coinBalance user))
        (Some bet)) ;;
   ret bet)%tx.

(** Modelled from the spec: [validateBet] of services/betting.service is not
    in the repository; its unit test is, and fixes its input ([amount],
    [userBalance], [predictionStatus]) and its two messages.  Of the
    preconditions of the specification's BettingEngine, the model has those
    that this input decides, in the specification's order: the market is
    ACTIVE, the amount is positive, the balance covers the amount.  They are
    the three checks of step 7 of "Place a Bet".  The specification's other
    preconditions (the option belongs to the market, the market's end lies
    ahead, the amount is below a ceiling) are not modelled, so that more
    requests pass than the specification allows; the statements that use
    [validateBet] are about a bet it rejects and about an invariant that
    every committed bet keeps. *)
Definition validateBet (amount userBalance : Z) (predictionStatus : PredictionStatus)
    : option Error :=
  if negb (bool_decide (predictionStatus = ACTIVE)) then Some PredictionHasEnded
  else if amount <=? 0 then Some InvalidAmount
  else if userBalance <? amount then Some InsufficientBalance
  else None.

(** Steps 7 and 8 of "Place a Bet": the system validates, then executes the
    transaction.  The user and the prediction are read for the validation. *)
Definition placeBet (userId predictionId optionId : Id) (betAmount : Z)
    (currentOdds : JS.number) : Tx Id :=
  fun s =>
    match users s !! userId, predictions s !! predictionId with
    | Some user, Some prediction =>
        match validateBet betAmount (User.coinBalance user) (Prediction.status prediction) with
        | Some e => inl e
        | None => placeBetTx userId predictionId optionId betAmount currentOdds s
        end
    | _, _ => inl RecordNotFound
    end.

(* ===================================================================== *)
(** ** The numbers of the resolution (FEATURES_AND_FLOWS 5.1, "Payout Calculation") *)
(* ===================================================================== *)

(** [const payout = Math.floor(bet.amount * oddsForWinners);] *)
Definition payoutOf (amount : Z) (oddsForWinners : JS.number) : option Z :=
  JS.floor (JS.mul (JS.ofInt amount) oddsForWinners).

(** [const oddsForWinners = prediction.totalPool / correctOption.totalCoins;] *)
Definition oddsForWinners (prediction : Prediction.t) (correctOption : PredictionOption.t)
    : JS.number :=
  odds (Prediction.totalPool prediction) (PredictionOption.totalCoins correctOption).

(** [const creatorReward = Math.floor(prediction.totalPool * 0.05); // 5% fee] *)
Definition creatorReward (totalPool : Z) : option Z :=
  JS.floor (JS.mul (JS.ofInt totalPool) JS.lit_0_05).

(* ===================================================================== *)
(** ** Predicates on numbers *)
(* ===================================================================== *)

(** A number that is not negative: its sign bit, if it has one, is clear. *)
Definition nonnegative (x : JS.number) : Prop :=
  match x with
  | S754_zero s | S754_infinity s | S754_finite s _ _ => s = false
  | S754_nan => True
  end.

Definition sumZ (l : list Z) : Z := foldr Z.add 0 l.


(* ===================================================================== *)
(** ** The client's optimistic update (hooks/use-predictions.ts, usePlaceBet) *)
(* ===================================================================== *)

Module Cache.
(** A prediction as the query cache holds it under the key
    [['predictions', predictionId]]: the row with its options.  The fields are
    those the hook reads or writes; the spread [...old] / [...opt] keeps every
    other field. *)
Record Option := mkOption {
    id : Id;
    totalCoins : Z;
    optionTotalBets : Z
  }.
Record prediction := mkPrediction {
    totalPool : Z;
    totalBets : Z;
    options : list Option
  }.
End Cache.

(** The query cache, restricted to the keys [['predictions', id]]. *)
Definition QueryCache := gmap Id Cache.prediction.

(** The updater passed to [setQueryData] in [onMutate], for a cached value
    that is not [undefined]:
<<
    return {
      ...old,
      totalPool: old.totalPool + amount,
      totalBets: old.totalBets + 1,
      options: old.options.map((opt: any) =>
        opt.id === optionId ? { ...opt, totalCoins: opt.totalCoins + amount } : opt),
    };
>>
    The sums are sums of 32-bit integers, exact in binary64. *)
Definition optimisticUpdate (optionId : Id) (amount : Z) (old : Cache.prediction)
    : Cache.prediction :=
  Cache.mkPrediction
    (Cache.totalPool old + amount)
    (Cache.totalBets old + 1)
    ((fun opt => if decide (Cache.id opt = optionId)
                 then Cache.mkOption (Cache.id opt) (Cache.totalCoins opt + amount)
                                     (Cache.optionTotalBets opt)
                 else opt) <$> Cache.options old).

(** [onMutate]: it returns the context [{ previousPrediction }] and leaves the
    cache updated.  [setQueryData] with an updater that returns [undefined]
    (here: when nothing is cached, [if (!old) return old]) changes nothing. *)
Definition onMutate (predictionId optionId : Id) (amount : Z) (cache : QueryCache)
    : option Cache.prediction * QueryCache :=
  let previousPrediction := cache !! predictionId in
  (previousPrediction,
   match cache !! predictionId with
   | Some old => <[predictionId := optimisticUpdate optionId amount old]> cache
   | None => cache
   end).

(** [onError]: [if (context?.previousPrediction) setQueryData(key, context.previousPrediction)].
    The context is [undefined] when [onMutate] did not return. *)
Definition onError (predictionId : Id)
    (context : option (option Cache.prediction)) (cache : QueryCache)
    : QueryCache :=
  match context with
  | Some (Some previousPrediction) => <[predictionId := previousPrediction]> cache
  | _ => cache
  end.

(** The entry that mirrors the database: the prediction row with the option
    rows of the prediction, in key order, as the hook's
    [invalidateQueries] makes the cache hold it again after a refetch. *)
Definition mirror (s : Db) (predictionId : Id) : option Cache.prediction :=
  match predictions s !! predictionId with
  | Some p =>
      Some (Cache.mkPrediction (Prediction.totalPool p) (Prediction.totalBets p)
              ((fun x : Id * PredictionOption.t =>
                  Cache.mkOption x.1 (PredictionOption.totalCoins x.2)
                                 (PredictionOption.totalBets x.2))
                 <$> filter (fun x => PredictionOption.predictionId x.2 = predictionId)
                       (rows (options s))))
  | None => None
  end.

(** The one field of the optimistic entry that the update leaves behind: the
    bet counter of the chosen option. *)
Definition countBet (optionId : Id) (c : Cache.prediction) : Cache.prediction :=
  Cache.mkPrediction (Cache.totalPool c) (Cache.totalBets c)
    ((fun opt => if decide (Cache.id opt = optionId)
                 then Cache.mkOption (Cache.id opt) (Cache.totalCoins opt)
                                     (Cache.optionTotalBets opt + 1)
                 else opt) <$> Cache.options c).
(* ===================================================================== *)
(** ** The order of the rows of a query *)
(* ===================================================================== *)

(** [tx.bet.findMany({ where: { predictionId } })] gives no [orderBy]: the
    database returns the matching rows in an order of its choice.  A
    [RowOrder] is one such choice: it rearranges the rows and neither drops
    nor repeats one. *)
Record RowOrder := mkRowOrder {
  arrange :> list (Id * Bet.t) -> list (Id * Bet.t);
  arrange_perm : forall l, arrange l ≡ₚ l
}.

(** By key, ascending and descending. *)
Definition keyOrder : RowOrder := mkRowOrder (fun l => l) (fun l => Permutation_refl l).
Definition reverseKeyOrder : RowOrder := mkRowOrder reverse reverse_Permutation.

Section Order.

(** The order in which the database returns the rows of [findMany]: any. *)
Variable rowOrder : RowOrder.

(** [tx.bet.findMany({ where: { predictionId } })] *)
Definition bet_findMany (predictionId : Id) : Tx (list (Id * Bet.t)) :=
  fun s => inr (rowOrder (filter (fun b => Bet.predictionId b.2 = predictionId)
                            (rows (bets s))), s).

(* ===================================================================== *)
(** ** Resolving a prediction (FEATURES_AND_FLOWS 5.1, "Payout Calculation") *)
(* ===================================================================== *)

(** The body of [for (const bet of winningBets)]. *)
Definition processWinner (odds : JS.number) (bet : Id * Bet.t) : Tx unit :=
  (payout <~ asInt (payoutOf (Bet.amount bet.2) odds) ;;
   _ <~ user_update (Bet.userId bet.2) (fun u =>
     User.mk (User.coinBalance u + payout) (User.totalBets u)
             (User.totalWins u + 1) (User.totalLosses u)) ;;
   _ <~ bet_update bet.1 (fun b =>
     Bet.mk (Bet.userId b) (Bet.predictionId b) (Bet.optionId b) (Bet.amount b)
            (Bet.oddsAtBet b) WON payout) ;;
   _ <~ transaction_create
     (Transaction.mk (Bet.userId bet.2) BET_WON payout None None (Some bet.1)) ;;
   (* Notify winner *)
   _ <~ notification_create (Notification.mk (Bet.userId bet.2) NOTIFY_BET_WON) ;;
   ret tt)%tx.

(** The body of [for (const bet of losingBets)]. *)
Definition processLoser (bet : Id * Bet.t) : Tx unit :=
  (_ <~ user_update (Bet.userId bet.2) (fun u =>
     User.mk (User.coinBalance u) (User.totalBets u)
             (User.totalWins u) (User.totalLosses u + 1)) ;;
   _ <~ bet_update bet.1 (fun b =>
     Bet.mk (Bet.userId b) (Bet.predictionId b) (Bet.optionId b) (Bet.amount b)
            (Bet.oddsAtBet b) LOST (Bet.payout b)) ;;
   (* Notify loser *)
   _ <~ notification_create (Notification.mk (Bet.userId bet.2) NOTIFY_BET_LOST) ;;
   ret tt)%tx.

(** The resolution transaction.  The snippet reads [prediction.totalPool],
    [prediction.creatorId] from a [prediction] it does not bind; it is the row
    of [predictionId], here the row the first [update] returns (as in the
    schema document's version of this transaction). *)
Definition resolveTx (predictionId correctOptionId : Id) : Tx unit :=
  (* Mark as resolved *)
  (prediction <~ prediction_update predictionId (fun p =>
     Prediction.mk (Prediction.creatorId p) RESOLVED (Some correctOptionId)
                   (Prediction.totalPool p) (Prediction.totalBets p)) ;;
  (* Get all bets *)
   allBets <~ bet_findMany predictionId ;;
  (* Process winners *)
   let winningBets := filter (fun b => Bet.optionId b.2 = correctOptionId) allBets in
   correctOption <~ findUnique options correctOptionId ;;
   correctOption <~ notNull correctOption ;;
   let odds := oddsForWinners prediction correctOption in
   _ <~ forEach winningBets (processWinner odds) ;;
  (* Process losers *)
   let losingBets := filter (fun b => Bet.optionId b.2 <> correctOptionId) allBets in
   _ <~ forEach losingBets processLoser ;;
  (* Optional: Award creator *)
   reward <~ asInt (creatorReward (Prediction.totalPool prediction)) ;;
   _ <~ user_update (Prediction.creatorId prediction) (fun u =>
     User.mk (User.coinBalance u + reward) (User.totalBets u)
             (User.totalWins u) (User.totalLosses u)) ;;
   ret tt)%tx.

(* ===================================================================== *)
(** ** Cancelling a prediction (FEATURES_AND_FLOWS 3.3, "Refund Logic") *)
(* ===================================================================== *)

(** The body of [for (const bet of bets)]. *)
Definition refundBet (bet : Id * Bet.t) : Tx unit :=
  (_ <~ user_update (Bet.userId bet.2) (fun u =>
     User.mk (User.coinBalance u + Bet.amount bet.2) (User.totalBets u)
             (User.totalWins u) (User.totalLosses u)) ;;
   _ <~ bet_update bet.1 (fun b =>
     Bet.mk (Bet.userId b) (Bet.predictionId b) (Bet.optionId b) (Bet.amount b)
            (Bet.oddsAtBet b) REFUNDED (Bet.payout b)) ;;
   _ <~ transaction_create
     (Transaction.mk (Bet.userId bet.2) BET_REFUNDED (Bet.amount bet.2) None None
        (Some bet.1)) ;;
   ret tt)%tx.

Definition cancelTx (predictionId : Id) : Tx unit :=
  (* Get all bets on this prediction *)
  (bets <~ bet_findMany predictionId ;;
  (* Refund each bet *)
   _ <~ forEach bets refundBet ;;
  (* Mark prediction as cancelled *)
   _ <~ prediction_update predictionId (fun p =>
     Prediction.mk (Prediction.creatorId p) CANCELLED (Prediction.correctOptionId p)
                   (Prediction.totalPool p) (Prediction.totalBets p)) ;;
   ret tt)%tx.

(* ===================================================================== *)
(** ** Sequences of operations *)
(* ===================================================================== *)

Inductive Op :=
  | OpPlaceBet (userId predictionId optionId : Id) (betAmount : Z) (currentOdds : JS.number)
  | OpResolve (predictionId correctOptionId : Id)
  | OpCancel (predictionId : Id).

(** One request: its transaction commits, or the database is left as it was. *)
Definition step (s : Db) (op : Op) : Db :=
  match op with
  | OpPlaceBet u p o a k => (transaction (placeBet u p o a k) s).1
  | OpResolve p c => (transaction (resolveTx p c) s).1
  | OpCancel p => (transaction (cancelTx p) s).1
  end.

Definition run (s : Db) (ops : list Op) : Db := foldl step s ops.

(* ===================================================================== *)
(** ** Predicates on the database *)
(* ===================================================================== *)

(** The state in which [balance >= 0] is an invariant: no negative balance,
    stake, pool or option total. *)
Record nonneg_state (s : Db) : Prop := {
  balance_nonneg : Forall (fun u => 0 <= User.coinBalance u) (users s);
  amount_nonneg : Forall (fun b => 0 <= Bet.amount b) (bets s);
  pool_nonneg : Forall (fun p => 0 <= Prediction.totalPool p) (predictions s);
  coins_nonneg : Forall (fun o => 0 <= PredictionOption.totalCoins o) (options s)
}.

(** The coins staked on an option: the amounts of the bets that name it. *)
Definition stakedOn (optionId : Id) (bs : list Bet.t) : Z :=
  sumZ (Bet.amount <$> filter (fun b => Bet.optionId b = optionId) bs).

(** The aggregates agree with the bets: every stake is a positive 32-bit
    integer, every pool is a 32-bit natural, and every option's [totalCoins]
    is the sum of the stakes placed on it. *)
Record consistent (s : Db) : Prop := {
  consistent_amount : Forall (fun b => 0 < Bet.amount b < 2 ^ 31) (bets s);
  consistent_pool : Forall (fun p => 0 <= Prediction.totalPool p < 2 ^ 31) (predictions s);
  consistent_coins : forall optionId o, options s !! optionId = Some o ->
    PredictionOption.totalCoins o = stakedOn optionId (bets s)
    /\ PredictionOption.totalCoins o < 2 ^ 31
}.

(** The bets of [predictionId] that name [correctOptionId]. *)
Definition winning (predictionId correctOptionId : Id) (b : Bet.t) : Prop :=
  Bet.predictionId b = predictionId /\ Bet.optionId b = correctOptionId.

#[global] Instance winning_dec p c b : Decision (winning p c b).
Proof. unfold winning. apply _. Defined.

(** What a resolution has written in the [payout] column of the winners. *)
Definition totalPayout (predictionId correctOptionId : Id) (s : Db) : Z :=
  sumZ (Bet.payout <$> filter (winning predictionId correctOptionId) (bets s)).

(** The coins a transaction has credited, net, over all accounts. *)
Definition totalBalance (s : Db) : Z := sumZ (User.coinBalance <$> users s).

(** Pool consistency of one market: its options' [totalCoins] add up to its
    [totalPool]. *)
Definition optionCoins (predictionId : Id) (s : Db) : Z :=
  sumZ (PredictionOption.totalCoins
          <$> filter (fun o => PredictionOption.predictionId o = predictionId) (options s)).

Definition pool_consistent (s : Db) : Prop :=
  forall predictionId p, predictions s !! predictionId = Some p ->
    optionCoins predictionId s = Prediction.totalPool p.

(** ** The ledger *)

(** [balanceAfter = balanceBefore + amount], for a row that has both. *)
Definition entry_consistent (t : Transaction.t) : Prop :=
  match Transaction.balanceBefore t, Transaction.balanceAfter t with
  | Some before, Some after => after = before + Transaction.amount t
  | _, _ => False
  end.

#[global] Instance entry_consistent_dec t : Decision (entry_consistent t).
Proof.
  unfold entry_consistent.
  destruct (Transaction.balanceBefore t), (Transaction.balanceAfter t); apply _.
Defined.

(** The sum of the [amount]s of an account's rows, in creation order. *)
Definition replay (userId : Id) (log : list Transaction.t) : Z :=
  sumZ (Transaction.amount <$> filter (fun t => Transaction.userId t = userId) log).

(** ** The unique constraint on [Transaction.betId] *)

(** [betId String? @unique]: no two rows carry the same bet; rows without a
    bet are not constrained. *)
Definition betId_unique (log : list Transaction.t) : Prop :=
  forall i j t u b,
    log !! i = Some t -> log !! j = Some u ->
    Transaction.betId t = Some b -> Transaction.betId u = Some b -> i = j.

(** ** The scenarios of the specification *)

Definition newUser : User.t := User.mk 1000 0 0 0.
Definition newPrediction (creatorId : Id) : Prediction.t := Prediction.mk creatorId ACTIVE None 0 0.
Definition newOption (predictionId : Id) : PredictionOption.t := PredictionOption.mk predictionId 0 0.

(** Three accounts with the default balance; prediction 0 of account 0 with
    options 0 (A) and 1 (B); prediction 1 with option 2. *)
Definition db0 : Db :=
  mkDb [newUser; newUser; newUser]
       [newPrediction 0%nat; newPrediction 0%nat]
       [newOption 0%nat; newOption 0%nat; newOption 1%nat]
       [] [] [].

(** The database after the place-bet transaction: it commits, or the database
    is as it was. *)
Definition placed (userId predictionId optionId : Id) (betAmount : Z) (s : Db) : Db :=
  (transaction (placeBetTx userId predictionId optionId betAmount JS.lit_1_0) s).1.

(** Scenario A: account 1 wagers 100 on A, account 2 wagers 300 on B. *)
Definition scenarioA : Db :=
  placed 2%nat 0%nat 1%nat 300 (placed 1%nat 0%nat 0%nat 100 db0).

(** Account 1 wagers 7 on A, account 2 wagers 54 on B: a pool of 61. *)
Definition scenario61 : Db :=
  placed 2%nat 0%nat 1%nat 54 (placed 1%nat 0%nat 0%nat 7 db0).

(** Both accounts wager on B, 100 and 300: a pool of 400 and no coin on A. *)
Definition scenarioAllOnB : Db :=
  placed 2%nat 0%nat 1%nat 300 (placed 1%nat 0%nat 1%nat 100 db0).

(** Scenario B: an account holding 500 coins. *)
Definition scenarioB : Db :=
  mkDb [User.mk 500 0 0 0] [newPrediction 0%nat] [newOption 0%nat] [] [] [].

(** ** The rows the loops write *)

(** The bets of [predictionId] that name another option. *)
Definition losing (predictionId correctOptionId : Id) (b : Bet.t) : Prop :=
  Bet.predictionId b = predictionId /\ Bet.optionId b <> correctOptionId.

#[global] Instance losing_dec p c b : Decision (losing p c b).
Proof. unfold losing. apply _. Defined.

(** A loser's row after [processLoser]: status LOST, payout as it was. *)
Definition lostRow (b : Bet.t) : Bet.t :=
  Bet.mk (Bet.userId b) (Bet.predictionId b) (Bet.optionId b) (Bet.amount b)
         (Bet.oddsAtBet b) LOST (Bet.payout b).

(** The Bet table after a committed resolution, row by row: a resolution
    commits only when the losers' loop has taken every bet of the
    prediction. *)
Definition resolvedRow (predictionId : Id) (b : Bet.t) : Bet.t :=
  if decide (Bet.predictionId b = predictionId) then lostRow b else b.

(* ===================================================================== *)
(** ** Accounting over the tables *)
(* ===================================================================== *)

(** The [coinBalance] column. *)
Definition balances (s : Db) : list Z := User.coinBalance <$> users s.

(** The coins in all pools. *)
Definition totalPools (s : Db) : Z := sumZ (Prediction.totalPool <$> predictions s).

(** The number of bets that satisfy [P]. *)
Definition countBets (P : Bet.t -> Prop) `{!forall b, Decision (P b)} (bs : list Bet.t) : Z :=
  Z.of_nat (length (filter P bs)).

(** The denormalised [totalBets] counters agree with the Bet table: an
    account's counter is the number of its bets, a prediction's the number of
    bets placed on it, an option's the number of bets that name it. *)
Record counters_consistent (s : Db) : Prop := {
  user_totalBets : forall i u, users s !! i = Some u ->
    User.totalBets u = countBets (fun b => Bet.userId b = i) (bets s);
  prediction_totalBets : forall i p, predictions s !! i = Some p ->
    Prediction.totalBets p = countBets (fun b => Bet.predictionId b = i) (bets s);
  option_totalBets : forall i o, options s !! i = Some o ->
    PredictionOption.totalBets o = countBets (fun b => Bet.optionId b = i) (bets s)
}.

(** The notification of a loser, as the resolution transaction builds it from
    a row that [findMany] returned. *)
Definition lostNotification (bet : Id * Bet.t) : Notification.t :=
  Notification.mk (Bet.userId bet.2) NOTIFY_BET_LOST.

(** The prediction row a resolution writes. *)
Definition resolvedPrediction (correctOptionId : Id) (p : Prediction.t) : Prediction.t :=
  Prediction.mk (Prediction.creatorId p) RESOLVED (Some correctOptionId)
                (Prediction.totalPool p) (Prediction.totalBets p).

(** The scenario with both bets on B, after one resolution in favour of A,
    up to the order of the notifications. *)
Definition resolvedOnce (sent : list Notification.t) : Db :=
  mkDb [User.mk 1020 0 0 0; User.mk 900 1 0 1; User.mk 700 1 0 1]
       [Prediction.mk 0%nat RESOLVED (Some 0%nat) 400 2; newPrediction 0%nat]
       [PredictionOption.mk 0%nat 0 0; PredictionOption.mk 0%nat 2 400; newOption 1%nat]
       [Bet.mk 1%nat 0%nat 1%nat 100 JS.lit_1_0 LOST 0;
        Bet.mk 2%nat 0%nat 1%nat 300 JS.lit_1_0 LOST 0]
       (transactions scenarioAllOnB) sent.

(** ** Histories of committed transactions *)

(** One committed transaction of the three embedded here.  A bet's amount is
    positive: [placeBetSchema] (lib/validations) validates
    [amount: z.number().int().positive(...)] before a bet is placed. *)
Inductive commits : Db -> Db -> Prop :=
  | commits_bet (userId predictionId optionId : Id) (betAmount : Z) (currentOdds : JS.number)
      (id : Id) (s s' : Db) :
      0 < betAmount ->
      placeBetTx userId predictionId optionId betAmount currentOdds s = inr (id, s') ->
      commits s s'
  | commits_resolve (predictionId correctOptionId : Id) (s s' : Db) :
      resolveTx predictionId correctOptionId s = inr (tt, s') -> commits s s'
  | commits_cancel (predictionId : Id) (s s' : Db) :
      cancelTx predictionId s = inr (tt, s') -> commits s s'.

Inductive history : Db -> Db -> Prop :=
  | history_start (s : Db) : history s s
  | history_then (s s1 s2 : Db) : history s s1 -> commits s1 s2 -> history s s2.

(* ===================================================================== *)
(** * Facts about binary64 arithmetic *)
(* ===================================================================== *)

Example ofInt_7 : JS.ofInt 7 = S754_finite false 7881299347898368 (-50).
Proof. reflexivity. Qed.

Example lit_0_05_is_1_div_20 : JS.div (JS.ofInt 1) (JS.ofInt 20) = JS.lit_0_05.
Proof. reflexivity. Qed.

Example lit_1_0_is_1 : JS.ofInt 1 = JS.lit_1_0.
Proof. reflexivity. Qed.

(** ** Digits, shifts and rounding to nearest *)

Lemma digits2_pos_bounds (m : positive) :
  2 ^ (Zpos (digits2_pos m) - 1) <= Zpos m < 2 ^ Zpos (digits2_pos m).
Proof.
  induction m as [m IH | m IH |]; simpl digits2_pos.
  - rewrite Pos2Z.inj_succ.
    replace (Z.succ (Zpos (digits2_pos m)) - 1) with (Zpos (digits2_pos m) - 1 + 1) by lia.
    rewrite Z.pow_succ_r by lia. rewrite Z.pow_add_r by lia. lia.
  - rewrite Pos2Z.inj_succ.
    replace (Z.succ (Zpos (digits2_pos m)) - 1) with (Zpos (digits2_pos m) - 1 + 1) by lia.
    rewrite Z.pow_succ_r by lia. rewrite Z.pow_add_r by lia. lia.
  - simpl. lia.
Qed.

Lemma Zdigits2_bounds (m : Z) :
  0 < m -> 2 ^ (Zdigits2 m - 1) <= m < 2 ^ Zdigits2 m.
Proof.
  destruct m as [| p | p]; try lia. intros _. apply digits2_pos_bounds.
Qed.

Lemma Zdigits2_pos (m : Z) : 0 < m -> 0 < Zdigits2 m.
Proof. destruct m; simpl; lia. Qed.

Lemma Zdigits2_le (m : Z) (k : Z) : 0 < m -> m < 2 ^ k -> Zdigits2 m <= k.
Proof.
  intros Hm Hk. pose proof (Zdigits2_bounds m Hm) as [Hlo _].
  pose proof (Zdigits2_pos m Hm).
  destruct (Z_le_gt_dec (Zdigits2 m) k) as [|Hgt]; [assumption|].
  assert (0 <= k).
  { destruct (Z_lt_le_dec k 0); [rewrite Z.pow_neg_r in Hk by lia; lia | lia]. }
  assert (2 ^ k <= 2 ^ (Zdigits2 m - 1)) by (apply Z.pow_le_mono_r; lia).
  lia.
Qed.

Lemma Zdigits2_ge (m : Z) (k : Z) : 0 < m -> 2 ^ (k - 1) <= m -> k <= Zdigits2 m.
Proof.
  intros Hm Hk. pose proof (Zdigits2_bounds m Hm) as [_ Hhi].
  pose proof (Zdigits2_pos m Hm).
  destruct (Z_le_gt_dec k (Zdigits2 m)) as [|Hgt]; [assumption|].
  assert (2 ^ Zdigits2 m <= 2 ^ (k - 1)) by (apply Z.pow_le_mono_r; lia).
  lia.
Qed.


Lemma shr_1_m (r : shr_record) : 0 <= shr_m r -> shr_m (shr_1 r) = shr_m r / 2.
Proof.
  destruct r as [m b s]. intros Hm. cbn [shr_m] in Hm.
  destruct m as [| [p | p |] |]; cbn [shr_1 shr_m]; try lia.
  - reflexivity.
  - apply Z.div_unique with (r := 1); lia.
  - apply Z.div_unique with (r := 0); lia.
  - reflexivity.
Qed.

Lemma iter_shr_1_m (n : positive) :
  forall r, 0 <= shr_m r -> shr_m (SpecFloat.iter_pos shr_1 n r) = shr_m r / 2 ^ Zpos n.
Proof.
  induction n as [n IH | n IH |]; intros r Hr; cbn [SpecFloat.iter_pos].
  - assert (H1 : 0 <= shr_m (shr_1 r)) by (rewrite shr_1_m by lia; apply Z.div_pos; lia).
    assert (H2 : 0 <= shr_m (SpecFloat.iter_pos shr_1 n (shr_1 r)))
      by (rewrite IH by lia; apply Z.div_pos; lia).
    rewrite IH by lia. rewrite IH by lia. rewrite shr_1_m by lia.
    rewrite !Z.div_div by lia. f_equal.
    change (Zpos n~1) with (2 * Zpos n + 1).
    replace (2 * Zpos n + 1) with (Zpos n + Zpos n + 1) by lia.
    rewrite !Z.pow_add_r by lia. change (2 ^ 1) with 2. ring.
  - assert (H2 : 0 <= shr_m (SpecFloat.iter_pos shr_1 n r))
      by (rewrite IH by lia; apply Z.div_pos; lia).
    rewrite IH by lia. rewrite IH by lia.
    rewrite !Z.div_div by lia. f_equal.
    change (Zpos n~0) with (2 * Zpos n).
    replace (2 * Zpos n) with (Zpos n + Zpos n) by lia.
    rewrite Z.pow_add_r by lia. ring.
  - rewrite shr_1_m by lia. reflexivity.
Qed.

Lemma fexp_normal (e : Z) : -1074 <= e - 53 -> fexp 53 1024 e = e - 53.
Proof. unfold fexp, emin. lia. Qed.

Lemma shr_m_record_of_loc (m : Z) (l : location) : shr_m (shr_record_of_loc m l) = m.
Proof. destruct l as [| []]; reflexivity. Qed.

Lemma loc_of_shr_record_of_loc (m : Z) (l : location) :
  loc_of_shr_record (shr_record_of_loc m l) = l.
Proof. destruct l as [| []]; reflexivity. Qed.

Lemma round_nearest_even_bounds (m : Z) (l : location) :
  m <= round_nearest_even m l <= m + 1.
Proof.
  destruct l as [| []]; simpl; try lia. destruct (Z.even m); lia.
Qed.

Lemma shr_fexp_spec (m e : Z) (l : location) :
  0 < m -> -1074 <= Zdigits2 m + e - 53 ->
  exists r, shr_fexp 53 1024 m e l = (r, e + Z.max 0 (Zdigits2 m - 53))
            /\ shr_m r = m / 2 ^ Z.max 0 (Zdigits2 m - 53)
            /\ (Zdigits2 m <= 53 -> r = shr_record_of_loc m l).
Proof.
  intros Hm Hn. unfold shr_fexp. rewrite fexp_normal by lia.
  replace (Zdigits2 m + e - 53 - e) with (Zdigits2 m - 53) by lia.
  destruct (Zdigits2 m - 53) as [| p | p] eqn:E; cbn [shr].
  - exists (shr_record_of_loc m l). rewrite Z.max_l by lia.
    rewrite Z.add_0_r, Z.pow_0_r, Z.div_1_r, shr_m_record_of_loc. auto.
  - exists (SpecFloat.iter_pos shr_1 p (shr_record_of_loc m l)). rewrite Z.max_r by lia.
    split; [reflexivity|]. split; [|lia].
    rewrite iter_shr_1_m; rewrite shr_m_record_of_loc; [reflexivity | lia].
  - exists (shr_record_of_loc m l). rewrite Z.max_l by lia.
    rewrite Z.add_0_r, Z.pow_0_r, Z.div_1_r, shr_m_record_of_loc. auto.
Qed.

(** Truncating a positive integer to its leading 53 bits. *)
Lemma truncate_bounds (m : Z) :
  0 < m ->
  let n := Z.max 0 (Zdigits2 m - 53) in
  let t := m / 2 ^ n in
  0 < t /\ t * 2 ^ n <= m /\ Zdigits2 m - n <= Zdigits2 t
  /\ (53 <= Zdigits2 m -> 2 ^ 52 <= t < 2 ^ 53 /\ 2 ^ 52 * 2 ^ n <= m)
  /\ (Zdigits2 m <= 53 -> t = m).
Proof.
  intros Hm n t. pose proof (Zdigits2_bounds m Hm) as [Hlo Hhi].
  pose proof (Zdigits2_pos m Hm) as Hd.
  assert (Hn : 0 <= n) by lia.
  assert (Hp : 0 < 2 ^ n) by (apply Z.pow_pos_nonneg; lia).
  assert (Hlow : 2 ^ (Zdigits2 m - n - 1) * 2 ^ n <= m).
  { rewrite <- Z.pow_add_r by lia.
    replace (Zdigits2 m - n - 1 + n) with (Zdigits2 m - 1) by lia. exact Hlo. }
  assert (Ht : 2 ^ (Zdigits2 m - n - 1) <= t).
  { apply Z.div_le_lower_bound; lia. }
  assert (Hq : 0 < 2 ^ (Zdigits2 m - n - 1)) by (apply Z.pow_pos_nonneg; lia).
  split; [lia|]. split.
  { unfold t. rewrite Z.mul_comm. apply Z.mul_div_le. lia. }
  split.
  { apply Zdigits2_ge; [lia|]. exact Ht. }
  split.
  - intros H53. assert (En : Zdigits2 m - n - 1 = 52) by lia. rewrite En in *.
    split; [split; [lia|] | lia].
    apply Z.div_lt_upper_bound; [lia|].
    rewrite <- Z.pow_add_r by lia. replace (n + 53) with (Zdigits2 m) by lia. exact Hhi.
  - intros H53. unfold t. replace n with 0 by lia. rewrite Z.pow_0_r. apply Z.div_1_r.
Qed.

Lemma binary_round_aux_upper (mx ex : Z) (lx : location) :
  0 < mx ->
  -1074 <= Zdigits2 mx + ex - 53 ->
  lx = loc_Exact \/ 53 <= Zdigits2 mx ->
  ex + Z.max 0 (Zdigits2 mx - 53) + 1 <= 971 ->
  exists m e,
    binary_round_aux 53 1024 false mx ex lx = S754_finite false m e
    /\ ex <= e <= ex + Z.max 0 (Zdigits2 mx - 53) + 1
    /\ Zpos m * 2 ^ (e - ex) * 2 ^ 52 <= mx * (2 ^ 52 + 1).
Proof.
  intros Hm Hnorm Hloc Hov.
  destruct (shr_fexp_spec mx ex lx Hm Hnorm) as (r1 & E1 & M1 & X1).
  destruct (truncate_bounds mx Hm) as (Ht0 & Htn & Htd & Ht53 & Hteq).
  set (n := Z.max 0 (Zdigits2 mx - 53)) in *.
  set (t := mx / 2 ^ n) in *.
  unfold binary_round_aux. rewrite E1.
  set (m1 := round_nearest_even (shr_m r1) (loc_of_shr_record r1)).
  assert (Hndef : n = Z.max 0 (Zdigits2 mx - 53)) by reflexivity.
  assert (Hn : 0 <= n) by lia.
  assert (Hpn : 0 < 2 ^ n) by (apply Z.pow_pos_nonneg; lia).
  assert (Hm1 : t <= m1 <= t + 1).
  { unfold m1. rewrite M1. apply round_nearest_even_bounds. }
  (* the rounded mantissa, against the exact one *)
  assert (HA : m1 * 2 ^ n * 2 ^ 52 <= mx * (2 ^ 52 + 1)).
  { destruct (Z_lt_le_dec (Zdigits2 mx) 53) as [Hlt | Hge].
    - destruct Hloc as [-> | ?]; [|lia].
      assert (m1 = mx).
      { unfold m1. rewrite X1 by lia. reflexivity. }
      replace n with 0 by lia. rewrite Z.pow_0_r. lia.
    - destruct (Ht53 Hge) as [[Hlo Hhi] Hbig]. nia. }
  assert (HB : Z.max 0 (Zdigits2 m1 - 53) <= 1).
  { destruct (Z_lt_le_dec (Zdigits2 mx) 53) as [Hlt | Hge].
    - destruct Hloc as [-> | ?]; [|lia].
      assert (Em : m1 = mx).
      { unfold m1. rewrite X1 by lia. reflexivity. }
      rewrite Em. lia.
    - destruct (Ht53 Hge) as [[Hlo Hhi] Hbig].
      assert (Zdigits2 m1 <= 54).
      { apply Zdigits2_le; [lia|]. change (2 ^ 54) with (2 * 2 ^ 53). lia. }
      lia. }
  assert (Hm1pos : 0 < m1) by lia.
  assert (Hd1 : Zdigits2 mx - n <= Zdigits2 m1).
  { pose proof (Zdigits2_bounds t Ht0) as [Hlo _].
    apply Zdigits2_ge; [lia|].
    assert (2 ^ (Zdigits2 mx - n - 1) <= 2 ^ (Zdigits2 t - 1)).
    { apply Z.pow_le_mono_r; lia. }
    lia. }
  destruct (shr_fexp_spec m1 (ex + n) loc_Exact Hm1pos ltac:(lia)) as (r2 & E2 & M2 & _).
  rewrite E2.
  destruct (truncate_bounds m1 Hm1pos) as (Hu0 & Hun & _ & _ & _).
  set (n2 := Z.max 0 (Zdigits2 m1 - 53)) in *.
  assert (Hn2 : 0 <= n2) by lia.
  rewrite M2. set (u := m1 / 2 ^ n2) in *.
  destruct u as [| p | p] eqn:Eu; try lia.
  assert (Hle : (ex + n + n2 <=? 1024 - 53) = true) by (apply Z.leb_le; lia).
  rewrite Hle. exists p, (ex + n + n2). split; [reflexivity|]. split; [lia|].
  replace (ex + n + n2 - ex) with (n2 + n) by lia.
  rewrite Z.pow_add_r by lia.
  assert (0 < 2 ^ n2) by (apply Z.pow_pos_nonneg; lia).
  nia.
Qed.

Lemma binary_round_aux_exact (mx ex : Z) :
  0 < mx -> Zdigits2 mx <= 53 ->
  -1074 <= Zdigits2 mx + ex - 53 -> ex <= 971 ->
  binary_round_aux 53 1024 false mx ex loc_Exact = S754_finite false (Z.to_pos mx) ex.
Proof.
  intros Hm Hd Hnorm Hov.
  destruct (shr_fexp_spec mx ex loc_Exact Hm Hnorm) as (r1 & E1 & _ & X1).
  unfold binary_round_aux. rewrite E1, (X1 Hd). cbn [shr_record_of_loc loc_of_shr_record shr_m round_nearest_even].
  rewrite Z.max_l in * by lia. rewrite Z.add_0_r in *. rewrite E1, (X1 Hd).
  cbn [shr_record_of_loc shr_m].
  destruct mx as [| p | p]; try lia.
  assert (Hle : (ex <=? 1024 - 53) = true) by (apply Z.leb_le; lia).
  rewrite Hle. reflexivity.
Qed.

Lemma Pos_iter_xO (p k : positive) : Zpos (Pos.iter xO p k) = Zpos p * 2 ^ Zpos k.
Proof.
  revert p. induction k as [k IH | k IH |]; intros p; cbn [Pos.iter].
  - rewrite Pos2Z.inj_xO, !IH.
    change (Zpos k~1) with (2 * Zpos k + 1).
    replace (2 * Zpos k + 1) with (Zpos k + Zpos k + 1) by lia.
    rewrite !Z.pow_add_r by lia. change (2 ^ 1) with 2. ring.
  - rewrite !IH. change (Zpos k~0) with (2 * Zpos k).
    replace (2 * Zpos k) with (Zpos k + Zpos k) by lia.
    rewrite !Z.pow_add_r by lia. ring.
  - rewrite Pos2Z.inj_xO. change (2 ^ 1) with 2. ring.
Qed.

Lemma ofInt_pos (z : Z) :
  0 < z < 2 ^ 53 ->
  exists m, JS.ofInt z = S754_finite false m (Zdigits2 z - 53)
            /\ Zpos m = z * 2 ^ (53 - Zdigits2 z)
            /\ Zdigits2 (Zpos m) = 53.
Proof.
  intros [Hz Hz53]. destruct z as [| p | p]; try lia.
  pose proof (Zdigits2_bounds (Zpos p) Hz) as [Hlo Hhi].
  pose proof (Zdigits2_le (Zpos p) 53 Hz Hz53) as Hd.
  pose proof (Zdigits2_pos (Zpos p) Hz) as Hd0.
  unfold JS.ofInt, JS.prec, JS.emax, binary_normalize, binary_round, shl_align.
  rewrite fexp_normal by (cbn [Zdigits2] in *; lia).
  change (Zpos (digits2_pos p)) with (Zdigits2 (Zpos p)).
  replace (Zdigits2 (Zpos p) + 0 - 53 - 0) with (Zdigits2 (Zpos p) - 53) by lia.
  destruct (Zdigits2 (Zpos p) - 53) as [| k | k] eqn:E; try lia.
  - rewrite binary_round_aux_exact; try lia.
    exists p. replace (Zdigits2 (Zpos p)) with 53 by lia.
    change (2 ^ (53 - 53)) with 1. split; [reflexivity|]. lia.
  - assert (Hk : Zpos k = 53 - Zdigits2 (Zpos p)) by lia.
    assert (Hv : Zpos (Pos.iter xO p k) = Zpos p * 2 ^ (53 - Zdigits2 (Zpos p))).
    { rewrite Pos_iter_xO, Hk. reflexivity. }
    assert (Hd53 : Zdigits2 (Zpos (Pos.iter xO p k)) = 53).
    { assert (Hpk : 0 < 2 ^ Zpos k) by (apply Z.pow_pos_nonneg; lia).
      apply Z.le_antisymm.
      - apply Zdigits2_le; [lia|]. rewrite Pos_iter_xO.
        replace 53 with (Zdigits2 (Zpos p) + Zpos k) by lia.
        rewrite Z.pow_add_r by lia. nia.
      - apply Zdigits2_ge; [lia|]. rewrite Pos_iter_xO.
        replace (53 - 1) with (Zdigits2 (Zpos p) - 1 + Zpos k) by lia.
        rewrite Z.pow_add_r by lia. nia. }
    replace (Zdigits2 (Zpos p) + 0 - 53) with (Zdigits2 (Zpos p) - 53) by lia.
    rewrite binary_round_aux_exact; try lia.
    exists (Pos.iter xO p k). rewrite E. auto.
Qed.

Lemma scaled_chain (r a p c q MQ X T2 S2 Ua Up Uc W B K E : Z) :
  0 <= r -> 0 < a -> 0 < p -> 0 < c -> 0 <= q -> 0 < MQ -> 0 <= X ->
  0 < T2 -> 0 < S2 -> 0 < Ua -> 0 < Up -> 0 < Uc -> 0 < W -> 0 < B -> 0 < K -> 0 < E ->
  r * T2 <= X ->
  X * B <= a * Ua * MQ * K ->
  MQ * S2 * B <= q * K ->
  q * (c * Uc) <= p * Up * E ->
  T2 * S2 = Ua * W ->
  W * Uc = Up * E ->
  r * c * (B * B) <= a * p * (K * K).
Proof.
  intros Hr Ha Hp Hc Hq HMQ HX HT2 HS2 HUa HUp HUc HW HB HK HE H1 H2 H3 H4 H5 H6.
  assert (Sa : r * T2 * B <= a * Ua * MQ * K).
  { apply Z.le_trans with (X * B); [|exact H2].
    apply Z.mul_le_mono_nonneg_r; lia. }
  assert (Sb : r * T2 * B * (S2 * B) <= a * Ua * K * (q * K)).
  { apply Z.le_trans with (a * Ua * MQ * K * (S2 * B)).
    - apply Z.mul_le_mono_nonneg_r; [|exact Sa]. apply Z.mul_nonneg_nonneg; lia.
    - replace (a * Ua * MQ * K * (S2 * B)) with (a * Ua * K * (MQ * S2 * B)) by ring.
      apply Z.mul_le_mono_nonneg_l; [|exact H3].
      apply Z.mul_nonneg_nonneg; [apply Z.mul_nonneg_nonneg|]; lia. }
  assert (Sc : r * T2 * B * (S2 * B) * (c * Uc) <= a * Ua * K * K * (p * Up * E)).
  { apply Z.le_trans with (a * Ua * K * (q * K) * (c * Uc)).
    - apply Z.mul_le_mono_nonneg_r; [|exact Sb]. apply Z.mul_nonneg_nonneg; lia.
    - replace (a * Ua * K * (q * K) * (c * Uc)) with (a * Ua * K * K * (q * (c * Uc))) by ring.
      apply Z.mul_le_mono_nonneg_l; [|exact H4].
      repeat apply Z.mul_nonneg_nonneg; lia. }
  replace (r * T2 * B * (S2 * B) * (c * Uc))
    with (r * c * (B * B) * (T2 * S2 * Uc)) in Sc by ring.
  rewrite H5 in Sc.
  replace (Ua * W * Uc) with (Ua * (W * Uc)) in Sc by ring.
  rewrite H6 in Sc.
  replace (a * Ua * K * K * (p * Up * E)) with (a * p * (K * K) * (Ua * (Up * E))) in Sc by ring.
  apply Z.mul_le_mono_pos_r in Sc; [exact Sc|].
  repeat apply Z.mul_pos_pos; lia.
Qed.

Lemma div_core_spec (m1 e1 m2 e2 : Z) :
  0 < m1 -> 0 < m2 -> Zdigits2 m1 = 53 -> Zdigits2 m2 = 53 ->
  -1074 <= e1 - e2 - 53 ->
  exists l, SFdiv_core_binary 53 1024 m1 e1 m2 e2 = (m1 * 2 ^ 53 / m2, e1 - e2 - 53, l).
Proof.
  intros H1 H2 D1 D2 Hn. unfold SFdiv_core_binary. rewrite D1, D2.
  replace (53 + e1 - (53 + e2)) with (e1 - e2) by lia.
  rewrite fexp_normal by lia. rewrite Z.min_l by lia.
  replace (e1 - e2 - (e1 - e2 - 53)) with 53 by lia.
  cbv iota beta. rewrite Z.shiftl_mul_pow2 by lia.
  unfold Z.div. destruct (Z.div_eucl (m1 * 2 ^ 53) m2) as [q r].
  eexists. reflexivity.
Qed.

(** ** Rounding from below *)

Lemma div_pow2_lt (m n : Z) : 0 <= n -> m < (m / 2 ^ n + 1) * 2 ^ n.
Proof.
  intros Hn. assert (Hp : 0 < 2 ^ n) by (apply Z.pow_pos_nonneg; lia).
  pose proof (Z.div_mod m (2 ^ n) ltac:(lia)) as Hdm.
  pose proof (Z.mod_pos_bound m (2 ^ n) Hp). lia.
Qed.

Lemma binary_round_aux_lower (mx ex : Z) (lx : location) (m : positive) (e : Z) :
  0 < mx ->
  -1074 <= Zdigits2 mx + ex - 53 ->
  lx = loc_Exact \/ 53 <= Zdigits2 mx ->
  binary_round_aux 53 1024 false mx ex lx = S754_finite false m e ->
  ex <= e /\ mx * (2 ^ 52 - 1) <= Zpos m * 2 ^ (e - ex) * 2 ^ 52.
Proof.
  intros Hm Hnorm Hloc Hres.
  destruct (shr_fexp_spec mx ex lx Hm Hnorm) as (r1 & E1 & M1 & X1).
  destruct (truncate_bounds mx Hm) as (Ht0 & Htn & Htd & Ht53 & Hteq).
  set (n := Z.max 0 (Zdigits2 mx - 53)) in *.
  assert (Hndef : n = Z.max 0 (Zdigits2 mx - 53)) by reflexivity.
  assert (Hn : 0 <= n) by lia.
  pose proof (div_pow2_lt mx n Hn) as Htlt.
  set (t := mx / 2 ^ n) in *.
  unfold binary_round_aux in Hres. rewrite E1 in Hres.
  set (m1 := round_nearest_even (shr_m r1) (loc_of_shr_record r1)) in *.
  assert (Hpn : 0 < 2 ^ n) by (apply Z.pow_pos_nonneg; lia).
  assert (Hm1 : t <= m1 <= t + 1).
  { unfold m1. rewrite M1. apply round_nearest_even_bounds. }
  assert (Hm1pos : 0 < m1) by lia.
  assert (Hd1 : Zdigits2 mx - n <= Zdigits2 m1).
  { pose proof (Zdigits2_bounds t Ht0) as [Hlo _].
    apply Zdigits2_ge; [lia|].
    assert (2 ^ (Zdigits2 mx - n - 1) <= 2 ^ (Zdigits2 t - 1)).
    { apply Z.pow_le_mono_r; lia. }
    lia. }
  destruct (shr_fexp_spec m1 (ex + n) loc_Exact Hm1pos ltac:(lia)) as (r2 & E2 & M2 & _).
  rewrite E2 in Hres. rewrite M2 in Hres.
  set (n2 := Z.max 0 (Zdigits2 m1 - 53)) in *.
  assert (Hn2 : 0 <= n2) by lia.
  assert (Hpn2 : 0 < 2 ^ n2) by (apply Z.pow_pos_nonneg; lia).
  pose proof (div_pow2_lt m1 n2 Hn2) as Hult.
  set (u := m1 / 2 ^ n2) in *.
  (* the second shift loses nothing that the rounding had not added *)
  assert (Hu : t <= u * 2 ^ n2).
  { destruct (Z_lt_le_dec (Zdigits2 m1) 54) as [Hlt | Hge].
    - assert (n2 = 0) by lia.
      assert (Eu : u = m1) by (unfold u; replace n2 with 0 by lia; rewrite Z.pow_0_r; apply Z.div_1_r).
      rewrite Eu. replace n2 with 0 by lia. rewrite Z.pow_0_r. lia.
    - (* the rounding carried into a 54th bit: the mantissa was truncated *)
      pose proof (Zdigits2_bounds m1 Hm1pos) as [Hlo1 _].
      assert (H53 : 2 ^ 53 <= m1).
      { apply Z.le_trans with (2 ^ (Zdigits2 m1 - 1)); [|exact Hlo1].
        apply Z.pow_le_mono_r; lia. }
      destruct (Z_lt_le_dec (Zdigits2 mx) 53) as [Hlt | Hge'].
      + destruct Hloc as [-> | ?]; [|lia].
        assert (Em : m1 = mx) by (unfold m1; rewrite X1 by lia; reflexivity).
        rewrite Em in Hge. lia.
      + destruct (Ht53 Hge') as [[Hlo Hhi] _].
        assert (Em1 : m1 = 2 ^ 53) by lia.
        assert (Zdigits2 m1 <= 54).
        { apply Zdigits2_le; [lia|]. rewrite Em1. change (2 ^ 54) with (2 * 2 ^ 53). lia. }
        assert (En2 : n2 = 1) by lia.
        unfold u. rewrite En2, Em1. change (2 ^ 53 / 2 ^ 1 * 2 ^ 1) with (2 ^ 53). lia. }
  destruct u as [| p | p] eqn:Eu; try discriminate.
  destruct (ex + n + n2 <=? 1024 - 53); [|discriminate].
  injection Hres as <- <-. split; [lia|].
  replace (ex + n + n2 - ex) with (n2 + n) by lia.
  rewrite Z.pow_add_r by lia.
  assert (Hval : t * 2 ^ n <= Zpos p * 2 ^ n2 * 2 ^ n) by nia.
  destruct (Z_lt_le_dec (Zdigits2 mx) 53) as [Hlt | Hge].
  - assert (n = 0) by lia. assert (Et : t = mx).
    { unfold t. replace n with 0 by lia. rewrite Z.pow_0_r. apply Z.div_1_r. }
    replace n with 0 in * by lia. rewrite Z.pow_0_r in *. nia.
  - destruct (Ht53 Hge) as [[Hlo Hhi] Hbig]. nia.
Qed.

Lemma scaled_chain_last (N B R c : Z) :
  N * (B - 3) < R * B -> 3 * N <= B * c -> N * B < (R + c) * B.
Proof. intros H1 H2. lia. Qed.

Lemma scaled_chain_quotient (E PU q CU : Z) :
  PU * E < (q + 1) * CU -> CU < E -> E * (PU - 1) < q * CU.
Proof. intros H1 H2. lia. Qed.

Lemma scaled_chain_normal (B PU : Z) : B <= PU -> PU * (B - 1) <= B * (PU - 1).
Proof. intros H. lia. Qed.

Lemma scaled_chain_cube (B : Z) : 3 < B -> B * B * (B - 3) <= (B - 1) * (B - 1) * (B - 1).
Proof. intros H. nia. Qed.

Lemma scaled_chain_lower (r a p c q MQ X T2 S2 Ua Up Uc W B E : Z) :
  0 <= r -> 0 < a -> 0 < p -> 0 < c -> 0 < q -> 0 < MQ -> 0 <= X ->
  0 < T2 -> 0 < S2 -> 0 < Ua -> 0 < Up -> 0 < Uc -> 0 < W -> 3 < B -> 0 < E ->
  X < (r + 1) * T2 ->
  a * Ua * MQ * (B - 1) <= X * B ->
  q * (B - 1) <= MQ * S2 * B ->
  p * Up * E < (q + 1) * (c * Uc) ->
  T2 * S2 = Ua * W ->
  W * Uc = Up * E ->
  c * Uc < E -> B <= p * Up ->
  3 * (a * p) <= B * c ->
  a * p < (r + 2) * c.
Proof.
  intros Hr Ha Hp Hc Hq HMQ HX HT2 HS2 HUa HUp HUc HW HB HE H1 H2 H3 H4 H5 H6 H7 H8 H9.
  assert (HB0 : 0 < B) by (clear - HB; lia).
  assert (HB1 : 0 < B - 1) by (clear - HB; lia).
  (* a (B-1)^2 q < (r+1) W B^2 *)
  assert (S1 : a * Ua * MQ * (B - 1) < (r + 1) * T2 * B).
  { apply Z.le_lt_trans with (X * B); [exact H2|].
    apply Z.mul_lt_mono_pos_r; assumption. }
  assert (HaU : 0 < a * Ua * (B - 1)) by (repeat apply Z.mul_pos_pos; assumption).
  assert (S2a : a * Ua * (B - 1) * (q * (B - 1)) <= a * Ua * (B - 1) * (MQ * S2 * B)).
  { apply Z.mul_le_mono_nonneg_l; [apply Z.lt_le_incl; exact HaU | exact H3]. }
  assert (S2b : a * Ua * (B - 1) * (MQ * S2 * B) < (r + 1) * T2 * B * (S2 * B)).
  { replace (a * Ua * (B - 1) * (MQ * S2 * B)) with (a * Ua * MQ * (B - 1) * (S2 * B)) by ring.
    apply Z.mul_lt_mono_pos_r; [|exact S1]. apply Z.mul_pos_pos; assumption. }
  assert (S2c : a * ((B - 1) * (B - 1)) * q < (r + 1) * W * (B * B)).
  { apply Z.mul_lt_mono_pos_l with Ua; [assumption|].
    replace (Ua * (a * ((B - 1) * (B - 1)) * q)) with (a * Ua * (B - 1) * (q * (B - 1))) by ring.
    replace (Ua * ((r + 1) * W * (B * B))) with ((r + 1) * (Ua * W) * B * B) by ring.
    rewrite <- H5. replace ((r + 1) * (T2 * S2) * B * B) with ((r + 1) * T2 * B * (S2 * B)) by ring.
    exact (Z.le_lt_trans _ _ _ S2a S2b). }
  (* a (B-1)^2 (p Up - 1) < (r+1) Up c B^2 *)
  set (G := a * ((B - 1) * (B - 1))) in *.
  assert (HG : 0 < G) by (unfold G; repeat apply Z.mul_pos_pos; assumption).
  assert (HcU : 0 < c * Uc) by (apply Z.mul_pos_pos; assumption).
  assert (S3a : G * q * (c * Uc) < (r + 1) * W * (B * B) * (c * Uc)).
  { apply Z.mul_lt_mono_pos_r; [exact HcU | exact S2c]. }
  pose proof (scaled_chain_quotient E (p * Up) q (c * Uc) H4 H7) as S3b.
  assert (S3c : G * (E * (p * Up - 1)) < G * (q * (c * Uc))).
  { apply Z.mul_lt_mono_pos_l; assumption. }
  assert (S3d : G * (p * Up - 1) < (r + 1) * Up * c * (B * B)).
  { apply Z.mul_lt_mono_pos_l with E; [assumption|].
    replace (E * (G * (p * Up - 1))) with (G * (E * (p * Up - 1))) by ring.
    replace (E * ((r + 1) * Up * c * (B * B))) with ((r + 1) * (Up * E) * (B * B) * c) by ring.
    rewrite <- H6.
    replace ((r + 1) * (W * Uc) * (B * B) * c) with ((r + 1) * W * (B * B) * (c * Uc)) by ring.
    replace (G * (q * (c * Uc))) with (G * q * (c * Uc)) in S3c by ring.
    exact (Z.lt_trans _ _ _ S3c S3a). }
  (* a p (B-1)^3 < (r+1) c B^3 *)
  pose proof (scaled_chain_normal B (p * Up) H8) as S4a.
  assert (S4b : G * (p * Up * (B - 1)) <= G * (B * (p * Up - 1))).
  { apply Z.mul_le_mono_nonneg_l; [apply Z.lt_le_incl; exact HG | exact S4a]. }
  assert (S4c : G * (B - 1) * p < (r + 1) * c * (B * B * B)).
  { apply Z.mul_lt_mono_pos_l with Up; [assumption|].
    replace (Up * (G * (B - 1) * p)) with (G * (p * Up * (B - 1))) by ring.
    apply Z.le_lt_trans with (G * (B * (p * Up - 1))); [exact S4b|].
    replace (G * (B * (p * Up - 1))) with (B * (G * (p * Up - 1))) by ring.
    replace (Up * ((r + 1) * c * (B * B * B))) with (B * ((r + 1) * Up * c * (B * B))) by ring.
    apply Z.mul_lt_mono_pos_l; [exact HB0 | exact S3d]. }
  (* (B-1)^3 >= B^3 - 3 B^2 *)
  assert (HN : 0 < a * p) by (apply Z.mul_pos_pos; assumption).
  assert (S5a : a * p * (B * B * (B - 3)) <= G * (B - 1) * p).
  { unfold G. replace (a * ((B - 1) * (B - 1)) * (B - 1) * p)
      with (a * p * ((B - 1) * (B - 1) * (B - 1))) by ring.
    apply Z.mul_le_mono_nonneg_l; [apply Z.lt_le_incl; exact HN|].
    exact (scaled_chain_cube B HB). }
  pose proof (Z.le_lt_trans _ _ _ S5a S4c) as S5b.
  assert (S5c : a * p * (B - 3) < (r + 1) * c * B).
  { apply Z.mul_lt_mono_pos_l with (B * B); [apply Z.mul_pos_pos; exact HB0|].
    replace (B * B * (a * p * (B - 3))) with (a * p * (B * B * (B - 3))) by ring.
    replace (B * B * ((r + 1) * c * B)) with ((r + 1) * c * (B * B * B)) by ring. exact S5b. }
  pose proof (scaled_chain_last (a * p) B ((r + 1) * c) c S5c H9) as S5d.
  apply Z.mul_lt_mono_pos_r in S5d; [|exact HB0].
  replace ((r + 2) * c) with ((r + 1) * c + c) by ring. exact S5d.
Qed.

(** ** The payout expression [Math.floor(amount * (pool / coins))] *)

(** [pool / coins] for positive 32-bit integers: a finite number, with the
    truncated quotient of the scaled mantissas rounded up by at most one unit
    in the last place. *)
Lemma odds_upper (p c : Z) :
  0 < p < 2 ^ 31 -> 0 < c < 2 ^ 31 ->
  exists mq eq q,
    odds p c = S754_finite false mq eq
    /\ Zdigits2 p - Zdigits2 c - 53 <= eq <= Zdigits2 p - Zdigits2 c - 51
    /\ 0 <= q < 2 ^ 54
    /\ q * (c * 2 ^ (53 - Zdigits2 c)) <= p * 2 ^ (53 - Zdigits2 p) * 2 ^ 53
    /\ Zpos mq * 2 ^ (eq - (Zdigits2 p - Zdigits2 c - 53)) * 2 ^ 52 <= q * (2 ^ 52 + 1)
    /\ 2 ^ 52 <= q
    /\ p * 2 ^ (53 - Zdigits2 p) * 2 ^ 53 < (q + 1) * (c * 2 ^ (53 - Zdigits2 c))
    /\ q * (2 ^ 52 - 1) <= Zpos mq * 2 ^ (eq - (Zdigits2 p - Zdigits2 c - 53)) * 2 ^ 52
    /\ c * 2 ^ (53 - Zdigits2 c) < 2 ^ 53
    /\ 2 ^ 52 <= p * 2 ^ (53 - Zdigits2 p).
Proof.
  intros Hp Hc.
  assert (Hp53 : 0 < p < 2 ^ 53) by (change (2 ^ 31) with 2147483648 in *; change (2 ^ 53) with 9007199254740992; lia).
  assert (Hc53 : 0 < c < 2 ^ 53) by (change (2 ^ 31) with 2147483648 in *; change (2 ^ 53) with 9007199254740992; lia).
  destruct (ofInt_pos p Hp53) as (mp & Ep & Vp & Dp).
  destruct (ofInt_pos c Hc53) as (mc & Ec & Vc & Dc).
  pose proof (Zdigits2_pos p ltac:(lia)) as Hdp0.
  pose proof (Zdigits2_pos c ltac:(lia)) as Hdc0.
  pose proof (Zdigits2_le p 31 ltac:(lia) ltac:(lia)) as Hdp.
  pose proof (Zdigits2_le c 31 ltac:(lia) ltac:(lia)) as Hdc.
  pose proof (Zdigits2_bounds (Zpos mp) ltac:(lia)) as Bp. rewrite Dp in Bp.
  pose proof (Zdigits2_bounds (Zpos mc) ltac:(lia)) as Bc. rewrite Dc in Bc.
  change (2 ^ (53 - 1)) with (2 ^ 52) in *.
  unfold odds, JS.div. rewrite Ep, Ec. unfold SFdiv. cbn [xorb].
  destruct (div_core_spec (Zpos mp) (Zdigits2 p - 53) (Zpos mc) (Zdigits2 c - 53))
    as (l & El); try lia.
  unfold JS.prec, JS.emax. rewrite El.
  set (q := Zpos mp * 2 ^ 53 / Zpos mc).
  assert (Hq : 2 ^ 52 <= q < 2 ^ 54).
  { unfold q. split.
    - apply Z.div_le_lower_bound; [lia|].
      change (2 ^ 53) with (2 * 2 ^ 52) in *. nia.
    - apply Z.div_lt_upper_bound; [lia|].
      change (2 ^ 54) with (2 * 2 ^ 53). change (2 ^ 53) with (2 * 2 ^ 52) in *. nia. }
  assert (Hqm : q * Zpos mc <= Zpos mp * 2 ^ 53).
  { unfold q. rewrite Z.mul_comm. apply Z.mul_div_le. lia. }
  assert (Hdq : 53 <= Zdigits2 q <= 54).
  { split; [apply Zdigits2_ge | apply Zdigits2_le]; change (2 ^ (53 - 1)) with (2 ^ 52); lia. }
  destruct (binary_round_aux_upper q (Zdigits2 p - 53 - (Zdigits2 c - 53) - 53) l)
    as (mq & eq & Eq & Heq & Hv); try lia.
  destruct (binary_round_aux_lower q (Zdigits2 p - 53 - (Zdigits2 c - 53) - 53) l mq eq)
    as (_ & Hlow); try lia; [exact Eq|].
  assert (Hqlt : Zpos mp * 2 ^ 53 < (q + 1) * Zpos mc).
  { unfold q. pose proof (Z.div_mod (Zpos mp * 2 ^ 53) (Zpos mc) ltac:(lia)).
    pose proof (Z.mod_pos_bound (Zpos mp * 2 ^ 53) (Zpos mc) ltac:(lia)). lia. }
  rewrite Eq. exists mq, eq, q.
  replace (Zdigits2 p - 53 - (Zdigits2 c - 53) - 53)
    with (Zdigits2 p - Zdigits2 c - 53) in * by lia.
  split; [reflexivity|]. split; [lia|]. split; [lia|].
  rewrite <- Vp, <- Vc.
  split; [exact Hqm|]. split; [exact Hv|]. split; [lia|]. split; [exact Hqlt|].
  split; [exact Hlow|]. lia.
Qed.

(** [Math.floor] of a positive finite number [m * 2^er], seen at the scale
    [2^-T] of an exponent [- T <= er]. *)
Lemma floor_shift_bounds (m er T : Z) :
  0 < m -> 0 <= T -> 0 <= er + T ->
  0 <= (if 0 <=? er then m * 2 ^ er else m / 2 ^ (- er))
  /\ (if 0 <=? er then m * 2 ^ er else m / 2 ^ (- er)) * 2 ^ T <= m * 2 ^ (er + T)
  /\ m * 2 ^ (er + T) < ((if 0 <=? er then m * 2 ^ er else m / 2 ^ (- er)) + 1) * 2 ^ T.
Proof.
  intros Hm HT HeT.
  assert (HT2 : 0 < 2 ^ T) by (apply Z.pow_pos_nonneg; lia).
  destruct (Z.leb_spec 0 er) as [Hpos | Hneg].
  - assert (He2 : 0 < 2 ^ er) by (apply Z.pow_pos_nonneg; lia).
    rewrite Z.pow_add_r by lia.
    assert (Hme : 0 < m * 2 ^ er) by (apply Z.mul_pos_pos; assumption).
    split; [lia|]. split; [rewrite Z.mul_assoc; lia|].
    rewrite Z.mul_assoc. apply Z.mul_lt_mono_pos_r; lia.
  - assert (Hne : 0 < 2 ^ (- er)) by (apply Z.pow_pos_nonneg; lia).
    assert (Hs : 0 < 2 ^ (er + T)) by (apply Z.pow_pos_nonneg; lia).
    assert (ET : 2 ^ T = 2 ^ (- er) * 2 ^ (er + T)).
    { rewrite <- Z.pow_add_r by lia. f_equal. lia. }
    split; [apply Z.div_pos; lia|]. rewrite ET. split.
    + rewrite Z.mul_assoc. apply Z.mul_le_mono_nonneg_r; [lia|].
      rewrite Z.mul_comm. apply Z.mul_div_le. exact Hne.
    + rewrite Z.mul_assoc. apply Z.mul_lt_mono_pos_r; [exact Hs|].
      apply div_pow2_lt. lia.
Qed.

(** The code's payout of a bet of [a] coins, on an option holding [c] coins of
    a pool of [p]: an integer [r], with the scaled mantissas that tie it to the
    exact quotient.  [q] is the truncated quotient of the mantissas, [MQ] the
    mantissa of the rounded odds, [X / T2] the rounded product. *)
Lemma payoutOf_scaled (a p c : Z) :
  0 < a < 2 ^ 31 -> 0 < p < 2 ^ 31 -> 0 < c < 2 ^ 31 ->
  exists r q MQ X T2 S2 W,
    payoutOf a (odds p c) = Some r
    /\ 0 <= r /\ 0 < q /\ 0 < MQ /\ 0 <= X /\ 0 < T2 /\ 0 < S2 /\ 0 < W
    /\ r * T2 <= X < (r + 1) * T2
    /\ X * 2 ^ 52 <= a * 2 ^ (53 - Zdigits2 a) * MQ * (2 ^ 52 + 1)
    /\ a * 2 ^ (53 - Zdigits2 a) * MQ * (2 ^ 52 - 1) <= X * 2 ^ 52
    /\ MQ * S2 * 2 ^ 52 <= q * (2 ^ 52 + 1)
    /\ q * (2 ^ 52 - 1) <= MQ * S2 * 2 ^ 52
    /\ q * (c * 2 ^ (53 - Zdigits2 c)) <= p * 2 ^ (53 - Zdigits2 p) * 2 ^ 53
    /\ p * 2 ^ (53 - Zdigits2 p) * 2 ^ 53 < (q + 1) * (c * 2 ^ (53 - Zdigits2 c))
    /\ T2 * S2 = 2 ^ (53 - Zdigits2 a) * W
    /\ W * 2 ^ (53 - Zdigits2 c) = 2 ^ (53 - Zdigits2 p) * 2 ^ 53
    /\ c * 2 ^ (53 - Zdigits2 c) < 2 ^ 53
    /\ 2 ^ 52 <= p * 2 ^ (53 - Zdigits2 p).
Proof.
  intros Ha Hp Hc.
  destruct (odds_upper p c Hp Hc)
    as (mq & eq & q & Eo & Heq & Hq & Hqc & Hmq & Hq52 & Hqlt & Hmqlow & Hcm & Hpm).
  assert (Ha53 : 0 < a < 2 ^ 53) by (change (2 ^ 31) with 2147483648 in *; change (2 ^ 53) with 9007199254740992; lia).
  destruct (ofInt_pos a Ha53) as (ma & Ea & Va & Da).
  pose proof (Zdigits2_pos a ltac:(lia)) as Hda0.
  pose proof (Zdigits2_pos p ltac:(lia)) as Hdp0.
  pose proof (Zdigits2_pos c ltac:(lia)) as Hdc0.
  pose proof (Zdigits2_le a 31 ltac:(lia) ltac:(lia)) as Hda.
  pose proof (Zdigits2_le p 31 ltac:(lia) ltac:(lia)) as Hdp.
  pose proof (Zdigits2_le c 31 ltac:(lia) ltac:(lia)) as Hdc.
  pose proof (Zdigits2_bounds (Zpos ma) ltac:(lia)) as Ba. rewrite Da in Ba.
  set (e' := Zdigits2 p - Zdigits2 c - 53) in *.
  assert (HS2 : 0 < 2 ^ (eq - e')) by (apply Z.pow_pos_nonneg; lia).
  (* the rounded quotient's mantissa is below 2^55 *)
  assert (Hmq55 : Zpos mq < 2 ^ 55).
  { change (2 ^ 55) with (4 * 2 ^ 53). change (2 ^ 54) with (2 * 2 ^ 53) in Hq.
    change (2 ^ 53) with (2 * 2 ^ 52) in *. nia. }
  assert (Hprod : 0 < Zpos (ma * mq) < 2 ^ 108).
  { split; [lia|]. rewrite Pos2Z.inj_mul.
    change (2 ^ 108) with (2 ^ 53 * 2 ^ 55). nia. }
  pose proof (Zdigits2_pos (Zpos (ma * mq)) ltac:(lia)) as Hdm0.
  pose proof (Zdigits2_le (Zpos (ma * mq)) 108 ltac:(lia) ltac:(lia)) as Hdm.
  unfold payoutOf, JS.mul. rewrite Eo, Ea. unfold SFmul. cbn [xorb].
  destruct (binary_round_aux_upper (Zpos (ma * mq)) (Zdigits2 a - 53 + eq) loc_Exact)
    as (mr & er & Er & Her & Hv); try lia; [left; reflexivity|].
  destruct (binary_round_aux_lower (Zpos (ma * mq)) (Zdigits2 a - 53 + eq) loc_Exact mr er)
    as (_ & Hvlow); try lia; [left; reflexivity | exact Er |].
  unfold JS.prec, JS.emax. rewrite Er. unfold JS.floor. cbn [cond_Zopp].
  set (ea := Zdigits2 a - 53) in *.
  set (T := - (ea + eq)).
  assert (HT : 0 <= T) by (unfold T, ea, e' in *; lia).
  assert (HT2 : 0 < 2 ^ T) by (apply Z.pow_pos_nonneg; lia).
  destruct (floor_shift_bounds (Zpos mr) er T ltac:(lia) HT ltac:(unfold T; lia))
    as (Hr0 & HrX1 & HrX2).
  set (r := if 0 <=? er then Zpos mr * 2 ^ er else Zpos mr / 2 ^ (- er)) in *.
  replace (er + T) with (er - (ea + eq)) in HrX1, HrX2 by (unfold T; lia).
  set (X := Zpos mr * 2 ^ (er - (ea + eq))) in *.
  assert (HX0 : 0 <= X).
  { unfold X. apply Z.mul_nonneg_nonneg; [lia|]. apply Z.pow_nonneg. lia. }
  exists r, q, (Zpos mq), X, (2 ^ T), (2 ^ (eq - e')), (2 ^ (53 + Zdigits2 c - Zdigits2 p)).
  rewrite Pos2Z.inj_mul in Hv, Hvlow. fold X in Hv, Hvlow. rewrite Va in Hv, Hvlow.
  split; [reflexivity|]. split; [exact Hr0|]. split; [lia|]. split; [lia|].
  split; [exact HX0|]. split; [exact HT2|]. split; [exact HS2|].
  split; [apply Z.pow_pos_nonneg; lia|].
  split; [split; [exact HrX1 | exact HrX2]|].
  split; [exact Hv|]. split; [exact Hvlow|].
  split; [exact Hmq|]. split; [exact Hmqlow|].
  split; [exact Hqc|]. split; [exact Hqlt|].
  split.
  { rewrite <- !Z.pow_add_r by (unfold T, ea, e' in *; lia). f_equal. unfold T, ea, e'. lia. }
  split.
  { rewrite <- !Z.pow_add_r by lia. f_equal. lia. }
  split; assumption.
Qed.

(** The payout is at most the exact ratio times (1 + 2^-52)^2. *)
Lemma payoutOf_upper (a p c : Z) :
  0 < a < 2 ^ 31 -> 0 < p < 2 ^ 31 -> 0 < c < 2 ^ 31 ->
  exists r, payoutOf a (odds p c) = Some r
            /\ 0 <= r
            /\ r * c * (2 ^ 52 * 2 ^ 52) <= a * p * ((2 ^ 52 + 1) * (2 ^ 52 + 1)).
Proof.
  intros Ha Hp Hc.
  destruct (payoutOf_scaled a p c Ha Hp Hc)
    as (r & q & MQ & X & T2 & S2 & W & Er & Hr & Hq & HMQ & HX & HT2 & HS2 & HW
        & [HrX _] & Hup & _ & Hqup & _ & Hqc & _ & E1 & E2 & _ & _).
  exists r. split; [exact Er|]. split; [exact Hr|].
  apply scaled_chain with (q := q) (MQ := MQ) (X := X) (T2 := T2) (S2 := S2)
    (Ua := 2 ^ (53 - Zdigits2 a)) (Up := 2 ^ (53 - Zdigits2 p))
    (Uc := 2 ^ (53 - Zdigits2 c)) (W := W) (E := 2 ^ 53);
    try assumption; try lia; try (apply Z.pow_pos_nonneg; lia).
  all: pose proof (Zdigits2_le a 31 ltac:(lia) ltac:(lia));
       pose proof (Zdigits2_le p 31 ltac:(lia) ltac:(lia));
       pose proof (Zdigits2_le c 31 ltac:(lia) ltac:(lia));
       apply Z.pow_pos_nonneg; lia.
Qed.

(** When three times the exact product is below 2^52 coins of the option, the
    payout is above the exact ratio minus two: the floor of the exact ratio,
    or one coin less. *)
Lemma payoutOf_lower (a p c : Z) :
  0 < a < 2 ^ 31 -> 0 < p < 2 ^ 31 -> 0 < c < 2 ^ 31 ->
  3 * (a * p) <= 2 ^ 52 * c ->
  exists r, payoutOf a (odds p c) = Some r /\ a * p < (r + 2) * c.
Proof.
  intros Ha Hp Hc H3.
  destruct (payoutOf_scaled a p c Ha Hp Hc)
    as (r & q & MQ & X & T2 & S2 & W & Er & Hr & Hq & HMQ & HX & HT2 & HS2 & HW
        & [_ HrX] & _ & Hlow & _ & Hqlow & _ & Hqlt & E1 & E2 & HcE & HpB).
  exists r. split; [exact Er|].
  pose proof (Zdigits2_le a 31 ltac:(lia) ltac:(lia)).
  pose proof (Zdigits2_le p 31 ltac:(lia) ltac:(lia)).
  pose proof (Zdigits2_le c 31 ltac:(lia) ltac:(lia)).
  apply scaled_chain_lower with (q := q) (MQ := MQ) (X := X) (T2 := T2) (S2 := S2)
    (Ua := 2 ^ (53 - Zdigits2 a)) (Up := 2 ^ (53 - Zdigits2 p))
    (Uc := 2 ^ (53 - Zdigits2 c)) (W := W) (B := 2 ^ 52) (E := 2 ^ 53);
    try assumption; try lia; try (apply Z.pow_pos_nonneg; lia).
Qed.

(** ** Signs *)

Lemma binary_round_aux_nonneg (m e : Z) (l : location) :
  nonnegative (binary_round_aux 53 1024 false m e l).
Proof.
  unfold binary_round_aux.
  destruct (shr_fexp 53 1024 m e l) as [r1 e1].
  destruct (shr_fexp 53 1024 _ e1 loc_Exact) as [r2 e2].
  destruct (shr_m r2); cbn; auto. destruct (_ <=? _); cbn; auto.
Qed.

Lemma ofInt_nonneg (z : Z) : 0 <= z -> nonnegative (JS.ofInt z).
Proof.
  intros Hz. destruct z as [| p | p]; try lia.
  - reflexivity.
  - unfold JS.ofInt, binary_normalize, binary_round.
    destruct (shl_align _ _ _) as [mz ez]. apply binary_round_aux_nonneg.
Qed.

Lemma div_nonneg (x y : JS.number) :
  nonnegative x -> nonnegative y -> nonnegative (JS.div x y).
Proof.
  destruct x as [sx | sx | | sx mx ex], y as [sy | sy | | sy my ey]; cbn;
    intros Hx Hy; subst; cbn; auto.
  destruct (SFdiv_core_binary _ _ _ _ _ _) as [[mz ez] lz].
  apply binary_round_aux_nonneg.
Qed.

Lemma mul_nonneg (x y : JS.number) :
  nonnegative x -> nonnegative y -> nonnegative (JS.mul x y).
Proof.
  destruct x as [sx | sx | | sx mx ex], y as [sy | sy | | sy my ey]; cbn;
    intros Hx Hy; subst; cbn; auto.
  apply binary_round_aux_nonneg.
Qed.

Lemma floor_nonneg (x : JS.number) (r : Z) :
  nonnegative x -> JS.floor x = Some r -> 0 <= r.
Proof.
  destruct x as [s | s | | s m e]; cbn; intros Hx [= <-]; subst; try lia.
  cbn. destruct (Z.leb_spec 0 e).
  - assert (0 < 2 ^ e) by (apply Z.pow_pos_nonneg; lia). lia.
  - apply Z.div_pos; [lia|]. apply Z.pow_pos_nonneg; lia.
Qed.

Lemma payoutOf_nonneg (a p c r : Z) :
  0 <= a -> 0 <= p -> 0 <= c -> payoutOf a (odds p c) = Some r -> 0 <= r.
Proof.
  intros Ha Hp Hc. apply floor_nonneg.
  apply mul_nonneg; [|apply div_nonneg]; apply ofInt_nonneg; assumption.
Qed.

Lemma creatorReward_nonneg (p r : Z) : 0 <= p -> creatorReward p = Some r -> 0 <= r.
Proof.
  intros Hp. apply floor_nonneg.
  apply mul_nonneg; [apply ofInt_nonneg; assumption | reflexivity].
Qed.

(** With an empty pool the odds are zero and so is every payout. *)
Lemma payoutOf_empty_pool (a c : Z) :
  0 < a < 2 ^ 31 -> 0 < c < 2 ^ 31 -> payoutOf a (odds 0 c) = Some 0.
Proof.
  intros Ha Hc.
  assert (Ha53 : 0 < a < 2 ^ 53) by (change (2 ^ 31) with 2147483648 in *; change (2 ^ 53) with 9007199254740992; lia).
  assert (Hc53 : 0 < c < 2 ^ 53) by (change (2 ^ 31) with 2147483648 in *; change (2 ^ 53) with 9007199254740992; lia).
  destruct (ofInt_pos a Ha53) as (ma & Ea & _).
  destruct (ofInt_pos c Hc53) as (mc & Ec & _).
  unfold payoutOf, odds. rewrite Ea, Ec. reflexivity.
Qed.

(** The bound of [payoutOf_upper], the empty pool included. *)
Lemma payoutOf_bound (a p c : Z) :
  0 < a < 2 ^ 31 -> 0 <= p < 2 ^ 31 -> 0 < c < 2 ^ 31 ->
  exists r, payoutOf a (odds p c) = Some r
            /\ 0 <= r
            /\ r * c * (2 ^ 52 * 2 ^ 52) <= a * p * ((2 ^ 52 + 1) * (2 ^ 52 + 1)).
Proof.
  intros Ha Hp Hc. destruct (Z.eq_dec p 0) as [-> | Hne].
  - exists 0. rewrite payoutOf_empty_pool by assumption. split; [reflexivity|]. lia.
  - apply payoutOf_upper; lia.
Qed.

(** For stakes and pools whose product is below 2^50 the code's payout never
    exceeds the exact quotient: the two roundings can only lose. *)
Lemma payoutOf_le_exact (a p c r : Z) :
  0 < a < 2 ^ 31 -> 0 <= p < 2 ^ 31 -> 0 < c < 2 ^ 31 -> a * p < 2 ^ 50 ->
  payoutOf a (odds p c) = Some r -> r <= a * p / c.
Proof.
  intros Ha Hp Hc Hap Hr.
  destruct (payoutOf_bound a p c Ha Hp Hc) as (r' & Er & Hr0 & Hb).
  assert (r' = r) by congruence. subst r'.
  apply Z.div_le_lower_bound; [lia|].
  destruct (Z_le_gt_dec (c * r) (a * p)) as [|Hgt]; [assumption|]. exfalso.
  assert (HB : 2 ^ 52 = 4503599627370496) by reflexivity.
  assert (H50 : 2 ^ 50 = 1125899906842624) by reflexivity.
  rewrite HB in Hb. rewrite H50 in Hap.
  set (B := 4503599627370496) in *.
  assert (HB4 : 4 * (a * p) < B) by (unfold B; lia).
  assert (HB1 : 1 < B) by (unfold B; lia).
  assert (Hap0 : 0 <= a * p) by nia.
  set (N := a * p) in *. set (M := c * r) in *.
  replace (r * c) with M in Hb by (unfold M; ring).
  clearbody B N M. nia.
Qed.

(** For stakes and pools whose product is below 2^50, the code pays the floor
    of the exact quotient or exactly one coin less. *)
Lemma payoutOf_within_one (a p c : Z) :
  0 < a < 2 ^ 31 -> 0 < p < 2 ^ 31 -> 0 < c < 2 ^ 31 -> a * p < 2 ^ 50 ->
  exists r, payoutOf a (odds p c) = Some r /\ a * p / c - 1 <= r <= a * p / c.
Proof.
  intros Ha Hp Hc Hap.
  assert (H3 : 3 * (a * p) <= 2 ^ 52 * c).
  { change (2 ^ 50) with 1125899906842624 in Hap.
    change (2 ^ 52) with 4503599627370496. nia. }
  destruct (payoutOf_lower a p c Ha Hp Hc H3) as (r & Er & Hlow).
  exists r. split; [exact Er|]. split.
  - assert (a * p / c < r + 2); [|lia].
    apply Z.div_lt_upper_bound; lia.
  - apply (payoutOf_le_exact a p c r); try assumption. lia.
Qed.

(* ===================================================================== *)
(** * Facts about transactions *)
(* ===================================================================== *)

Lemma bind_inr {A B} (m : Tx A) (k : A -> Tx B) (s s' : Db) (b : B) :
  bind m k s = inr (b, s') <-> exists a s1, m s = inr (a, s1) /\ k a s1 = inr (b, s').
Proof.
  unfold bind. destruct (m s) as [e | [a s1]]; split.
  - discriminate.
  - intros (a & s1 & H & _). discriminate.
  - intros H. exists a, s1. auto.
  - intros (a' & s1' & H & Hk). injection H as -> ->. exact Hk.
Qed.

Lemma ret_inr {A} (a b : A) (s s' : Db) : ret a s = inr (b, s') <-> a = b /\ s = s'.
Proof. unfold ret. split; [intros [= -> ->] | intros [-> ->]]; auto. Qed.

Lemma asInt_inr (x : option Z) (z : Z) (s s' : Db) :
  asInt x s = inr (z, s') <-> x = Some z /\ s = s'.
Proof.
  destruct x as [y|]; cbn; unfold ret, throw; split.
  - intros [= -> ->]. auto.
  - intros [[= ->] ->]. reflexivity.
  - discriminate.
  - intros [? _]. discriminate.
Qed.

Lemma notNull_inr {A} (x : option A) (a : A) (s s' : Db) :
  notNull x s = inr (a, s') <-> x = Some a /\ s = s'.
Proof.
  destruct x as [y|]; cbn; unfold ret, throw; split.
  - intros [= -> ->]. auto.
  - intros [[= ->] ->]. reflexivity.
  - discriminate.
  - intros [? _]. discriminate.
Qed.

Section TableFacts.
Context {R : Type}.
Variable get : Db -> list R.
Variable set : (list R -> list R) -> Db -> Db.

Lemma update_inr (valid : R -> bool) (id : Id) (data : R -> R) (s s' : Db) (r : R) :
  update get set valid id data s = inr (r, s') <->
  exists r0, get s !! id = Some r0 /\ r = data r0 /\ valid r = true
             /\ s' = set (fun t => <[id := r]> t) s.
Proof.
  unfold update. destruct (get s !! id) as [r0|]; split.
  - destruct (valid (data r0)) eqn:V; [|discriminate].
    intros [= <- <-]. exists r0. auto.
  - intros (r1 & [= <-] & -> & V & ->). rewrite V. reflexivity.
  - discriminate.
  - intros (r1 & H & _). discriminate.
Qed.

Lemma create_inr (refused : R -> Db -> option Error) (row : R) (s s' : Db) (id : Id) :
  create get set refused row s = inr (id, s') <->
  refused row s = None /\ id = length (get s) /\ s' = set (fun t => t ++ [row]) s.
Proof.
  unfold create. destruct (refused row s); split.
  - discriminate.
  - intros [? _]. discriminate.
  - intros [= <- <-]. auto.
  - intros (_ & -> & ->). reflexivity.
Qed.

Lemma findUnique_inr (id : Id) (s s' : Db) (x : option R) :
  findUnique get id s = inr (x, s') <-> x = get s !! id /\ s' = s.
Proof. unfold findUnique. split; [intros [= <- <-] | intros [-> ->]]; auto. Qed.
End TableFacts.

Lemma bet_findMany_inr (predictionId : Id) (s s' : Db) (l : list (Id * Bet.t)) :
  bet_findMany predictionId s = inr (l, s') <->
  l = rowOrder (filter (fun b => Bet.predictionId b.2 = predictionId) (rows (bets s)))
  /\ s' = s.
Proof. unfold bet_findMany. split; [intros [= <- <-] | intros [-> ->]]; auto. Qed.

Lemma transaction_create_inr (row : Transaction.t) (s s' : Db) (id : Id) :
  transaction_create row s = inr (id, s') <->
  transaction_refused row s = None
  /\ id = length (transactions s) /\ s' = set_transactions (fun t => t ++ [row]) s.
Proof. apply create_inr. Qed.

Lemma notification_create_inr (row : Notification.t) (s s' : Db) (id : Id) :
  notification_create row s = inr (id, s') <->
  notification_refused row s = None
  /\ id = length (notifications s) /\ s' = set_notifications (fun t => t ++ [row]) s.
Proof. apply create_inr. Qed.

Lemma bet_create_inr (row : Bet.t) (s s' : Db) (id : Id) :
  bet_create row s = inr (id, s') <->
  bet_refused row s = None /\ id = length (bets s) /\ s' = set_bets (fun t => t ++ [row]) s.
Proof. apply create_inr. Qed.

Lemma has_row_true {R} (t : list R) (id : Id) : has_row t id = true <-> is_Some (t !! id).
Proof. unfold has_row. apply bool_decide_eq_true. Qed.

(** What [tx.bet.create] asks of its data. *)
Lemma bet_refused_None (row : Bet.t) (s : Db) :
  bet_refused row s = None <->
  Bet.valid row = true
  /\ is_Some (users s !! Bet.userId row)
  /\ is_Some (predictions s !! Bet.predictionId row)
  /\ is_Some (options s !! Bet.optionId row).
Proof.
  unfold bet_refused. destruct (Bet.valid row); cbn; [|split; [discriminate | intros [? _]; discriminate]].
  rewrite <- !has_row_true.
  destruct (has_row (users s) _), (has_row (predictions s) _), (has_row (options s) _); cbn;
    split; try discriminate; try tauto; intros (_ & ? & ? & ?); discriminate.
Qed.

(** What [tx.transaction.create] asks of its data. *)
Lemma transaction_refused_None (row : Transaction.t) (s : Db) :
  transaction_refused row s = None <->
  (exists before after,
     Transaction.balanceBefore row = Some before /\ Transaction.balanceAfter row = Some after
     /\ int4 (Transaction.amount row) = true /\ int4 before = true /\ int4 after = true)
  /\ (forall b, Transaction.betId row = Some b ->
        references (transactions s) b = false /\ is_Some (bets s !! b))
  /\ is_Some (users s !! Transaction.userId row).
Proof.
  unfold transaction_refused. split.
  - destruct (Transaction.balanceBefore row) as [before|]; [|discriminate].
    destruct (Transaction.balanceAfter row) as [after|]; [|discriminate].
    destruct (int4 (Transaction.amount row)) eqn:Va; [|cbn; discriminate].
    destruct (int4 before) eqn:Vb; [|cbn; discriminate].
    destruct (int4 after) eqn:Vc; [|cbn; discriminate]. cbn.
    destruct (Transaction.betId row) as [b|].
    + destruct (references (transactions s) b) eqn:Er; [discriminate|].
      destruct (has_row (users s) _) eqn:Eu; [|discriminate].
      destruct (has_row (bets s) b) eqn:Eb; [|discriminate]. intros _.
      split; [eauto 10|]. split; [|apply has_row_true; exact Eu].
      intros b' [= <-]. split; [exact Er | apply has_row_true; exact Eb].
    + destruct (has_row (users s) _) eqn:Eu; [|discriminate]. intros _.
      split; [eauto 10|]. split; [intros b [=] | apply has_row_true; exact Eu].
  - intros ((before & after & -> & -> & -> & -> & ->) & Hb & Hu). cbn.
    apply has_row_true in Hu. rewrite Hu.
    destruct (Transaction.betId row) as [b|]; [|reflexivity].
    destruct (Hb b eq_refl) as [-> Hbet]. apply has_row_true in Hbet. rewrite Hbet.
    reflexivity.
Qed.

(** Taking a successful transaction body apart, statement by statement. *)
Ltac tx_step H :=
  match type of H with
  | bind _ _ _ = inr _ =>
      let a := fresh "a" in let s1 := fresh "s" in
      let H1 := fresh "Hs" in
      apply bind_inr in H; destruct H as (a & s1 & H1 & H); tx_step H1
  | ret _ _ = inr _ => apply ret_inr in H; destruct H as [? ?]; subst
  | asInt _ _ = inr _ => apply asInt_inr in H; destruct H as [? ?]; subst
  | notNull _ _ = inr _ => apply notNull_inr in H; destruct H as [? ?]; subst
  | user_update _ _ _ = inr _ =>
      apply update_inr in H; destruct H as (? & ? & ? & ? & ?); subst
  | prediction_update _ _ _ = inr _ =>
      apply update_inr in H; destruct H as (? & ? & ? & ? & ?); subst
  | option_update _ _ _ = inr _ =>
      apply update_inr in H; destruct H as (? & ? & ? & ? & ?); subst
  | bet_update _ _ _ = inr _ =>
      apply update_inr in H; destruct H as (? & ? & ? & ? & ?); subst
  | bet_create _ _ = inr _ => apply bet_create_inr in H; destruct H as (? & ? & ?); subst
  | transaction_create _ _ = inr _ =>
      apply transaction_create_inr in H; destruct H as (? & ? & ?); subst
  | notification_create _ _ = inr _ =>
      apply notification_create_inr in H; destruct H as (? & ? & ?); subst
  | findUnique _ _ _ = inr _ => apply findUnique_inr in H; destruct H as [? ?]; subst
  | bet_findMany _ _ = inr _ => apply bet_findMany_inr in H; destruct H as [? ?]; subst
  end.

Ltac tx_inv H := repeat (tx_step H).

(** A loop whose body keeps an invariant keeps it. *)
Lemma forEach_invariant {A} (I : Db -> Prop) (body : A -> Tx unit) (xs : list A) :
  (forall x s s', x ∈ xs -> I s -> body x s = inr (tt, s') -> I s') ->
  forall s s', I s -> forEach xs body s = inr (tt, s') -> I s'.
Proof.
  induction xs as [| x xs IH]; intros Hbody s s' HI Hrun; cbn in Hrun.
  - apply ret_inr in Hrun as [_ <-]. exact HI.
  - apply bind_inr in Hrun as ([] & s1 & H1 & H2).
    apply (IH (fun y t t' Hy => Hbody y t t' (list_elem_of_further _ _ _ Hy)) s1 s'); [|exact H2].
    apply (Hbody x s s1); [left | exact HI | exact H1].
Qed.

Lemma elem_of_rows {R} (t : list R) (i : Id) (r : R) : (i, r) ∈ rows t <-> t !! i = Some r.
Proof.
  unfold rows. rewrite elem_of_lookup_imap. split.
  - intros (j & y & [= -> ->] & H). exact H.
  - intros H. exists i, r. auto.
Qed.


(* ===================================================================== *)
(** * The inserts the schema refuses, and the order of the rows *)
(* ===================================================================== *)

(** The BET_WON row of the resolution is created without [balanceBefore] and
    [balanceAfter], which the schema requires: the insert throws, so the body
    of the winners' loop never runs to its end. *)
Lemma processWinner_throws (k : JS.number) (bet : Id * Bet.t) (s s' : Db) :
  processWinner k bet s = inr (tt, s') -> False.
Proof.
  intros H. unfold processWinner in H.
  apply bind_inr in H as (payout & s1 & _ & H).
  apply bind_inr in H as (u & s2 & _ & H).
  apply bind_inr in H as (b & s3 & _ & H).
  apply bind_inr in H as (t & s4 & H & _).
  apply transaction_create_inr in H as (H & _). discriminate H.
Qed.

(** So is the BET_REFUNDED row of the cancellation. *)
Lemma refundBet_throws (bet : Id * Bet.t) (s s' : Db) :
  refundBet bet s = inr (tt, s') -> False.
Proof.
  intros H. unfold refundBet in H.
  apply bind_inr in H as (u & s1 & _ & H).
  apply bind_inr in H as (b & s2 & _ & H).
  apply bind_inr in H as (t & s3 & H & _).
  apply transaction_create_inr in H as (H & _). discriminate H.
Qed.

(** A loop whose body always throws completes on the empty list only. *)
Lemma forEach_throws {A} (body : A -> Tx unit) (xs : list A) (s s' : Db) :
  (forall x t t', body x t = inr (tt, t') -> False) ->
  forEach xs body s = inr (tt, s') -> xs = [] /\ s' = s.
Proof.
  intros Hbody H. destruct xs as [| x xs]; cbn in H.
  - apply ret_inr in H as [_ <-]. auto.
  - apply bind_inr in H as ([] & t & H & _). destruct (Hbody _ _ _ H).
Qed.

Lemma rowOrder_perm (l : list (Id * Bet.t)) : rowOrder l ≡ₚ l.
Proof. apply arrange_perm. Qed.

Lemma rowOrder_nil : rowOrder [] = [].
Proof. apply Permutation_nil_r. apply rowOrder_perm. Qed.

Lemma elem_of_rowOrder (x : Id * Bet.t) (l : list (Id * Bet.t)) : x ∈ rowOrder l <-> x ∈ l.
Proof. rewrite rowOrder_perm. reflexivity. Qed.

Lemma filter_rowOrder (P : Id * Bet.t -> Prop) `{!forall x, Decision (P x)}
    (l : list (Id * Bet.t)) :
  filter P (rowOrder l) ≡ₚ filter P l.
Proof. rewrite rowOrder_perm. reflexivity. Qed.

Lemma Permutation_nil_eq {A} (l k : list A) : l ≡ₚ k -> l = [] <-> k = [].
Proof.
  intros H. split; intros ->.
  - symmetry. apply Permutation_nil_l. exact H.
  - apply Permutation_nil_r. exact H.
Qed.

Lemma sumZ_Permutation (l k : list Z) : l ≡ₚ k -> sumZ l = sumZ k.
Proof.
  unfold sumZ. induction 1 as [| x l k _ IH | x y l | l k m _ IH1 _ IH2]; cbn; lia.
Qed.

(** The keys of the rows of a table are distinct. *)
Lemma rows_keys {R} (t : list R) : (rows t).*1 = seq 0 (length t).
Proof.
  unfold rows. apply list_eq. intros i.
  rewrite list_lookup_fmap, list_lookup_imap.
  destruct (t !! i) as [x |] eqn:E; cbn.
  - symmetry. apply lookup_seq. split; [reflexivity|]. eapply lookup_lt_Some; exact E.
  - symmetry. apply lookup_seq_ge. apply lookup_ge_None. exact E.
Qed.

Lemma NoDup_filter_keys {R} (P : Id * R -> Prop) `{!forall x, Decision (P x)}
    (l : list (Id * R)) :
  NoDup l.*1 -> NoDup (filter P l).*1.
Proof.
  induction l as [| x l IH]; intros Hnd; [constructor|].
  rewrite fmap_cons in Hnd. apply NoDup_cons in Hnd as [Hx Hl].
  rewrite filter_cons. destruct (decide (P x)); [|exact (IH Hl)].
  rewrite fmap_cons. apply NoDup_cons. split; [|exact (IH Hl)].
  intros Hin. apply Hx. apply list_elem_of_fmap in Hin as (y & -> & Hy).
  apply list_elem_of_filter in Hy as [_ Hy]. apply list_elem_of_fmap. eauto.
Qed.

(** What a query returns: every bet of the prediction, once, under its key. *)
Lemma queried_NoDup (P : Id * Bet.t -> Prop) `{!forall x, Decision (P x)} (t : list Bet.t) :
  NoDup (rowOrder (filter P (rows t))).*1.
Proof.
  rewrite rowOrder_perm. apply NoDup_filter_keys. rewrite rows_keys. apply NoDup_seq.
Qed.

Lemma elem_of_queried (P : Id * Bet.t -> Prop) `{!forall x, Decision (P x)} (t : list Bet.t)
    (i : Id) (b : Bet.t) :
  (i, b) ∈ rowOrder (filter P (rows t)) <-> t !! i = Some b /\ P (i, b).
Proof.
  rewrite elem_of_rowOrder, list_elem_of_filter, elem_of_rows. tauto.
Qed.

Lemma filter_none {R} (P : R -> Prop) `{forall x, Decision (P x)} (l : list R) :
  Forall (fun x => ~ P x) l -> filter P l = [].
Proof.
  induction 1 as [| x l Hx Hl IH]; [reflexivity|].
  rewrite filter_cons, decide_False by exact Hx. exact IH.
Qed.

(* ===================================================================== *)
(** * Balances stay non-negative *)
(* ===================================================================== *)

Lemma processLoser_nonneg (bet : Id * Bet.t) (s s' : Db) :
  nonneg_state s -> processLoser bet s = inr (tt, s') -> nonneg_state s'.
Proof.
  intros [Hu Hb Hpool Hcoins] H. unfold processLoser in H. tx_inv H.
  cbn in *. constructor; cbn; auto.
  - apply Forall_insert; [assumption|]. cbn.
    match goal with Hx : users _ !! _ = Some ?x |- _ =>
      exact (Forall_lookup_1 _ _ _ _ Hu Hx) end.
  - apply Forall_insert; [assumption|]. cbn.
    match goal with Hx : bets _ !! _ = Some ?x |- _ =>
      exact (Forall_lookup_1 _ _ _ _ Hb Hx) end.
Qed.

(** No row of a table satisfies [P]: the query for [P] returns nothing. *)
Lemma filter_rows_nil {R} (P : R -> Prop) `{!forall x, Decision (P x)} (t : list R) :
  filter (fun x : Id * R => P x.2) (rows t) = [] <-> Forall (fun r => ~ P r) t.
Proof.
  split.
  - intros Hnil. apply Forall_forall. intros r Hin HP.
    apply list_elem_of_lookup in Hin as [i Hi].
    assert (Hx : (i, r) ∈ filter (fun x : Id * R => P x.2) (rows t)).
    { apply list_elem_of_filter. split; [exact HP | apply elem_of_rows; exact Hi]. }
    rewrite Hnil in Hx. inversion Hx.
  - intros Hall. apply filter_none. apply Forall_forall. intros [i r] Hin. cbn.
    apply elem_of_rows in Hin. exact (Forall_lookup_1 _ _ _ _ Hall Hin).
Qed.

(** What a committed resolution has done, stage by stage.  The winners' loop
    has run over no row: its body throws. *)
Lemma resolveTx_inr (predictionId correctOptionId : Id) (s s' : Db) :
  resolveTx predictionId correctOptionId s = inr (tt, s') ->
  exists p0 correctOption s4 reward creator,
    let prediction :=
      Prediction.mk (Prediction.creatorId p0) RESOLVED (Some correctOptionId)
                    (Prediction.totalPool p0) (Prediction.totalBets p0) in
    let s1 := set_predictions (fun t => <[predictionId := prediction]> t) s in
    let allBets :=
      rowOrder (filter (fun b => Bet.predictionId b.2 = predictionId) (rows (bets s))) in
    predictions s !! predictionId = Some p0
    /\ options s !! correctOptionId = Some correctOption
    /\ filter (fun b => Bet.optionId b.2 = correctOptionId) allBets = []
    /\ forEach (filter (fun b => Bet.optionId b.2 <> correctOptionId) allBets)
         processLoser s1 = inr (tt, s4)
    /\ creatorReward (Prediction.totalPool p0) = Some reward
    /\ users s4 !! Prediction.creatorId p0 = Some creator
    /\ s' = set_users (fun t => <[Prediction.creatorId p0 :=
              User.mk (User.coinBalance creator + reward) (User.totalBets creator)
                      (User.totalWins creator) (User.totalLosses creator)]> t) s4.
Proof.
  intros H. unfold resolveTx in H.
  apply bind_inr in H as (prediction & s1 & Hst1 & H). tx_step Hst1.
  apply bind_inr in H as (allBets & s2 & Hst2 & H). tx_step Hst2.
  apply bind_inr in H as (o & s2 & Hst3 & H). tx_step Hst3.
  apply bind_inr in H as (correctOption & s2 & Hst4 & H). tx_step Hst4.
  apply bind_inr in H as ([] & s3 & Hwin & H).
  apply forEach_throws in Hwin as [Hnil ->]; [|intros ? ? ?; apply processWinner_throws].
  apply bind_inr in H as ([] & s4 & Hlose & H).
  tx_inv H. cbn [options set_predictions bets] in *.
  eexists _, correctOption, _, _, _. cbn.
  repeat (split; [eassumption|]). reflexivity.
Qed.

(** A committed resolution had no winning bet to pay. *)
Lemma resolveTx_no_winner (predictionId correctOptionId : Id) (s s' : Db) :
  resolveTx predictionId correctOptionId s = inr (tt, s') ->
  Forall (fun b => ~ winning predictionId correctOptionId b) (bets s).
Proof.
  intros H.
  apply resolveTx_inr in H as (p0 & o & s4 & reward & creator & _ & _ & Hnil & _).
  apply (filter_rows_nil (winning predictionId correctOptionId)).
  cbn zeta in Hnil.
  apply (proj1 (Permutation_nil_eq _ _ (filter_rowOrder
           (fun b : Id * Bet.t => Bet.optionId b.2 = correctOptionId) _))) in Hnil.
  rewrite list_filter_filter in Hnil.
  etrans; [|exact Hnil]. apply list_filter_iff. intros x. unfold winning. tauto.
Qed.

Lemma resolveTx_nonneg (predictionId correctOptionId : Id) (s s' : Db) :
  nonneg_state s -> resolveTx predictionId correctOptionId s = inr (tt, s') -> nonneg_state s'.
Proof.
  intros Hs H.
  apply resolveTx_inr in H
    as (p0 & o & s4 & reward & creator & Hp0 & Ho & _ & Hlose & Hrew & Hcr & ->).
  pose proof (Forall_lookup_1 _ _ _ _ (pool_nonneg s Hs) Hp0) as Hpool.
  cbn in Hpool.
  set (s1 := set_predictions _ s) in *.
  assert (Hs1 : nonneg_state s1).
  { destruct Hs as [Hu Hb Hp Hc]. constructor; cbn; auto.
    apply Forall_insert; [assumption|]. cbn. exact Hpool. }
  assert (Hs4 : nonneg_state s4).
  { refine (forEach_invariant nonneg_state _ _ _ s1 s4 Hs1 Hlose).
    intros bet t t' Hin Ht Hbody. exact (processLoser_nonneg bet t t' Ht Hbody). }
  apply creatorReward_nonneg in Hrew; [|assumption].
  destruct Hs4 as [Hu Hb Hp Hc]. constructor; cbn; auto.
  apply Forall_insert; [assumption|]. cbn.
  pose proof (Forall_lookup_1 _ _ _ _ Hu Hcr). cbn in *. lia.
Qed.

(** A committed cancellation: the prediction had no bet, its refund loop
    throws at the first one; all it has done is the status update. *)
Lemma cancelTx_inr (predictionId : Id) (s s' : Db) :
  cancelTx predictionId s = inr (tt, s') ->
  Forall (fun b => Bet.predictionId b <> predictionId) (bets s)
  /\ exists p0,
       predictions s !! predictionId = Some p0
       /\ s' = set_predictions
                 (fun t => <[predictionId :=
                    Prediction.mk (Prediction.creatorId p0) CANCELLED
                      (Prediction.correctOptionId p0) (Prediction.totalPool p0)
                      (Prediction.totalBets p0)]> t) s.
Proof.
  intros H. unfold cancelTx in H.
  apply bind_inr in H as (allBets & s1 & Hst1 & H). tx_step Hst1.
  apply bind_inr in H as ([] & s2 & Hloop & H).
  apply forEach_throws in Hloop as [Hnil ->]; [|intros ? ? ?; apply refundBet_throws].
  tx_inv H. split.
  - apply (filter_rows_nil (fun b => Bet.predictionId b = predictionId)).
    apply (Permutation_nil_eq _ _ (rowOrder_perm _)). exact Hnil.
  - eexists. split; [eassumption | reflexivity].
Qed.

Lemma cancelTx_nonneg (predictionId : Id) (s s' : Db) :
  nonneg_state s -> cancelTx predictionId s = inr (tt, s') -> nonneg_state s'.
Proof.
  intros [Hu Hb Hp Hc] H. apply cancelTx_inr in H as (_ & p0 & Hp0 & ->).
  constructor; cbn; auto.
  apply Forall_insert; [assumption|]. cbn. exact (Forall_lookup_1 _ _ _ _ Hp Hp0).
Qed.

Lemma validateBet_None (amount userBalance : Z) (status : PredictionStatus) :
  validateBet amount userBalance status = None <->
  status = ACTIVE /\ 0 < amount /\ amount <= userBalance.
Proof.
  unfold validateBet. destruct (bool_decide_reflect (status = ACTIVE)); cbn.
  - destruct (Z.leb_spec amount 0); [split; [discriminate | lia]|].
    destruct (Z.ltb_spec userBalance amount); [split; [discriminate | lia]|].
    split; auto with lia.
  - split; [discriminate | intros [? _]; contradiction].
Qed.

Lemma placeBet_inr (userId predictionId optionId : Id) (betAmount : Z) (k : JS.number)
    (s s' : Db) (id : Id) :
  placeBet userId predictionId optionId betAmount k s = inr (id, s') ->
  exists user prediction,
    users s !! userId = Some user /\ predictions s !! predictionId = Some prediction
    /\ Prediction.status prediction = ACTIVE
    /\ 0 < betAmount <= User.coinBalance user
    /\ placeBetTx userId predictionId optionId betAmount k s = inr (id, s').
Proof.
  unfold placeBet. intros H.
  destruct (users s !! userId) as [user|]; [|discriminate].
  destruct (predictions s !! predictionId) as [prediction|]; [|discriminate].
  destruct (validateBet _ _ _) eqn:V; [discriminate|].
  apply validateBet_None in V as (? & ? & ?). exists user, prediction.
  repeat split; auto.
Qed.

Lemma placeBet_nonneg (userId predictionId optionId : Id) (betAmount : Z) (k : JS.number)
    (s s' : Db) (id : Id) :
  nonneg_state s ->
  placeBet userId predictionId optionId betAmount k s = inr (id, s') -> nonneg_state s'.
Proof.
  intros [Hu Hb Hp Hc] H.
  apply placeBet_inr in H as (user & prediction & Huser & Hpred & _ & Hamt & H).
  unfold placeBetTx in H. tx_inv H. cbn in *.
  match goal with Hx : users s !! userId = Some ?x |- _ =>
    assert (Ex : x = user) by congruence; subst x end.
  match goal with Hx : predictions _ !! predictionId = Some ?x |- _ =>
    assert (Ex : x = prediction) by congruence; subst x end.
  constructor; cbn.
  - apply Forall_insert; [assumption|]. cbn. lia.
  - apply Forall_app. split; [assumption|]. constructor; [cbn; lia | constructor].
  - apply Forall_insert; [assumption|]. cbn.
    pose proof (Forall_lookup_1 _ _ _ _ Hp Hpred). cbn in *. lia.
  - apply Forall_insert; [assumption|]. cbn.
    match goal with Hx : options s !! _ = Some ?x |- _ =>
      pose proof (Forall_lookup_1 _ _ _ _ Hc Hx) end. cbn in *. lia.
Qed.

Lemma step_nonneg (s : Db) (op : Op) : nonneg_state s -> nonneg_state (step s op).
Proof.
  intros Hs. destruct op as [u p o a k | p c | p]; cbn; unfold transaction.
  - destruct (placeBet u p o a k s) as [e | [id s']] eqn:E; cbn; [assumption|].
    exact (placeBet_nonneg _ _ _ _ _ _ _ _ Hs E).
  - destruct (resolveTx p c s) as [e | [[] s']] eqn:E; cbn; [assumption|].
    exact (resolveTx_nonneg _ _ _ _ Hs E).
  - destruct (cancelTx p s) as [e | [[] s']] eqn:E; cbn; [assumption|].
    exact (cancelTx_nonneg _ _ _ Hs E).
Qed.

Lemma run_nonneg (ops : list Op) : forall s, nonneg_state s -> nonneg_state (run s ops).
Proof.
  induction ops as [| op ops IH]; intros s Hs; cbn; [assumption|].
  apply IH, step_nonneg, Hs.
Qed.

(* ===================================================================== *)
(** * Pool consistency *)
(* ===================================================================== *)

Lemma sumZ_app (l k : list Z) : sumZ (l ++ k) = sumZ l + sumZ k.
Proof. unfold sumZ. induction l as [| x l IH]; cbn; [reflexivity | rewrite IH; ring]. Qed.

(** Replacing row [i] changes a filtered sum by the difference of the two
    rows, when both are counted, and not at all when neither is. *)
Lemma sum_filter_insert {R} (P : R -> Prop) `{forall x, Decision (P x)} (g : R -> Z)
    (l : list R) (i : nat) (x y : R) :
  l !! i = Some x -> (P x <-> P y) ->
  sumZ (g <$> filter P (<[i := y]> l))
  = sumZ (g <$> filter P l) + (if decide (P x) then g y - g x else 0).
Proof.
  revert i. induction l as [| z l IH]; intros i Hi HP; [discriminate|].
  destruct i as [| i]; cbn in Hi.
  - injection Hi as ->. change (<[0%nat := y]> (x :: l)) with (y :: l).
    rewrite !filter_cons.
    repeat case_decide; try tauto; cbn; unfold sumZ; cbn; lia.
  - change (<[S i := y]> (z :: l)) with (z :: <[i := y]> l). rewrite !filter_cons.
    specialize (IH i Hi HP).
    repeat case_decide; try tauto; cbn; unfold sumZ in *; cbn; lia.
Qed.

Lemma placeBetTx_inr (userId predictionId optionId : Id) (betAmount : Z) (k : JS.number)
    (s s' : Db) (id : Id) :
  placeBetTx userId predictionId optionId betAmount k s = inr (id, s') ->
  exists u p o,
    users s !! userId = Some u /\ predictions s !! predictionId = Some p
    /\ options s !! optionId = Some o
    /\ id = length (bets s)
    /\ let u' := User.mk (User.coinBalance u - betAmount) (User.totalBets u + 1)
                         (User.totalWins u) (User.totalLosses u) in
       let p' := Prediction.mk (Prediction.creatorId p) (Prediction.status p)
                   (Prediction.correctOptionId p)
                   (Prediction.totalPool p + betAmount) (Prediction.totalBets p + 1) in
       let o' := PredictionOption.mk (PredictionOption.predictionId o)
                   (PredictionOption.totalBets o + 1)
                   (PredictionOption.totalCoins o + betAmount) in
       let b := Bet.mk userId predictionId optionId betAmount k PENDING 0 in
       let t := Transaction.mk userId BET_PLACED (- betAmount)
                  (Some (User.coinBalance u' + betAmount)) (Some (User.coinBalance u'))
                  (Some id) in
       User.valid u' = true /\ Bet.valid b = true
       /\ Prediction.valid p' = true /\ PredictionOption.valid o' = true
       /\ s' = mkDb (<[userId := u']> (users s)) (<[predictionId := p']> (predictions s))
                    (<[optionId := o']> (options s)) (bets s ++ [b])
                    (transactions s ++ [t]) (notifications s).
Proof.
  intros H. unfold placeBetTx in H. tx_inv H.
  match goal with Hb : bet_refused _ _ = None |- _ =>
    apply bet_refused_None in Hb as (Vb & _) end.
  cbn in *.
  eexists _, _, _. repeat (split; [eassumption || reflexivity|]). reflexivity.
Qed.

(** The ledger row of a committed bet is the first to reference the bet. *)
Lemma placeBetTx_fresh (userId predictionId optionId : Id) (betAmount : Z) (k : JS.number)
    (s s' : Db) (id : Id) :
  placeBetTx userId predictionId optionId betAmount k s = inr (id, s') ->
  references (transactions s) id = false.
Proof.
  intros H. unfold placeBetTx in H. tx_inv H.
  match goal with Ht : transaction_refused _ _ = None |- _ =>
    apply transaction_refused_None in Ht as (_ & Hfresh & _);
    exact (proj1 (Hfresh _ eq_refl)) end.
Qed.

(** The loops of the resolution and of the refund leave the predictions and
    the options as they are. *)
Lemma processLoser_tables (bet : Id * Bet.t) (s s' : Db) :
  processLoser bet s = inr (tt, s') ->
  predictions s' = predictions s /\ options s' = options s.
Proof. intros H. unfold processLoser in H. tx_inv H. auto. Qed.

Lemma forEach_tables {A} (body : A -> Tx unit) (xs : list A) (s s' : Db) :
  (forall x t t', body x t = inr (tt, t') ->
     predictions t' = predictions t /\ options t' = options t) ->
  forEach xs body s = inr (tt, s') ->
  predictions s' = predictions s /\ options s' = options s.
Proof.
  intros Hbody.
  refine (forEach_invariant
            (fun t => predictions t = predictions s /\ options t = options s) body xs _ s s' _).
  - intros x t t' _ [Hp Ho] Hx. apply Hbody in Hx as [Hp' Ho']. split; congruence.
  - auto.
Qed.

Lemma resolveTx_tables (predictionId correctOptionId : Id) (s s' : Db) :
  resolveTx predictionId correctOptionId s = inr (tt, s') ->
  options s' = options s
  /\ exists p0, predictions s !! predictionId = Some p0
     /\ predictions s' =
        <[predictionId := Prediction.mk (Prediction.creatorId p0) RESOLVED
            (Some correctOptionId) (Prediction.totalPool p0) (Prediction.totalBets p0)]>
          (predictions s).
Proof.
  intros H.
  apply resolveTx_inr in H
    as (p0 & o & s4 & reward & creator & Hp0 & Ho & _ & Hlose & Hrew & Hcr & ->).
  apply forEach_tables in Hlose as [Hp4 Ho4]; [|intros x t t'; apply processLoser_tables].
  cbn in *. split; [congruence|]. exists p0. split; [assumption | congruence].
Qed.

Lemma cancelTx_tables (predictionId : Id) (s s' : Db) :
  cancelTx predictionId s = inr (tt, s') ->
  options s' = options s
  /\ exists p0, predictions s !! predictionId = Some p0
     /\ predictions s' =
        <[predictionId := Prediction.mk (Prediction.creatorId p0) CANCELLED
            (Prediction.correctOptionId p0) (Prediction.totalPool p0)
            (Prediction.totalBets p0)]> (predictions s).
Proof.
  intros H. apply cancelTx_inr in H as (_ & p0 & Hp0 & ->).
  split; [reflexivity|]. exists p0. split; [exact Hp0 | reflexivity].
Qed.

(** A status update does not move a pool. *)
Lemma pool_consistent_status (s s' : Db) (predictionId : Id) (p0 p1 : Prediction.t) :
  options s' = options s ->
  predictions s !! predictionId = Some p0 ->
  predictions s' = <[predictionId := p1]> (predictions s) ->
  Prediction.totalPool p1 = Prediction.totalPool p0 ->
  pool_consistent s -> pool_consistent s'.
Proof.
  intros Ho Hp0 Hp Hpool Hs pid p Hlook. unfold optionCoins. rewrite Ho.
  rewrite Hp in Hlook. destruct (decide (pid = predictionId)) as [-> | Hne].
  - rewrite list_lookup_insert_eq in Hlook by (eapply lookup_lt_Some; eassumption).
    injection Hlook as <-. rewrite Hpool. exact (Hs predictionId p0 Hp0).
  - rewrite list_lookup_insert_ne in Hlook by congruence. exact (Hs pid p Hlook).
Qed.

Lemma placeBetTx_pool_consistent (userId predictionId optionId : Id) (betAmount : Z)
    (k : JS.number) (s s' : Db) (id : Id) (o : PredictionOption.t) :
  options s !! optionId = Some o -> PredictionOption.predictionId o = predictionId ->
  placeBetTx userId predictionId optionId betAmount k s = inr (id, s') ->
  pool_consistent s -> pool_consistent s'.
Proof.
  intros Ho Hbelongs H Hs.
  apply placeBetTx_inr in H as (u & p & o' & Hu & Hp & Ho' & _ & _ & _ & _ & _ & ->).
  assert (o' = o) by congruence. subst o'.
  intros pid q Hq. unfold optionCoins. cbn in *.
  rewrite (sum_filter_insert _ _ _ _ o) by (cbn; tauto).
  destruct (decide (pid = predictionId)) as [-> | Hne].
  - rewrite list_lookup_insert_eq in Hq by (eapply lookup_lt_Some; eassumption).
    injection Hq as <-. cbn. rewrite decide_True by assumption. cbn.
    pose proof (Hs predictionId p Hp) as E. unfold optionCoins in E. lia.
  - rewrite list_lookup_insert_ne in Hq by congruence.
    rewrite decide_False by congruence.
    pose proof (Hs pid q Hq) as E. unfold optionCoins in E. lia.
Qed.

(* ===================================================================== *)
(** * What the loops do to the Bet table *)
(* ===================================================================== *)

(** A loop over rows with distinct keys whose body rewrites the row stored
    under the key it is given: the rows under these keys are rewritten once,
    the others are kept, in whatever order the loop runs. *)
Lemma forEach_bets (upd : Bet.t -> Bet.t) (body : Id * Bet.t -> Tx unit)
    (xs : list (Id * Bet.t)) :
  (forall x t t', body x t = inr (tt, t') ->
     exists b0, bets t !! x.1 = Some b0 /\ bets t' = <[x.1 := upd b0]> (bets t)) ->
  NoDup xs.*1 ->
  forall t t', forEach xs body t = inr (tt, t') ->
    forall j, bets t' !! j
              = (fun b => if decide (j ∈ xs.*1) then upd b else b) <$> bets t !! j.
Proof.
  intros Hbody. induction xs as [| x xs IH]; intros Hnd t t' Hrun j; cbn in Hrun.
  - apply ret_inr in Hrun as [_ <-]. rewrite fmap_nil.
    destruct (bets t !! j) as [b |]; cbn; [|reflexivity].
    rewrite decide_False by (intros Hin; inversion Hin). reflexivity.
  - apply bind_inr in Hrun as ([] & t1 & H1 & H2).
    rewrite fmap_cons in Hnd. apply NoDup_cons in Hnd as [Hx Hnd].
    destruct (Hbody x t t1 H1) as (b0 & Hb0 & E1).
    rewrite (IH Hnd t1 t' H2 j), E1, fmap_cons.
    destruct (decide (j = x.1)) as [-> | Hne].
    + rewrite list_lookup_insert_eq by (eapply lookup_lt_Some; exact Hb0).
      refine (eq_trans _ (eq_sym (f_equal (fmap _) Hb0))). cbn.
      rewrite decide_False by exact Hx. rewrite decide_True by left. reflexivity.
    + rewrite list_lookup_insert_ne by (intros E; apply Hne; symmetry; exact E).
      destruct (bets t !! j) as [b |]; cbn; [|reflexivity]. f_equal.
      destruct (decide (j ∈ xs.*1)) as [Hin | Hnin].
      * rewrite decide_True by (right; exact Hin). reflexivity.
      * rewrite decide_False; [reflexivity|].
        intros Hin. apply elem_of_cons in Hin as [E | Hin]; [exact (Hne E) | exact (Hnin Hin)].
Qed.

Lemma processLoser_bets (bet : Id * Bet.t) (t t' : Db) :
  processLoser bet t = inr (tt, t') ->
  exists b0, bets t !! bet.1 = Some b0 /\ bets t' = <[bet.1 := lostRow b0]> (bets t).
Proof.
  intros H. unfold processLoser in H. tx_inv H. cbn in *.
  match goal with Hx : bets _ !! _ = Some ?x |- _ => exists x; split; [exact Hx|] end.
  reflexivity.
Qed.

Lemma filter_losing (predictionId correctOptionId : Id) (l : list (Id * Bet.t)) :
  filter (fun b => Bet.optionId b.2 <> correctOptionId)
    (filter (fun b => Bet.predictionId b.2 = predictionId) l)
  = filter (fun x => losing predictionId correctOptionId x.2) l.
Proof.
  rewrite list_filter_filter. apply list_filter_iff. intros x. unfold losing. tauto.
Qed.

(** The Bet table after a committed resolution. *)
Lemma resolveTx_bets (predictionId correctOptionId : Id) (s s' : Db) :
  resolveTx predictionId correctOptionId s = inr (tt, s') ->
  bets s' = resolvedRow predictionId <$> bets s.
Proof.
  intros H. pose proof (resolveTx_no_winner _ _ _ _ H) as Hnone.
  apply resolveTx_inr in H
    as (p0 & o & s4 & reward & creator & Hp0 & Ho & _ & Hlose & Hrew & Hcr & ->).
  set (xs := filter (fun b : Id * Bet.t => Bet.optionId b.2 <> correctOptionId)
               (rowOrder (filter (fun b : Id * Bet.t => Bet.predictionId b.2 = predictionId)
                            (rows (bets s))))) in *.
  assert (Hnd : NoDup xs.*1) by (apply NoDup_filter_keys, queried_NoDup).
  assert (Hxs : forall j b, (j, b) ∈ xs <-> bets s !! j = Some b
                                          /\ losing predictionId correctOptionId b).
  { intros j b. unfold xs. rewrite list_elem_of_filter, elem_of_queried. cbn.
    unfold losing. tauto. }
  pose proof (forEach_bets lostRow processLoser xs processLoser_bets Hnd _ _ Hlose) as Hb.
  cbn [bets set_users set_predictions] in *.
  apply list_eq. intros j. rewrite (Hb j), list_lookup_fmap.
  destruct (bets s !! j) as [b |] eqn:Ej; cbn; [|reflexivity]. f_equal.
  pose proof (Forall_lookup_1 _ _ _ _ Hnone Ej) as Hnw. cbn in Hnw. unfold winning in Hnw.
  unfold resolvedRow. destruct (decide (Bet.predictionId b = predictionId)) as [Hl | Hl].
  - rewrite decide_True; [reflexivity|].
    apply list_elem_of_fmap. exists (j, b). split; [reflexivity|]. apply Hxs.
    unfold losing. tauto.
  - rewrite decide_False; [reflexivity|].
    intros Hin. apply list_elem_of_fmap in Hin as ([j' b'] & E & Hin). cbn in E. subst j'.
    apply Hxs in Hin as [Hj' Hl']. apply Hl.
    pose proof (eq_trans (eq_sym Ej) Hj') as E. injection E as ->. exact (proj1 Hl').
Qed.

(** A resolved row keeps the bet's market, option and stake. *)
Lemma resolvedRow_core (predictionId : Id) (b : Bet.t) :
  Bet.predictionId (resolvedRow predictionId b) = Bet.predictionId b
  /\ Bet.optionId (resolvedRow predictionId b) = Bet.optionId b
  /\ Bet.amount (resolvedRow predictionId b) = Bet.amount b.
Proof. unfold resolvedRow. case_decide; auto. Qed.

(** ** The sum of the payouts *)

Lemma sum_filter_le {R} (P Q : R -> Prop) `{forall x, Decision (P x)} `{forall x, Decision (Q x)}
    (g : R -> Z) (l : list R) :
  (forall x, P x -> Q x) -> Forall (fun x => 0 <= g x) l ->
  sumZ (g <$> filter P l) <= sumZ (g <$> filter Q l).
Proof.
  intros HPQ Hl. induction Hl as [| x l Hx _ IH]; [reflexivity|].
  rewrite !filter_cons. specialize (HPQ x).
  repeat case_decide; try tauto; cbn; unfold sumZ in *; cbn; lia.
Qed.

Lemma sum_payout_scaled (l : list Bet.t) (p c : Z) :
  Forall (fun b => 0 < Bet.amount b < 2 ^ 31) l ->
  0 <= p < 2 ^ 31 -> 0 < c < 2 ^ 31 ->
  0 <= sumZ ((fun b => default 0 (payoutOf (Bet.amount b) (odds p c))) <$> l)
  /\ sumZ ((fun b => default 0 (payoutOf (Bet.amount b) (odds p c))) <$> l)
       * c * (2 ^ 52 * 2 ^ 52)
     <= sumZ (Bet.amount <$> l) * p * ((2 ^ 52 + 1) * (2 ^ 52 + 1)).
Proof.
  intros Hl Hp Hc. induction Hl as [| b l Hb _ IH]; [cbn; lia|].
  destruct (payoutOf_bound (Bet.amount b) p c Hb Hp Hc) as (r & Er & Hr0 & Hr).
  cbn. rewrite Er. cbn. unfold sumZ in *. cbn.
  set (S := foldr Z.add 0 _) in *. set (A := foldr Z.add 0 (Bet.amount <$> l)) in *.
  set (B2 := 2 ^ 52 * 2 ^ 52) in *. set (K2 := (2 ^ 52 + 1) * (2 ^ 52 + 1)) in *.
  destruct IH as [IH0 IH]. split; [lia|]. lia.
Qed.

Lemma sum_payout_bound (l : list Bet.t) (p c : Z) :
  Forall (fun b => 0 < Bet.amount b < 2 ^ 31) l ->
  0 <= p < 2 ^ 31 -> c < 2 ^ 31 ->
  sumZ (Bet.amount <$> l) <= c ->
  sumZ ((fun b => default 0 (payoutOf (Bet.amount b) (odds p c))) <$> l) <= p.
Proof.
  intros Hl Hp Hc Hsum. destruct l as [| b l]; [cbn; lia|].
  assert (Hamt : 0 <= sumZ (Bet.amount <$> l)).
  { apply Forall_cons in Hl as [_ Hl]. clear - Hl.
    induction Hl as [| x l Hx _ IH]; cbn; unfold sumZ in *; cbn; lia. }
  assert (Hc0 : 0 < c).
  { apply Forall_cons in Hl as [Hb _]. cbn in Hsum. unfold sumZ in *. cbn in Hsum. lia. }
  destruct (sum_payout_scaled (b :: l) p c Hl Hp ltac:(lia)) as [H0 H].
  set (S := sumZ ((fun b0 => default 0 (payoutOf (Bet.amount b0) (odds p c))) <$> b :: l)) in *.
  set (A := sumZ (Bet.amount <$> b :: l)) in *.
  assert (HB : 2 ^ 52 = 4503599627370496) by reflexivity.
  assert (H31 : 2 ^ 31 = 2147483648) by reflexivity.
  rewrite HB in H. rewrite H31 in *.
  set (B := 4503599627370496) in *.
  assert (HB4 : 4 * p < B) by (unfold B; lia).
  assert (HB1 : 1 < B) by (unfold B; lia).
  clearbody B S A.
  (* S * c * B^2 <= A * p * (B+1)^2 <= c * p * (B+1)^2 *)
  assert (H1 : S * c * (B * B) <= c * p * ((B + 1) * (B + 1))).
  { apply Z.le_trans with (A * p * ((B + 1) * (B + 1))); [exact H|].
    apply Z.mul_le_mono_nonneg_r; [nia|]. apply Z.mul_le_mono_nonneg_r; lia. }
  assert (H2 : S * (B * B) <= p * ((B + 1) * (B + 1))).
  { apply Z.mul_le_mono_pos_l with c; [lia|]. lia. }
  assert (H3 : p * ((B + 1) * (B + 1)) < (p + 1) * (B * B)) by nia.
  assert (H4 : S * (B * B) < (p + 1) * (B * B)) by lia.
  apply Z.mul_lt_mono_pos_r in H4; [lia | nia].
Qed.

(* ===================================================================== *)
(** * The aggregates agree with the bets *)
(* ===================================================================== *)

Lemma int4_range (z : Z) : int4 z = true -> - 2 ^ 31 <= z < 2 ^ 31.
Proof.
  unfold int4. rewrite andb_true_iff, !Z.leb_le.
  change (2 ^ 31) with 2147483648. lia.
Qed.

Lemma stakedOn_fmap (f : Bet.t -> Bet.t) (optionId : Id) (l : list Bet.t) :
  (forall b, Bet.optionId (f b) = Bet.optionId b /\ Bet.amount (f b) = Bet.amount b) ->
  stakedOn optionId (f <$> l) = stakedOn optionId l.
Proof.
  intros Hf. unfold stakedOn. induction l as [| b l IH]; [reflexivity|].
  rewrite fmap_cons, !filter_cons. destruct (Hf b) as [Ho Ha]. rewrite Ho.
  case_decide; cbn; unfold sumZ in *; cbn; rewrite ?Ha; lia.
Qed.

Lemma stakedOn_snoc (optionId : Id) (l : list Bet.t) (b : Bet.t) :
  stakedOn optionId (l ++ [b])
  = stakedOn optionId l + (if decide (Bet.optionId b = optionId) then Bet.amount b else 0).
Proof.
  unfold stakedOn. rewrite filter_app, fmap_app, sumZ_app. f_equal.
  rewrite filter_cons, filter_nil. case_decide; cbn; lia.
Qed.

Lemma resolveTx_consistent (predictionId correctOptionId : Id) (s s' : Db) :
  consistent s -> resolveTx predictionId correctOptionId s = inr (tt, s') -> consistent s'.
Proof.
  intros [Ha Hp Hc] H.
  pose proof (resolveTx_bets _ _ _ _ H) as Hb.
  apply resolveTx_tables in H as (Hopt & p0 & Hp0 & Hpred).
  constructor.
  - rewrite Hb. apply Forall_fmap. eapply Forall_impl; [exact Ha|]. intros b Hb0. cbn.
    destruct (resolvedRow_core predictionId b)
      as (_ & _ & ->). exact Hb0.
  - rewrite Hpred. apply Forall_insert; [assumption|]. cbn.
    exact (Forall_lookup_1 _ _ _ _ Hp Hp0).
  - intros oid x Hx. rewrite Hopt in Hx. rewrite Hb.
    rewrite stakedOn_fmap; [exact (Hc oid x Hx)|].
    intros b. destruct (resolvedRow_core predictionId b)
      as (_ & -> & ->). auto.
Qed.

Lemma cancelTx_consistent (predictionId : Id) (s s' : Db) :
  consistent s -> cancelTx predictionId s = inr (tt, s') -> consistent s'.
Proof.
  intros [Ha Hp Hc] H. apply cancelTx_inr in H as (_ & p0 & Hp0 & ->).
  constructor; cbn [bets options predictions set_predictions]; [exact Ha | | exact Hc].
  apply Forall_insert; [assumption|]. cbn. exact (Forall_lookup_1 _ _ _ _ Hp Hp0).
Qed.

Lemma placeBetTx_consistent (userId predictionId optionId : Id) (betAmount : Z)
    (k : JS.number) (s s' : Db) (id : Id) :
  consistent s -> 0 < betAmount ->
  placeBetTx userId predictionId optionId betAmount k s = inr (id, s') -> consistent s'.
Proof.
  intros [Ha Hp Hc] Hamt H.
  apply placeBetTx_inr in H
    as (u & p & o & Hu & Hpr & Ho & _ & _ & Vb & Vp & Vo & ->).
  unfold Bet.valid, Prediction.valid, PredictionOption.valid in *. cbn in Vb, Vp, Vo.
  apply andb_true_iff in Vb as [Vb _]. apply int4_range in Vb.
  apply andb_true_iff in Vp as [Vp _]. apply int4_range in Vp.
  apply andb_true_iff in Vo as [_ Vo]. apply int4_range in Vo.
  pose proof (Forall_lookup_1 _ _ _ _ Hp Hpr) as Hpool. cbn in Hpool.
  constructor; cbn [predictions options bets].
  - apply Forall_app. split; [assumption|]. constructor; [cbn; lia | constructor].
  - apply Forall_insert; [assumption|]. cbn. lia.
  - intros oid x Hx. rewrite stakedOn_snoc. cbn [Bet.optionId Bet.amount].
    destruct (decide (oid = optionId)) as [-> | Hne].
    + rewrite list_lookup_insert_eq in Hx by (eapply lookup_lt_Some; eassumption).
      injection Hx as <-. cbn. rewrite decide_True by reflexivity.
      destruct (Hc optionId o Ho) as [E _]. lia.
    + rewrite list_lookup_insert_ne in Hx by congruence.
      rewrite decide_False by congruence.
      destruct (Hc oid x Hx) as [E ?]. lia.
Qed.

(** Every committed transaction keeps the aggregates in step with the bets. *)
Lemma history_consistent (s s' : Db) : consistent s -> history s s' -> consistent s'.
Proof.
  intros Hs Hh. induction Hh as [s | s s1 s2 Hh IH Hc]; [exact Hs|].
  specialize (IH Hs). destruct Hc as [u p o a k id t t' Ha H | p c t t' H | p t t' H].
  - exact (placeBetTx_consistent _ _ _ _ _ _ _ _ IH Ha H).
  - exact (resolveTx_consistent _ _ _ _ IH H).
  - exact (cancelTx_consistent _ _ _ IH H).
Qed.

Lemma consistent_db0 : consistent db0.
Proof.
  constructor; cbn.
  - constructor.
  - repeat constructor; cbn; lia.
  - intros [| [| [| oid]]] o H; cbn in H; [injection H as <-.. | discriminate];
      cbn; unfold stakedOn; cbn; split; reflexivity.
Defined.
(* ===================================================================== *)
(** * Binary64: results that are exact, and rounding against an integer *)
(* ===================================================================== *)

(** ** Shifts that lose no bit *)

Lemma Zdigits2_mul_pow2 (m k : Z) : 0 < m -> 0 <= k -> Zdigits2 (m * 2 ^ k) = Zdigits2 m + k.
Proof.
  intros Hm Hk. pose proof (Zdigits2_bounds m Hm) as [Hlo Hhi].
  pose proof (Zdigits2_pos m Hm) as Hd.
  assert (Hp : 0 < 2 ^ k) by (apply Z.pow_pos_nonneg; lia).
  assert (Hmk : 0 < m * 2 ^ k) by (apply Z.mul_pos_pos; assumption).
  apply Z.le_antisymm.
  - apply Zdigits2_le; [exact Hmk|]. rewrite Z.pow_add_r by lia.
    apply Z.mul_lt_mono_pos_r; assumption.
  - apply Zdigits2_ge; [exact Hmk|].
    replace (Zdigits2 m + k - 1) with (Zdigits2 m - 1 + k) by lia.
    rewrite Z.pow_add_r by lia. apply Z.mul_le_mono_nonneg_r; lia.
Qed.

Lemma shr_1_exact (r : shr_record) :
  0 <= shr_m r -> (shr_r r = false /\ shr_s r = false) -> shr_m r mod 2 = 0 -> (shr_r (shr_1 r) = false /\ shr_s (shr_1 r) = false).
Proof.
  destruct r as [m b s]. cbn [shr_m]. intros Hm [Hb Hs] Hev. cbn in Hb, Hs. subst b s.
  destruct m as [| [p | p |] |]; cbn [shr_1]; try lia; try (split; reflexivity).
  - exfalso. rewrite Pos2Z.inj_xI in Hev.
    rewrite Z.add_comm, Z.mul_comm, Z.mod_add in Hev by lia. discriminate.
  - exfalso. discriminate.
Qed.

Lemma mod_pow2_half (m n : Z) :
  0 <= m -> 0 < n -> m mod 2 ^ n = 0 -> m mod 2 = 0 /\ (m / 2) mod 2 ^ (n - 1) = 0.
Proof.
  intros Hm Hn H.
  assert (Hp : 0 < 2 ^ (n - 1)) by (apply Z.pow_pos_nonneg; lia).
  assert (E : 2 ^ n = 2 * 2 ^ (n - 1)).
  { replace n with (1 + (n - 1)) at 1 by lia. rewrite Z.pow_add_r by lia. reflexivity. }
  apply Z.mod_divide in H; [|lia]. destruct H as [t Ht]. rewrite E in Ht.
  assert (Em : m = t * 2 ^ (n - 1) * 2) by lia.
  split.
  - rewrite Em. apply Z.mod_mul. lia.
  - rewrite Em at 1. rewrite Z.div_mul by lia. apply Z.mod_mul. lia.
Qed.

Lemma iter_shr_1_exact (n : positive) :
  forall r, 0 <= shr_m r -> (shr_r r = false /\ shr_s r = false) -> shr_m r mod 2 ^ Zpos n = 0 ->
            (shr_r (SpecFloat.iter_pos shr_1 n r) = false /\ shr_s (SpecFloat.iter_pos shr_1 n r) = false).
Proof.
  assert (Hstep : forall r k, 0 <= shr_m r -> (shr_r r = false /\ shr_s r = false) -> 0 < k -> shr_m r mod 2 ^ k = 0 ->
            0 <= shr_m (shr_1 r) /\ (shr_r (shr_1 r) = false /\ shr_s (shr_1 r) = false) /\ shr_m (shr_1 r) mod 2 ^ (k - 1) = 0).
  { intros r k Hr Hx Hk Hm. destruct (mod_pow2_half _ _ Hr Hk Hm) as [H2 Hh].
    rewrite shr_1_m by exact Hr. split; [apply Z.div_pos; lia|].
    split; [apply shr_1_exact; assumption | exact Hh]. }
  assert (Hsplit : forall m a b, 0 <= m -> 0 < a -> 0 < b -> m mod 2 ^ (a + b) = 0 ->
            m mod 2 ^ a = 0 /\ (m / 2 ^ a) mod 2 ^ b = 0).
  { intros m a b Hm Ha Hb H. assert (0 < 2 ^ a) by (apply Z.pow_pos_nonneg; lia).
    assert (0 < 2 ^ b) by (apply Z.pow_pos_nonneg; lia).
    apply Z.mod_divide in H; [|apply Z.pow_nonzero; lia].
    destruct H as [t Ht]. rewrite Z.pow_add_r in Ht by lia.
    assert (Em : m = t * 2 ^ b * 2 ^ a) by lia. split.
    - rewrite Em. apply Z.mod_mul. lia.
    - rewrite Em at 1. rewrite Z.div_mul by lia. apply Z.mod_mul. lia. }
  induction n as [n IH | n IH |]; intros r Hr Hx Hm; cbn [SpecFloat.iter_pos].
  - change (Zpos n~1) with (2 * Zpos n + 1) in Hm.
    destruct (Hstep r (2 * Zpos n + 1) Hr Hx ltac:(lia) Hm) as (H1 & X1 & M1).
    replace (2 * Zpos n + 1 - 1) with (Zpos n + Zpos n) in M1 by lia.
    destruct (Hsplit (shr_m (shr_1 r)) (Zpos n) (Zpos n) H1 ltac:(lia) ltac:(lia) M1) as [Ma Mb].
    apply IH.
    + rewrite iter_shr_1_m by exact H1. apply Z.div_pos; [exact H1|].
      apply Z.pow_pos_nonneg; lia.
    + apply IH; assumption.
    + rewrite iter_shr_1_m by exact H1. exact Mb.
  - change (Zpos n~0) with (2 * Zpos n) in Hm.
    replace (2 * Zpos n) with (Zpos n + Zpos n) in Hm by lia.
    destruct (Hsplit (shr_m r) (Zpos n) (Zpos n) Hr ltac:(lia) ltac:(lia) Hm) as [Ma Mb].
    apply IH.
    + rewrite iter_shr_1_m by exact Hr. apply Z.div_pos; [exact Hr|].
      apply Z.pow_pos_nonneg; lia.
    + apply IH; assumption.
    + rewrite iter_shr_1_m by exact Hr. exact Mb.
  - apply shr_1_exact; [exact Hr | exact Hx |]. exact Hm.
Qed.

Lemma shr_exact_loc (r : shr_record) :
  shr_r r = false /\ shr_s r = false -> loc_of_shr_record r = loc_Exact.
Proof. destruct r as [m b s]. intros [Hb Hs]. cbn in Hb, Hs. subst. reflexivity. Qed.

(** Rounding an integer whose bits below the 53rd are all clear returns it. *)
Lemma binary_round_aux_exact_shift (mx ex : Z) :
  0 < mx -> 53 <= Zdigits2 mx ->
  mx mod 2 ^ (Zdigits2 mx - 53) = 0 ->
  -1074 <= Zdigits2 mx + ex - 53 -> ex + (Zdigits2 mx - 53) <= 971 ->
  binary_round_aux 53 1024 false mx ex loc_Exact
  = S754_finite false (Z.to_pos (mx / 2 ^ (Zdigits2 mx - 53))) (ex + (Zdigits2 mx - 53)).
Proof.
  intros Hm Hd Hmod Hnorm Hov.
  destruct (Z.eq_dec (Zdigits2 mx) 53) as [E53 | Hne].
  { rewrite E53. change (2 ^ (53 - 53)) with 1. rewrite Z.div_1_r, Z.add_0_r.
    apply binary_round_aux_exact; lia. }
  set (n := Zdigits2 mx - 53) in *.
  assert (Hn : 0 < n) by lia.
  assert (Hpn : 0 < 2 ^ n) by (apply Z.pow_pos_nonneg; lia).
  destruct (truncate_bounds mx Hm) as (Ht0 & Htn & Htd & Ht53 & _).
  rewrite Z.max_r in * by lia. fold n in Ht0, Htn, Htd, Ht53.
  destruct (Ht53 Hd) as [[Hlo Hhi] _].
  set (t := mx / 2 ^ n) in *.
  assert (Hdt : Zdigits2 t = 53).
  { apply Z.le_antisymm; [apply Zdigits2_le; lia | apply Zdigits2_ge; [lia|exact Hlo]]. }
  unfold binary_round_aux, shr_fexp. rewrite fexp_normal by lia.
  replace (Zdigits2 mx + ex - 53 - ex) with n by lia.
  destruct n as [| k | k] eqn:En; try lia. cbn [shr shr_record_of_loc].
  set (r0 := {| shr_m := mx; shr_r := false; shr_s := false |}).
  assert (Hx : (shr_r (SpecFloat.iter_pos shr_1 k r0) = false /\ shr_s (SpecFloat.iter_pos shr_1 k r0) = false)).
  { apply iter_shr_1_exact; [cbn; lia | split; reflexivity | exact Hmod]. }
  assert (Hmr : shr_m (SpecFloat.iter_pos shr_1 k r0) = t).
  { rewrite iter_shr_1_m by (cbn; lia). reflexivity. }
  rewrite (shr_exact_loc _ Hx), Hmr. cbn [round_nearest_even].
  rewrite fexp_normal by lia. rewrite Hdt.
  replace (53 + (ex + Zpos k) - 53 - (ex + Zpos k)) with 0 by lia.
  cbn [shr shr_record_of_loc shr_m].
  destruct t as [| q | q] eqn:Et; try lia.
  assert (Hle : (ex + Zpos k <=? 1024 - 53) = true) by (apply Z.leb_le; lia).
  rewrite Hle. reflexivity.
Qed.

(** ** Integers as numbers *)

Lemma floor_ofInt (z : Z) : 0 <= z < 2 ^ 53 -> JS.floor (JS.ofInt z) = Some z.
Proof.
  intros [Hz Hz53]. destruct (Z.eq_dec z 0) as [-> | Hne]; [reflexivity|].
  destruct (ofInt_pos z ltac:(lia)) as (m & E & V & D). rewrite E. cbn [JS.floor cond_Zopp].
  pose proof (Zdigits2_le z 53 ltac:(lia) Hz53) as Hd.
  f_equal. destruct (Z.leb_spec 0 (Zdigits2 z - 53)) as [H0 | H0].
  - assert (Ed : Zdigits2 z = 53) by lia. rewrite V, Ed.
    change (2 ^ (53 - 53)) with 1. lia.
  - rewrite V. replace (- (Zdigits2 z - 53)) with (53 - Zdigits2 z) by lia.
    apply Z.div_mul. apply Z.pow_nonzero; lia.
Qed.

(** The product of two positive integers that fits 53 bits is exact. *)
Lemma mul_ofInt (a b : Z) :
  0 < a -> 0 < b -> a * b < 2 ^ 53 -> JS.mul (JS.ofInt a) (JS.ofInt b) = JS.ofInt (a * b).
Proof.
  intros Ha Hb Hab.
  assert (Hab0 : 0 < a * b) by (apply Z.mul_pos_pos; assumption).
  assert (Ha53 : a < 2 ^ 53) by nia.
  assert (Hb53 : b < 2 ^ 53) by nia.
  destruct (ofInt_pos a ltac:(lia)) as (ma & Ea & Va & Da).
  destruct (ofInt_pos b ltac:(lia)) as (mb & Eb & Vb & Db).
  destruct (ofInt_pos (a * b) ltac:(lia)) as (mc & Ec & Vc & Dc).
  pose proof (Zdigits2_le a 53 Ha Ha53) as Hda.
  pose proof (Zdigits2_le b 53 Hb Hb53) as Hdb.
  pose proof (Zdigits2_le (a * b) 53 Hab0 Hab) as Hdab.
  pose proof (Zdigits2_pos a Ha) as Hda0.
  pose proof (Zdigits2_pos b Hb) as Hdb0.
  pose proof (Zdigits2_pos (a * b) Hab0) as Hdab0.
  set (da := Zdigits2 a) in *. set (db := Zdigits2 b) in *. set (dc := Zdigits2 (a * b)) in *.
  assert (Hprod : Zpos (ma * mb) = a * b * 2 ^ (106 - da - db)).
  { rewrite Pos2Z.inj_mul, Va, Vb.
    replace (106 - da - db) with ((53 - da) + (53 - db)) by lia.
    rewrite Z.pow_add_r by lia. ring. }
  assert (Hdig : Zdigits2 (Zpos (ma * mb)) = dc + (106 - da - db)).
  { rewrite Hprod. apply Zdigits2_mul_pow2; lia. }
  assert (Hge : da + db - 1 <= dc).
  { apply Zdigits2_ge; [exact Hab0|].
    pose proof (Zdigits2_bounds a Ha) as [La _]. pose proof (Zdigits2_bounds b Hb) as [Lb _].
    fold da in La. fold db in Lb.
    replace (da + db - 1 - 1) with ((da - 1) + (db - 1)) by lia.
    rewrite Z.pow_add_r by lia.
    apply Z.mul_le_mono_nonneg; try assumption; apply Z.pow_nonneg; lia. }
  unfold JS.mul. rewrite Ea, Eb, Ec. unfold SFmul. cbn [xorb]. unfold JS.prec, JS.emax.
  fold da db dc.
  rewrite binary_round_aux_exact_shift; rewrite ?Hdig; try lia.
  - f_equal; [|lia]. apply Pos2Z.inj. rewrite Z2Pos.id.
    + rewrite Vc, Hprod. fold dc.
      replace (dc + (106 - da - db) - 53) with (dc + 53 - da - db) by lia.
      replace (106 - da - db) with ((53 - dc) + (dc + 53 - da - db)) by lia.
      rewrite Z.pow_add_r by lia. rewrite Z.mul_assoc. apply Z.div_mul.
      apply Z.pow_nonzero; lia.
    + rewrite Hprod.
      replace (dc + (106 - da - db) - 53) with (dc + 53 - da - db) by lia.
      replace (106 - da - db) with ((53 - dc) + (dc + 53 - da - db)) by lia.
      rewrite Z.pow_add_r by lia. rewrite Z.mul_assoc. rewrite Z.div_mul.
      * apply Z.mul_pos_pos; [exact Hab0 | apply Z.pow_pos_nonneg; lia].
      * apply Z.pow_nonzero; lia.
  - rewrite Hprod.
    replace (dc + (106 - da - db) - 53) with (dc + 53 - da - db) by lia.
    replace (106 - da - db) with ((53 - dc) + (dc + 53 - da - db)) by lia.
    rewrite Z.pow_add_r by lia. rewrite Z.mul_assoc. apply Z.mod_mul.
    apply Z.pow_nonzero; lia.
Qed.

(** ** Division without a remainder *)

Lemma new_location_zero (nb_steps : Z) : new_location nb_steps 0 = loc_Exact.
Proof.
  unfold new_location, new_location_even, new_location_odd.
  destruct (Z.even nb_steps); reflexivity.
Qed.

Lemma div_core_exact (m1 e1 m2 e2 : Z) :
  0 < m1 -> 0 < m2 -> Zdigits2 m1 = 53 -> Zdigits2 m2 = 53 ->
  -1074 <= e1 - e2 - 53 ->
  (m1 * 2 ^ 53) mod m2 = 0 ->
  SFdiv_core_binary 53 1024 m1 e1 m2 e2 = (m1 * 2 ^ 53 / m2, e1 - e2 - 53, loc_Exact).
Proof.
  intros H1 H2 D1 D2 Hn Hmod. unfold SFdiv_core_binary. rewrite D1, D2.
  replace (53 + e1 - (53 + e2)) with (e1 - e2) by lia.
  rewrite fexp_normal by lia. rewrite Z.min_l by lia.
  replace (e1 - e2 - (e1 - e2 - 53)) with 53 by lia.
  cbv iota beta. rewrite Z.shiftl_mul_pow2 by lia.
  unfold Z.modulo in Hmod. unfold Z.div.
  destruct (Z.div_eucl (m1 * 2 ^ 53) m2) as [q r]. cbn [snd] in Hmod. subst r.
  rewrite new_location_zero. reflexivity.
Qed.

(** [(k * c) / c] is [k]. *)
Lemma div_ofInt_exact (k c : Z) :
  0 < k -> 0 < c -> k * c < 2 ^ 53 -> JS.div (JS.ofInt (k * c)) (JS.ofInt c) = JS.ofInt k.
Proof.
  intros Hk Hc Hkc.
  assert (Hp0 : 0 < k * c) by (apply Z.mul_pos_pos; assumption).
  assert (Hk53 : k < 2 ^ 53) by nia.
  assert (Hc53 : c < 2 ^ 53) by nia.
  destruct (ofInt_pos (k * c) ltac:(lia)) as (mp & Ep & Vp & Dp).
  destruct (ofInt_pos c ltac:(lia)) as (mc & Ec & Vc & Dc).
  destruct (ofInt_pos k ltac:(lia)) as (mk & Ek & Vk & Dk).
  pose proof (Zdigits2_le (k * c) 53 Hp0 Hkc) as Hdp.
  pose proof (Zdigits2_le c 53 Hc Hc53) as Hdc.
  pose proof (Zdigits2_le k 53 Hk Hk53) as Hdk.
  pose proof (Zdigits2_pos (k * c) Hp0) as Hdp0.
  pose proof (Zdigits2_pos c Hc) as Hdc0.
  pose proof (Zdigits2_pos k Hk) as Hdk0.
  set (dp := Zdigits2 (k * c)) in *. set (dc := Zdigits2 c) in *. set (dk := Zdigits2 k) in *.
  (* the digits of a product *)
  assert (Hlo : dc <= dp).
  { apply Zdigits2_ge; [exact Hp0|].
    pose proof (Zdigits2_bounds c Hc) as [Lc _]. fold dc in Lc. nia. }
  assert (Hhi : dp <= dk + dc).
  { apply Zdigits2_le; [exact Hp0|]. rewrite Z.pow_add_r by lia.
    pose proof (Zdigits2_bounds c Hc) as [_ Uc]. pose proof (Zdigits2_bounds k Hk) as [_ Uk].
    fold dc in Uc. fold dk in Uk.
    apply Z.mul_lt_mono_nonneg; lia. }
  set (s := 53 + dc - dp).
  assert (Hs : 0 <= s) by (unfold s; lia).
  assert (Hnum : Zpos mp * 2 ^ 53 = k * 2 ^ s * Zpos mc).
  { rewrite Vp, Vc. unfold s.
    replace (k * c * 2 ^ (53 - dp) * 2 ^ 53) with (k * c * (2 ^ (53 - dp) * 2 ^ 53)) by ring.
    rewrite <- Z.pow_add_r by lia.
    replace (k * 2 ^ (53 + dc - dp) * (c * 2 ^ (53 - dc)))
      with (k * c * (2 ^ (53 + dc - dp) * 2 ^ (53 - dc))) by ring.
    rewrite <- Z.pow_add_r by lia. do 2 f_equal. lia. }
  assert (Hq : Zpos mp * 2 ^ 53 / Zpos mc = k * 2 ^ s).
  { rewrite Hnum. apply Z.div_mul. lia. }
  assert (Hmod : (Zpos mp * 2 ^ 53) mod Zpos mc = 0).
  { rewrite Hnum. apply Z.mod_mul. lia. }
  assert (Hks : 0 < k * 2 ^ s) by (apply Z.mul_pos_pos; [lia | apply Z.pow_pos_nonneg; lia]).
  assert (Hdq : Zdigits2 (k * 2 ^ s) = dk + s) by (apply Zdigits2_mul_pow2; lia).
  unfold JS.div. rewrite Ep, Ec, Ek. unfold SFdiv. cbn [xorb]. unfold JS.prec, JS.emax.
  fold dp dc dk.
  rewrite (div_core_exact (Zpos mp) (dp - 53) (Zpos mc) (dc - 53)); try lia.
  rewrite Hq.
  rewrite binary_round_aux_exact_shift; rewrite ?Hdq; unfold s in *; try lia.
  - f_equal; [|lia]. apply Pos2Z.inj.
    assert (Ediv : k * 2 ^ (53 + dc - dp) / 2 ^ (dk + (53 + dc - dp) - 53) = k * 2 ^ (53 - dk)).
    { replace (53 + dc - dp) with ((53 - dk) + (dk + (53 + dc - dp) - 53)) at 1 by lia.
      rewrite Z.pow_add_r by lia. rewrite Z.mul_assoc. apply Z.div_mul.
      apply Z.pow_nonzero; lia. }
    rewrite Ediv, Vk. apply Z2Pos.id.
    apply Z.mul_pos_pos; [lia | apply Z.pow_pos_nonneg; lia].
  - replace (53 + dc - dp) with ((53 - dk) + (dk + (53 + dc - dp) - 53)) at 1 by lia.
    rewrite Z.pow_add_r by lia. rewrite Z.mul_assoc. apply Z.mod_mul.
    apply Z.pow_nonzero; lia.
Qed.

(** ** Rounding never goes below a number it could have returned *)

Lemma binary_round_aux_ge_trunc (mx ex : Z) (lx : location) (m : positive) (e : Z) :
  0 < mx ->
  -1074 <= Zdigits2 mx + ex - 53 ->
  lx = loc_Exact \/ 53 <= Zdigits2 mx ->
  binary_round_aux 53 1024 false mx ex lx = S754_finite false m e ->
  ex <= e
  /\ mx / 2 ^ Z.max 0 (Zdigits2 mx - 53) * 2 ^ Z.max 0 (Zdigits2 mx - 53)
     <= Zpos m * 2 ^ (e - ex).
Proof.
  intros Hm Hnorm Hloc Hres.
  destruct (shr_fexp_spec mx ex lx Hm Hnorm) as (r1 & E1 & M1 & X1).
  destruct (truncate_bounds mx Hm) as (Ht0 & Htn & Htd & Ht53 & Hteq).
  set (n := Z.max 0 (Zdigits2 mx - 53)) in *.
  assert (Hndef : n = Z.max 0 (Zdigits2 mx - 53)) by reflexivity.
  assert (Hn : 0 <= n) by lia.
  set (t := mx / 2 ^ n) in *.
  unfold binary_round_aux in Hres. rewrite E1 in Hres.
  set (m1 := round_nearest_even (shr_m r1) (loc_of_shr_record r1)) in *.
  assert (Hpn : 0 < 2 ^ n) by (apply Z.pow_pos_nonneg; lia).
  assert (Hm1 : t <= m1 <= t + 1).
  { unfold m1. rewrite M1. apply round_nearest_even_bounds. }
  assert (Hm1pos : 0 < m1) by lia.
  assert (Hd1 : Zdigits2 mx - n <= Zdigits2 m1).
  { pose proof (Zdigits2_bounds t Ht0) as [Hlo _].
    apply Zdigits2_ge; [lia|].
    assert (2 ^ (Zdigits2 mx - n - 1) <= 2 ^ (Zdigits2 t - 1)).
    { apply Z.pow_le_mono_r; lia. }
    lia. }
  destruct (shr_fexp_spec m1 (ex + n) loc_Exact Hm1pos ltac:(lia)) as (r2 & E2 & M2 & _).
  rewrite E2 in Hres. rewrite M2 in Hres.
  set (n2 := Z.max 0 (Zdigits2 m1 - 53)) in *.
  assert (Hn2 : 0 <= n2) by lia.
  assert (Hpn2 : 0 < 2 ^ n2) by (apply Z.pow_pos_nonneg; lia).
  set (u := m1 / 2 ^ n2) in *.
  assert (Hu : t <= u * 2 ^ n2).
  { destruct (Z_lt_le_dec (Zdigits2 m1) 54) as [Hlt | Hge].
    - assert (n2 = 0) by lia.
      assert (Eu : u = m1) by (unfold u; replace n2 with 0 by lia; rewrite Z.pow_0_r; apply Z.div_1_r).
      rewrite Eu. replace n2 with 0 by lia. rewrite Z.pow_0_r. lia.
    - pose proof (Zdigits2_bounds m1 Hm1pos) as [Hlo1 _].
      assert (H53 : 2 ^ 53 <= m1).
      { apply Z.le_trans with (2 ^ (Zdigits2 m1 - 1)); [|exact Hlo1].
        apply Z.pow_le_mono_r; lia. }
      destruct (Z_lt_le_dec (Zdigits2 mx) 53) as [Hlt | Hge'].
      + destruct Hloc as [-> | ?]; [|lia].
        assert (Em : m1 = mx) by (unfold m1; rewrite X1 by lia; reflexivity).
        rewrite Em in Hge. lia.
      + destruct (Ht53 Hge') as [[Hlo Hhi] _].
        assert (Em1 : m1 = 2 ^ 53) by lia.
        assert (Zdigits2 m1 <= 54).
        { apply Zdigits2_le; [lia|]. rewrite Em1. change (2 ^ 54) with (2 * 2 ^ 53). lia. }
        assert (En2 : n2 = 1) by lia.
        unfold u. rewrite En2, Em1. change (2 ^ 53 / 2 ^ 1 * 2 ^ 1) with (2 ^ 53). lia. }
  destruct u as [| p | p] eqn:Eu; try discriminate.
  destruct (ex + n + n2 <=? 1024 - 53); [|discriminate].
  injection Hres as <- <-. split; [lia|].
  replace (ex + n + n2 - ex) with (n2 + n) by lia.
  rewrite Z.pow_add_r by lia. rewrite Z.mul_assoc.
  apply Z.mul_le_mono_nonneg_r; [lia | exact Hu].
Qed.

(** Truncating to 53 bits does not go below a 53-bit number that is below. *)
Lemma trunc_ge_repr (mx y j : Z) :
  0 < y -> Zdigits2 y <= 53 -> 0 <= j -> y * 2 ^ j <= mx ->
  y * 2 ^ j <= mx / 2 ^ Z.max 0 (Zdigits2 mx - 53) * 2 ^ Z.max 0 (Zdigits2 mx - 53).
Proof.
  intros Hy Hdy Hj Hle.
  assert (Hpj : 0 < 2 ^ j) by (apply Z.pow_pos_nonneg; lia).
  assert (Hm : 0 < mx) by nia.
  destruct (truncate_bounds mx Hm) as (Ht0 & Htn & Htd & Ht53 & Hteq).
  set (n := Z.max 0 (Zdigits2 mx - 53)) in *.
  assert (Hndef : n = Z.max 0 (Zdigits2 mx - 53)) by reflexivity.
  assert (Hpn : 0 < 2 ^ n) by (apply Z.pow_pos_nonneg; lia).
  destruct (Z_le_gt_dec n j) as [Hnj | Hnj].
  - assert (Ej : 2 ^ j = 2 ^ (j - n) * 2 ^ n).
    { rewrite <- Z.pow_add_r by lia. f_equal. lia. }
    rewrite Ej, Z.mul_assoc. apply Z.mul_le_mono_nonneg_r; [lia|].
    apply Z.div_le_lower_bound; [exact Hpn|].
    rewrite Z.mul_comm, <- Z.mul_assoc, <- Ej. exact Hle.
  - assert (H53 : 53 <= Zdigits2 mx) by lia.
    destruct (Ht53 H53) as [[Hlo _] _].
    pose proof (Zdigits2_bounds y Hy) as [_ Hyhi].
    assert (Hy53 : y < 2 ^ 53).
    { apply Z.lt_le_trans with (2 ^ Zdigits2 y); [exact Hyhi|].
      apply Z.pow_le_mono_r; lia. }
    apply Z.le_trans with (2 ^ 52 * 2 ^ n).
    + apply Z.le_trans with (2 ^ 53 * 2 ^ j).
      * apply Z.mul_le_mono_nonneg_r; lia.
      * rewrite <- !Z.pow_add_r by lia. apply Z.pow_le_mono_r; lia.
    + apply Z.mul_le_mono_nonneg_r; lia.
Qed.

Lemma binary_round_aux_ge_repr (mx ex : Z) (lx : location) (m : positive) (e y j : Z) :
  0 < mx ->
  -1074 <= Zdigits2 mx + ex - 53 ->
  lx = loc_Exact \/ 53 <= Zdigits2 mx ->
  binary_round_aux 53 1024 false mx ex lx = S754_finite false m e ->
  0 < y -> Zdigits2 y <= 53 -> 0 <= j -> y * 2 ^ j <= mx ->
  ex <= e /\ y * 2 ^ j <= Zpos m * 2 ^ (e - ex).
Proof.
  intros Hm Hnorm Hloc Hres Hy Hdy Hj Hle.
  destruct (binary_round_aux_ge_trunc mx ex lx m e Hm Hnorm Hloc Hres) as [He Ht].
  split; [exact He|].
  exact (Z.le_trans _ _ _ (trunc_ge_repr mx y j Hy Hdy Hj Hle) Ht).
Qed.

(* ===================================================================== *)
(** * Payouts and the creator reward, exactly *)
(* ===================================================================== *)

(** When the pool is a multiple of the coins on the option, the odds are that
    multiple and the payout is the stake times it. *)
Lemma payoutOf_multiple (a k c : Z) :
  0 < a -> 0 < k -> 0 < c -> k * c < 2 ^ 53 -> a * k < 2 ^ 53 ->
  odds (k * c) c = JS.ofInt k /\ payoutOf a (odds (k * c) c) = Some (a * k).
Proof.
  intros Ha Hk Hc Hkc Hak.
  assert (Eo : odds (k * c) c = JS.ofInt k) by (apply div_ofInt_exact; assumption).
  split; [exact Eo|].
  unfold payoutOf. rewrite Eo, mul_ofInt by assumption.
  apply floor_ofInt. split; [|exact Hak]. apply Z.lt_le_incl, Z.mul_pos_pos; assumption.
Qed.

(** The odds of an option that holds no more than the pool are at least 1. *)
Lemma odds_ge_one (p c : Z) :
  0 < c -> c <= p -> p < 2 ^ 31 ->
  exists mq eq, odds p c = S754_finite false mq eq /\ eq < 0 /\ 2 ^ (- eq) <= Zpos mq.
Proof.
  intros Hc Hcp Hp.
  assert (Hp53 : 0 < p < 2 ^ 53)
    by (change (2 ^ 31) with 2147483648 in *; change (2 ^ 53) with 9007199254740992; lia).
  assert (Hc53 : 0 < c < 2 ^ 53)
    by (change (2 ^ 31) with 2147483648 in *; change (2 ^ 53) with 9007199254740992; lia).
  destruct (ofInt_pos p Hp53) as (mp & Ep & Vp & Dp).
  destruct (ofInt_pos c Hc53) as (mc & Ec & Vc & Dc).
  pose proof (Zdigits2_pos p ltac:(lia)) as Hdp0.
  pose proof (Zdigits2_pos c ltac:(lia)) as Hdc0.
  pose proof (Zdigits2_le p 31 ltac:(lia) ltac:(lia)) as Hdp.
  pose proof (Zdigits2_le c 31 ltac:(lia) ltac:(lia)) as Hdc.
  pose proof (Zdigits2_bounds (Zpos mp) ltac:(lia)) as Bp. rewrite Dp in Bp.
  pose proof (Zdigits2_bounds (Zpos mc) ltac:(lia)) as Bc. rewrite Dc in Bc.
  change (2 ^ (53 - 1)) with (2 ^ 52) in *.
  set (dp := Zdigits2 p) in *. set (dc := Zdigits2 c) in *.
  unfold odds, JS.div. rewrite Ep, Ec. unfold SFdiv. cbn [xorb].
  destruct (div_core_spec (Zpos mp) (dp - 53) (Zpos mc) (dc - 53)) as (l & El); try lia.
  unfold JS.prec, JS.emax. rewrite El.
  set (q := Zpos mp * 2 ^ 53 / Zpos mc).
  assert (Hq : 2 ^ 52 <= q < 2 ^ 54).
  { unfold q. split.
    - apply Z.div_le_lower_bound; [lia|].
      change (2 ^ 53) with (2 * 2 ^ 52) in *. nia.
    - apply Z.div_lt_upper_bound; [lia|].
      change (2 ^ 54) with (2 * 2 ^ 53). change (2 ^ 53) with (2 * 2 ^ 52) in *. nia. }
  assert (Hdq : 53 <= Zdigits2 q <= 54).
  { split; [apply Zdigits2_ge | apply Zdigits2_le]; change (2 ^ (53 - 1)) with (2 ^ 52); lia. }
  set (e' := dp - 53 - (dc - 53) - 53) in *.
  destruct (binary_round_aux_upper q e' l) as (mq & eq & Eq & Heq & _); try (unfold e'; lia).
  exists mq, eq. split; [exact Eq|].
  (* 1 is [2 ^ (- e')] units of the quotient *)
  assert (Hone : 1 * 2 ^ (- e') <= q).
  { unfold q. apply Z.div_le_lower_bound; [lia|]. rewrite Vp, Vc. unfold e'.
    replace (- (dp - 53 - (dc - 53) - 53)) with (53 + dc - dp) by lia.
    replace (c * 2 ^ (53 - dc) * (1 * 2 ^ (53 + dc - dp)))
      with (c * (2 ^ (53 - dc) * 2 ^ (53 + dc - dp))) by ring.
    rewrite <- Z.pow_add_r by lia.
    replace (p * 2 ^ (53 - dp) * 2 ^ 53) with (p * (2 ^ (53 - dp) * 2 ^ 53)) by ring.
    rewrite <- Z.pow_add_r by lia.
    replace (53 - dc + (53 + dc - dp)) with (53 - dp + 53) by lia.
    apply Z.mul_le_mono_nonneg_r; [apply Z.pow_nonneg|]; lia. }
  destruct (binary_round_aux_ge_repr q e' l mq eq 1 (- e')) as [_ Hge];
    try (unfold e'; lia); try assumption; [cbn; lia|].
  assert (Hneg : eq < 0) by (unfold e' in Heq; lia).
  split; [exact Hneg|].
  assert (Hs : 0 < 2 ^ (eq - e')) by (apply Z.pow_pos_nonneg; lia).
  apply Z.mul_le_mono_pos_r with (2 ^ (eq - e')); [exact Hs|].
  rewrite <- Z.pow_add_r by (unfold e' in *; lia).
  replace (- eq + (eq - e')) with (- e') by lia. lia.
Qed.

(** A winner is paid at least the stake when the option holds no more than
    the pool. *)
Lemma payoutOf_ge_stake (a p c : Z) :
  0 < a < 2 ^ 31 -> 0 < c -> c <= p -> p < 2 ^ 31 ->
  exists r, payoutOf a (odds p c) = Some r /\ a <= r.
Proof.
  intros Ha Hc Hcp Hp.
  destruct (odds_ge_one p c Hc Hcp Hp) as (mq & eq & Eo & Heq & Hone).
  destruct (odds_upper p c ltac:(lia) ltac:(lia))
    as (mq' & eq' & q & Eo' & Hrange & Hq & _ & Hmq & _).
  rewrite Eo in Eo'. injection Eo' as <- <-.
  assert (Ha53 : 0 < a < 2 ^ 53)
    by (change (2 ^ 31) with 2147483648 in *; change (2 ^ 53) with 9007199254740992; lia).
  destruct (ofInt_pos a Ha53) as (ma & Ea & Va & Da).
  pose proof (Zdigits2_pos a ltac:(lia)) as Hda0.
  pose proof (Zdigits2_pos p ltac:(lia)) as Hdp0.
  pose proof (Zdigits2_pos c ltac:(lia)) as Hdc0.
  pose proof (Zdigits2_le a 31 ltac:(lia) ltac:(lia)) as Hda.
  pose proof (Zdigits2_le p 31 ltac:(lia) ltac:(lia)) as Hdp.
  pose proof (Zdigits2_le c 31 ltac:(lia) ltac:(lia)) as Hdc.
  pose proof (Zdigits2_bounds (Zpos ma) ltac:(lia)) as Ba. rewrite Da in Ba.
  set (e' := Zdigits2 p - Zdigits2 c - 53) in *.
  assert (HS2 : 0 < 2 ^ (eq - e')) by (apply Z.pow_pos_nonneg; lia).
  assert (Hmq55 : Zpos mq < 2 ^ 55).
  { change (2 ^ 55) with (4 * 2 ^ 53). change (2 ^ 54) with (2 * 2 ^ 53) in Hq.
    change (2 ^ 53) with (2 * 2 ^ 52) in *. nia. }
  assert (Hprod : 0 < Zpos (ma * mq) < 2 ^ 108).
  { split; [lia|]. rewrite Pos2Z.inj_mul.
    change (2 ^ 108) with (2 ^ 53 * 2 ^ 55). nia. }
  pose proof (Zdigits2_pos (Zpos (ma * mq)) ltac:(lia)) as Hdm0.
  pose proof (Zdigits2_le (Zpos (ma * mq)) 108 ltac:(lia) ltac:(lia)) as Hdm.
  unfold payoutOf, JS.mul. rewrite Eo, Ea. unfold SFmul. cbn [xorb].
  unfold JS.prec, JS.emax.
  set (ea := Zdigits2 a - 53) in *.
  destruct (binary_round_aux_upper (Zpos (ma * mq)) (ea + eq) loc_Exact)
    as (mr & er & Er & Her & _); try (unfold ea; lia); [left; reflexivity|].
  destruct (binary_round_aux_ge_repr (Zpos (ma * mq)) (ea + eq) loc_Exact mr er
              (Zpos ma) (- eq)) as [_ Hge]; try (unfold ea; lia); try exact Er.
  { left; reflexivity. }
  { rewrite Pos2Z.inj_mul. apply Z.mul_le_mono_nonneg_l; lia. }
  rewrite Er. unfold JS.floor. cbn [cond_Zopp].
  set (T := - (ea + eq)).
  assert (HT : 0 <= T) by (unfold T, ea; lia).
  assert (HT2 : 0 < 2 ^ T) by (apply Z.pow_pos_nonneg; lia).
  destruct (floor_shift_bounds (Zpos mr) er T ltac:(lia) HT ltac:(unfold T; lia))
    as (Hr0 & _ & HrX).
  set (r := if 0 <=? er then Zpos mr * 2 ^ er else Zpos mr / 2 ^ (- er)) in *.
  exists r. split; [reflexivity|].
  replace (er + T) with (er - (ea + eq)) in HrX by (unfold T; lia).
  (* the stake, in the units of the product *)
  assert (Hstake : a * 2 ^ T = Zpos ma * 2 ^ (- eq)).
  { rewrite Va. unfold T, ea.
    replace (- (Zdigits2 a - 53 + eq)) with ((53 - Zdigits2 a) + (- eq)) by lia.
    rewrite Z.pow_add_r by lia. ring. }
  assert (Hlt : a * 2 ^ T < (r + 1) * 2 ^ T) by (rewrite Hstake; lia).
  apply Z.mul_lt_mono_pos_r in Hlt; [lia | exact HT2].
Qed.

(** [Math.floor(totalPool * 0.05)] is the twentieth of the pool, rounded
    down: the binary64 product never falls below the integer it exceeds. *)
Lemma creatorReward_exact (p : Z) : 0 <= p < 2 ^ 31 -> creatorReward p = Some (p / 20).
Proof.
  intros [Hp0 Hp]. destruct (Z.eq_dec p 0) as [-> | Hne]; [reflexivity|].
  assert (Hp53 : 0 < p < 2 ^ 53)
    by (change (2 ^ 31) with 2147483648 in *; change (2 ^ 53) with 9007199254740992; lia).
  destruct (ofInt_pos p Hp53) as (mp & Ep & Vp & Dp).
  pose proof (Zdigits2_pos p ltac:(lia)) as Hdp0.
  pose proof (Zdigits2_le p 31 ltac:(lia) ltac:(lia)) as Hdp.
  pose proof (Zdigits2_bounds (Zpos mp) ltac:(lia)) as Bp. rewrite Dp in Bp.
  set (dp := Zdigits2 p) in *.
  set (C := 7205759403792794).
  assert (HU : 0 < 2 ^ (53 - dp)) by (apply Z.pow_pos_nonneg; lia).
  assert (Hprod : Zpos (mp * 7205759403792794) = p * 2 ^ (53 - dp) * C).
  { rewrite Pos2Z.inj_mul, Vp. reflexivity. }
  assert (Hpos : 0 < Zpos (mp * 7205759403792794)) by lia.
  assert (Hdm : 105 <= Zdigits2 (Zpos (mp * 7205759403792794)) <= 106).
  { split.
    - apply Zdigits2_ge; [lia|]. rewrite Pos2Z.inj_mul.
      change (2 ^ (105 - 1)) with (2 ^ 52 * 2 ^ 52). change (2 ^ (53 - 1)) with (2 ^ 52) in Bp.
      apply Z.mul_le_mono_nonneg; try lia; try (apply Z.pow_nonneg; lia).
    - apply Zdigits2_le; [lia|]. rewrite Pos2Z.inj_mul.
      change (2 ^ 106) with (2 ^ 53 * 2 ^ 53).
      apply Z.mul_lt_mono_nonneg; try lia; try reflexivity. }
  unfold creatorReward, JS.mul, JS.lit_0_05. rewrite Ep. unfold SFmul. cbn [xorb].
  unfold JS.prec, JS.emax. fold dp.
  set (ex := dp - 53 + -57).
  destruct (binary_round_aux_upper (Zpos (mp * 7205759403792794)) ex loc_Exact)
    as (mr & er & Er & Her & Hup); try (unfold ex; lia); try (left; reflexivity).
  rewrite Er. unfold JS.floor. cbn [cond_Zopp].
  set (T := - ex).
  assert (HT : 0 <= T) by (unfold T, ex; lia).
  assert (HT2 : 0 < 2 ^ T) by (apply Z.pow_pos_nonneg; lia).
  destruct (floor_shift_bounds (Zpos mr) er T ltac:(lia) HT ltac:(unfold T; lia))
    as (Hr0 & HrL & HrU).
  set (r := if 0 <=? er then Zpos mr * 2 ^ er else Zpos mr / 2 ^ (- er)) in *.
  replace (er + T) with (er - ex) in HrL, HrU by (unfold T; lia).
  assert (ET : 2 ^ T = 2 ^ (53 - dp) * 2 ^ 57).
  { rewrite <- Z.pow_add_r by lia. f_equal. unfold T, ex. lia. }
  pose proof (Z.div_mod p 20 ltac:(lia)) as Hdiv.
  pose proof (Z.mod_pos_bound p 20 ltac:(lia)) as Hmod.
  set (k := p / 20) in *.
  assert (Hk0 : 0 <= k) by lia.
  f_equal. apply Z.le_antisymm.
  - (* not above: the two-sided bound on the rounding *)
    assert (Hlt : r * 2 ^ T * 2 ^ 52 < (k + 1) * 2 ^ T * 2 ^ 52).
    { apply Z.le_lt_trans with (Zpos (mp * 7205759403792794) * (2 ^ 52 + 1)).
      - apply Z.le_trans with (Zpos mr * 2 ^ (er - ex) * 2 ^ 52); [|exact Hup].
        apply Z.mul_le_mono_nonneg_r; [apply Z.pow_nonneg; lia | exact HrL].
      - rewrite Hprod, ET.
        replace (p * 2 ^ (53 - dp) * C * (2 ^ 52 + 1))
          with (2 ^ (53 - dp) * (p * C * (2 ^ 52 + 1))) by ring.
        replace ((k + 1) * (2 ^ (53 - dp) * 2 ^ 57) * 2 ^ 52)
          with (2 ^ (53 - dp) * ((k + 1) * 2 ^ 57 * 2 ^ 52)) by ring.
        apply Z.mul_lt_mono_pos_l; [exact HU|].
        unfold C. change (2 ^ 52) with 4503599627370496.
        change (2 ^ 57) with 144115188075855872.
        change (2 ^ 31) with 2147483648 in Hp. lia. }
    apply Z.mul_lt_mono_pos_r in Hlt; [|apply Z.pow_pos_nonneg; lia].
    apply Z.mul_lt_mono_pos_r in Hlt; [lia | exact HT2].
  - (* not below: [k] is a number the rounding could have returned *)
    destruct (Z.eq_dec k 0) as [Ek | Hk]; [lia|].
    assert (Hdk : Zdigits2 k <= 53).
    { apply Zdigits2_le; [lia|].
      change (2 ^ 31) with 2147483648 in Hp. change (2 ^ 53) with 9007199254740992. lia. }
    assert (Hkle : k * 2 ^ T <= Zpos (mp * 7205759403792794)).
    { rewrite Hprod, ET.
      replace (k * (2 ^ (53 - dp) * 2 ^ 57)) with (2 ^ (53 - dp) * (k * 2 ^ 57)) by ring.
      replace (p * 2 ^ (53 - dp) * C) with (2 ^ (53 - dp) * (p * C)) by ring.
      apply Z.mul_le_mono_nonneg_l; [lia|].
      unfold C. change (2 ^ 57) with 144115188075855872. lia. }
    destruct (binary_round_aux_ge_repr (Zpos (mp * 7205759403792794)) ex loc_Exact mr er k T
                Hpos ltac:(unfold ex; lia) (or_introl eq_refl) Er ltac:(lia) Hdk HT Hkle)
      as [_ Hge].
    assert (Hlt : k * 2 ^ T < (r + 1) * 2 ^ T) by lia.
    apply Z.mul_lt_mono_pos_r in Hlt; [lia | exact HT2].
Qed.

(* ===================================================================== *)
(** * What the loops do to the accounts, the notifications and the ledger *)
(* ===================================================================== *)

Lemma sumZ_insert (l : list Z) (i : nat) (x y : Z) :
  l !! i = Some x -> sumZ (<[i := y]> l) = sumZ l + (y - x).
Proof.
  unfold sumZ. revert i. induction l as [| z l IH]; intros [| i] H; try discriminate.
  - injection H as ->. cbn. lia.
  - cbn in H. change (<[S i := y]> (z :: l)) with (z :: <[i := y]> l).
    cbn [foldr]. rewrite (IH i H). lia.
Qed.

Lemma balances_insert (t : list User.t) (i : Id) (u : User.t) :
  User.coinBalance <$> <[i := u]> t = <[i := User.coinBalance u]> (User.coinBalance <$> t).
Proof. apply list_fmap_insert. Qed.

Lemma processLoser_balances (bet : Id * Bet.t) (t t' : Db) :
  processLoser bet t = inr (tt, t') -> balances t' = balances t.
Proof.
  intros H. unfold processLoser in H. tx_inv H. cbn in *.
  unfold balances. cbn. rewrite balances_insert. cbn.
  apply list_insert_id. rewrite list_lookup_fmap.
  match goal with Hx : users _ !! _ = Some _ |- _ =>
    exact (f_equal (fmap User.coinBalance) Hx) end.
Qed.

(** A loop that appends the row [h x] to a table at every turn. *)
Lemma forEach_appends {A R} (get : Db -> list R) (body : A -> Tx unit) (h : A -> R)
    (xs : list A) :
  (forall x t t', body x t = inr (tt, t') -> get t' = get t ++ [h x]) ->
  forall t t', forEach xs body t = inr (tt, t') -> get t' = get t ++ (h <$> xs).
Proof.
  intros Hbody. induction xs as [| x xs IH]; intros t t' Hrun; cbn in Hrun.
  - apply ret_inr in Hrun as [_ <-]. cbn. rewrite app_nil_r. reflexivity.
  - apply bind_inr in Hrun as ([] & t1 & H1 & H2).
    rewrite (IH t1 t' H2), (Hbody x t t1 H1), <- app_assoc. reflexivity.
Qed.

(** A loop that leaves a table alone. *)
Lemma forEach_keeps {A R} (get : Db -> list R) (body : A -> Tx unit) (xs : list A) :
  (forall x t t', body x t = inr (tt, t') -> get t' = get t) ->
  forall t t', forEach xs body t = inr (tt, t') -> get t' = get t.
Proof.
  intros Hbody t t' Hrun.
  refine (forEach_invariant (fun u => get u = get t) body xs _ t t' eq_refl Hrun).
  intros x u u' _ Hu Hx. rewrite (Hbody x u u' Hx). exact Hu.
Qed.

Lemma processLoser_log (bet : Id * Bet.t) (t t' : Db) :
  processLoser bet t = inr (tt, t') ->
  transactions t' = transactions t
  /\ notifications t' = notifications t ++ [lostNotification bet].
Proof. intros H. unfold processLoser in H. tx_inv H. cbn in *. auto. Qed.

(** The rows [findMany] returns, without their keys. *)
Lemma filter_imap_snd {B} (P : Bet.t -> Prop) `{forall b, Decision (P b)} (f : Bet.t -> B)
    (l : list Bet.t) :
  forall j : nat -> Id,
    (fun x : Id * Bet.t => f x.2) <$> filter (fun x => P x.2) (imap (fun i b => (j i, b)) l)
    = f <$> filter P l.
Proof.
  induction l as [| b l IH]; intros j; [reflexivity|].
  cbn [imap].
  change (imap ((fun i b => (j i, b)) ∘ S) l) with (imap (fun i b => ((j ∘ S) i, b)) l).
  rewrite !filter_cons. cbn [snd].
  destruct (decide (P b)); [rewrite !fmap_cons|]; rewrite (IH (j ∘ S)); reflexivity.
Qed.

Lemma filter_rows_snd {B} (P : Bet.t -> Prop) `{forall b, Decision (P b)} (f : Bet.t -> B)
    (l : list Bet.t) :
  (fun x : Id * Bet.t => f x.2) <$> filter (fun x => P x.2) (rows l) = f <$> filter P l.
Proof. exact (filter_imap_snd P f l (fun i => i)). Qed.

(** ** The accounts, the ledger and the notifications after a resolution *)

Lemma resolveTx_accounts (predictionId correctOptionId : Id) (s s' : Db) :
  resolveTx predictionId correctOptionId s = inr (tt, s') ->
  exists p0 o reward,
    predictions s !! predictionId = Some p0
    /\ options s !! correctOptionId = Some o
    /\ creatorReward (Prediction.totalPool p0) = Some reward
    /\ length (balances s') = length (balances s)
    /\ (forall u b, balances s !! u = Some b ->
          balances s' !! u
          = Some (b + (if decide (u = Prediction.creatorId p0) then reward else 0)))
    /\ sumZ (balances s') = sumZ (balances s) + reward
    /\ transactions s' = transactions s
    /\ exists sent,
         notifications s' = notifications s ++ sent
         /\ sent ≡ₚ (fun b => Notification.mk (Bet.userId b) NOTIFY_BET_LOST)
                      <$> filter (losing predictionId correctOptionId) (bets s).
Proof.
  intros H.
  apply resolveTx_inr in H
    as (p0 & o & s4 & reward & creator & Hp0 & Ho & _ & Hlose & Hrew & Hcr & ->).
  exists p0, o, reward.
  set (xs := filter (fun b : Id * Bet.t => Bet.optionId b.2 <> correctOptionId)
               (rowOrder (filter (fun b : Id * Bet.t => Bet.predictionId b.2 = predictionId)
                            (rows (bets s))))) in *.
  set (s1 := set_predictions _ s) in *.
  pose proof (forEach_keeps balances processLoser xs processLoser_balances s1 s4 Hlose)
    as Hbal4.
  pose proof (forEach_keeps transactions processLoser xs
                (fun x t t' Hx => proj1 (processLoser_log x t t' Hx)) s1 s4 Hlose) as Htx4.
  pose proof (forEach_appends notifications processLoser lostNotification xs
                (fun x t t' Hx => proj2 (processLoser_log x t t' Hx)) s1 s4 Hlose) as Hno4.
  change (balances s1) with (balances s) in Hbal4.
  split; [exact Hp0|]. split; [exact Ho|]. split; [exact Hrew|].
  assert (Hcrb : balances s4 !! Prediction.creatorId p0 = Some (User.coinBalance creator)).
  { unfold balances. rewrite list_lookup_fmap.
    exact (f_equal (fmap User.coinBalance) Hcr). }
  assert (Ebal : balances (set_users (fun t => <[Prediction.creatorId p0 :=
                   User.mk (User.coinBalance creator + reward) (User.totalBets creator)
                           (User.totalWins creator) (User.totalLosses creator)]> t) s4)
                 = <[Prediction.creatorId p0 := User.coinBalance creator + reward]> (balances s4)).
  { unfold balances. cbn. apply balances_insert. }
  split; [rewrite Ebal, length_insert, Hbal4; reflexivity|].
  split; [|split; [|split]].
  - intros u b Hu. rewrite Ebal. rewrite <- Hbal4 in Hu.
    destruct (decide (u = Prediction.creatorId p0)) as [-> | Hne].
    + rewrite list_lookup_insert_eq by (eapply lookup_lt_Some; exact Hu).
      pose proof (eq_trans (eq_sym Hcrb) Hu) as E. injection E as ->. reflexivity.
    + rewrite list_lookup_insert_ne by (intros E; apply Hne; symmetry; exact E).
      rewrite Z.add_0_r. exact Hu.
  - rewrite Ebal, (sumZ_insert _ _ _ _ Hcrb), Hbal4. lia.
  - cbn. exact Htx4.
  - exists (lostNotification <$> xs). split; [cbn; exact Hno4|].
    unfold xs. rewrite filter_rowOrder, filter_losing.
    rewrite (filter_rows_snd (losing predictionId correctOptionId)
               (fun b => Notification.mk (Bet.userId b) NOTIFY_BET_LOST) (bets s)).
    reflexivity.
Qed.

(** After a committed resolution no bet of the prediction names the correct
    option, so the payouts written add up to nothing. *)
Lemma resolveTx_totalPayout (predictionId correctOptionId : Id) (s s' : Db) :
  resolveTx predictionId correctOptionId s = inr (tt, s') ->
  filter (winning predictionId correctOptionId) (bets s') = []
  /\ totalPayout predictionId correctOptionId s' = 0.
Proof.
  intros H. pose proof (resolveTx_no_winner _ _ _ _ H) as Hnone.
  apply resolveTx_bets in H as Hb.
  assert (E : filter (winning predictionId correctOptionId) (bets s') = []).
  { apply filter_none. rewrite Hb. apply Forall_fmap.
    eapply Forall_impl; [exact Hnone|]. intros b Hnw Hw. cbn in Hw. apply Hnw.
    unfold winning in *.
    destruct (resolvedRow_core predictionId b) as (E1 & E2 & _).
    rewrite E1, E2 in Hw. exact Hw. }
  split; [exact E|]. unfold totalPayout. rewrite E. reflexivity.
Qed.


(* ===================================================================== *)
(** * The option rows of a prediction after an update *)
(* ===================================================================== *)

Lemma imap_insert_key {R} (j : nat -> Id) (l : list R) (i : nat) (y : R) :
  (forall a b, j a = j b -> a = b) ->
  imap (fun n r => (j n, r)) (<[i := y]> l)
  = (fun x : Id * R => if decide (x.1 = j i) then (x.1, y) else x)
      <$> imap (fun n r => (j n, r)) l.
Proof.
  revert j i. induction l as [| r l IH]; intros j i Hinj; [reflexivity|].
  destruct i as [| i].
  - change (<[0%nat := y]> (r :: l)) with (y :: l). cbn [imap fmap list_fmap].
    rewrite decide_True by reflexivity. cbn [fst]. f_equal.
    change (imap ((fun n r0 => (j n, r0)) ∘ S) l)
      with (imap (fun n r0 => ((j ∘ S) n, r0)) l).
    symmetry. etrans; [|apply list_fmap_id].
    apply list_fmap_ext. intros n x Hx. apply list_lookup_imap_Some in Hx as (z & _ & ->).
    cbn. rewrite decide_False; [reflexivity|].
    intros E. apply Hinj in E. discriminate.
  - change (<[S i := y]> (r :: l)) with (r :: <[i := y]> l). cbn [imap fmap list_fmap].
    rewrite decide_False by (cbn; intros E; apply Hinj in E; discriminate). f_equal.
    change (imap ((fun n r0 => (j n, r0)) ∘ S) (<[i := y]> l))
      with (imap (fun n r0 => ((j ∘ S) n, r0)) (<[i := y]> l)).
    change (imap ((fun n r0 => (j n, r0)) ∘ S) l)
      with (imap (fun n r0 => ((j ∘ S) n, r0)) l).
    rewrite (IH (j ∘ S) i).
    + reflexivity.
    + intros a b E. apply Hinj in E. lia.
Qed.

Lemma rows_insert {R} (l : list R) (i : Id) (y : R) :
  rows (<[i := y]> l)
  = (fun x : Id * R => if decide (x.1 = i) then (x.1, y) else x) <$> rows l.
Proof. exact (imap_insert_key (fun n => n) l i y (fun a b E => E)). Qed.

Lemma filter_fmap_iff {R} (P : R -> Prop) `{forall x, Decision (P x)} (f : R -> R)
    (l : list R) :
  (forall x, x ∈ l -> (P (f x) <-> P x)) -> filter P (f <$> l) = f <$> filter P l.
Proof.
  induction l as [| x l IH]; intros Hf; [reflexivity|].
  rewrite fmap_cons, !filter_cons.
  assert (Hx : P (f x) <-> P x) by (apply Hf; left).
  assert (Hl : forall z, z ∈ l -> (P (f z) <-> P z)) by (intros z Hz; apply Hf; right; exact Hz).
  destruct (decide (P (f x))), (decide (P x)); try tauto; rewrite (IH Hl); reflexivity.
Qed.
(* ===================================================================== *)
(** * The statistics counters *)
(* ===================================================================== *)

Lemma processLoser_users (bet : Id * Bet.t) (t t' : Db) :
  processLoser bet t = inr (tt, t') ->
  exists r, users t !! Bet.userId bet.2 = Some r
    /\ users t' = <[Bet.userId bet.2 :=
                      User.mk (User.coinBalance r) (User.totalBets r) (User.totalWins r)
                              (User.totalLosses r + 1)]> (users t).
Proof.
  intros H. unfold processLoser in H. tx_inv H. cbn in *.
  match goal with Hx : users _ !! _ = Some ?x |- _ => exists x; split; [exact Hx|] end.
  reflexivity.
Qed.

(** A loop that rewrites the row of the account [who x] at every turn: every
    column that a turn raises by [g x] ends raised by the sum of the [g x] of
    the account's turns. *)
Lemma forEach_users {A} (body : A -> Tx unit) (who : A -> Id) (f : A -> User.t -> User.t)
    (xs : list A) :
  (forall x t t', body x t = inr (tt, t') ->
     exists r, users t !! who x = Some r /\ users t' = <[who x := f x r]> (users t)) ->
  forall t t', forEach xs body t = inr (tt, t') ->
    forall u r, users t !! u = Some r ->
      exists r', users t' !! u = Some r'
        /\ forall (col : User.t -> Z) (g : A -> Z),
             (forall x r0, col (f x r0) = col r0 + g x) ->
             col r' = col r + sumZ (g <$> filter (fun x => who x = u) xs).
Proof.
  intros Hbody. induction xs as [| x xs IH]; intros t t' Hrun u r Hu; cbn in Hrun.
  - apply ret_inr in Hrun as [_ <-]. exists r. split; [exact Hu|].
    intros col g _. cbn. lia.
  - apply bind_inr in Hrun as ([] & t1 & H1 & H2).
    destruct (Hbody x t t1 H1) as (r0 & Hr0 & E1).
    destruct (decide (who x = u)) as [Eu | Hne].
    + subst u. assert (r0 = r) by congruence. subst r0.
      destruct (IH t1 t' H2 (who x) (f x r)) as (r' & Hr' & Hcol).
      { rewrite E1. apply list_lookup_insert_eq. eapply lookup_lt_Some; exact Hu. }
      exists r'. split; [exact Hr'|]. intros col g Hg.
      rewrite (Hcol col g Hg), Hg, filter_cons, decide_True by reflexivity.
      rewrite fmap_cons. unfold sumZ. cbn [foldr]. lia.
    + destruct (IH t1 t' H2 u r) as (r' & Hr' & Hcol).
      { rewrite E1, list_lookup_insert_ne by exact Hne. exact Hu. }
      exists r'. split; [exact Hr'|]. intros col g Hg.
      rewrite (Hcol col g Hg), filter_cons, decide_False by exact Hne. reflexivity.
Qed.

Lemma sumZ_ones {A} (l : list A) : sumZ ((fun _ => 1) <$> l) = Z.of_nat (length l).
Proof.
  unfold sumZ. induction l as [| x l IH]; [reflexivity|].
  rewrite fmap_cons. cbn [foldr length]. rewrite IH. lia.
Qed.

Lemma sumZ_zeros {A} (l : list A) : sumZ ((fun _ => 0) <$> l) = 0.
Proof.
  unfold sumZ. induction l as [| x l IH]; [reflexivity|].
  rewrite fmap_cons. cbn [foldr]. rewrite IH. reflexivity.
Qed.

Lemma filter_iff_Forall {R} (P Q : R -> Prop) `{!forall x, Decision (P x)}
    `{!forall x, Decision (Q x)} (l : list R) :
  Forall (fun x => P x <-> Q x) l -> filter P l = filter Q l.
Proof.
  induction 1 as [| x l Hx _ IH]; [reflexivity|].
  rewrite !filter_cons, IH. destruct (decide (P x)), (decide (Q x)); tauto.
Qed.

(** The turns of one account in the losers' loop: its bets on the
    prediction, in whatever order the query returned them. *)
Lemma count_turns (predictionId correctOptionId : Id) (u : Id) (bs : list Bet.t) :
  sumZ ((fun _ : Id * Bet.t => 1)
          <$> filter (fun x => Bet.userId x.2 = u)
                (filter (fun b => Bet.optionId b.2 <> correctOptionId)
                   (rowOrder (filter (fun b => Bet.predictionId b.2 = predictionId)
                                (rows bs)))))
  = countBets (fun b => Bet.userId b = u /\ losing predictionId correctOptionId b) bs.
Proof.
  etrans.
  { apply sumZ_Permutation. rewrite filter_rowOrder, filter_losing, list_filter_filter.
    reflexivity. }
  etrans; [exact (f_equal sumZ
             (filter_rows_snd (fun b => Bet.userId b = u
                                        /\ losing predictionId correctOptionId b)
                (fun _ => 1) bs))|].
  apply sumZ_ones.
Qed.

(** The User table after a committed resolution: the counters. *)
Lemma resolveTx_users (predictionId correctOptionId : Id) (s s' : Db) :
  resolveTx predictionId correctOptionId s = inr (tt, s') ->
  forall userId user, users s !! userId = Some user ->
    exists user', users s' !! userId = Some user'
      /\ User.totalWins user' = User.totalWins user
      /\ User.totalLosses user'
         = User.totalLosses user
           + countBets (fun b => Bet.userId b = userId /\ Bet.predictionId b = predictionId)
               (bets s)
      /\ User.totalBets user' = User.totalBets user.
Proof.
  intros H u r Hu. pose proof (resolveTx_no_winner _ _ _ _ H) as Hnone.
  apply resolveTx_inr in H
    as (p0 & o & s4 & reward & creator & Hp0 & Ho & _ & Hlose & Hrew & Hcr & ->).
  destruct (forEach_users _ (fun x => Bet.userId x.2) _ _
              processLoser_users _ _ Hlose u r Hu) as (r4 & Hr4 & Hcol4).
  pose proof (Hcol4 User.totalWins (fun _ => 0) (fun _ r0 => eq_sym (Z.add_0_r _))) as W4.
  pose proof (Hcol4 User.totalLosses (fun _ => 1) (fun _ _ => eq_refl)) as L4.
  pose proof (Hcol4 User.totalBets (fun _ => 0) (fun _ r0 => eq_sym (Z.add_0_r _))) as B4.
  rewrite sumZ_zeros in W4, B4. rewrite count_turns in L4.
  assert (Ecount : countBets (fun b => Bet.userId b = u
                                       /\ losing predictionId correctOptionId b) (bets s)
                   = countBets (fun b => Bet.userId b = u
                                         /\ Bet.predictionId b = predictionId) (bets s)).
  { unfold countBets. do 2 f_equal. apply filter_iff_Forall.
    eapply Forall_impl; [exact Hnone|]. intros b Hnw. cbn. unfold losing, winning in *.
    destruct (decide (Bet.optionId b = correctOptionId)); tauto. }
  rewrite Ecount in L4. cbn [users set_users].
  destruct (decide (u = Prediction.creatorId p0)) as [-> | Hne].
  - pose proof (eq_trans (eq_sym Hcr) Hr4) as E. injection E as ->.
    eexists. split; [apply list_lookup_insert_eq; eapply lookup_lt_Some; exact Hr4|].
    cbn. lia.
  - exists r4. split; [|lia].
    rewrite list_lookup_insert_ne by (intros E; apply Hne; symmetry; exact E). exact Hr4.
Qed.

Lemma countBets_app (P : Bet.t -> Prop) `{!forall b, Decision (P b)} (l k : list Bet.t) :
  countBets P (l ++ k) = countBets P l + countBets P k.
Proof. unfold countBets. rewrite filter_app, length_app. lia. Qed.

Lemma countBets_fmap (P : Bet.t -> Prop) `{!forall b, Decision (P b)} (f : Bet.t -> Bet.t)
    (l : list Bet.t) :
  (forall b, P (f b) <-> P b) -> countBets P (f <$> l) = countBets P l.
Proof.
  intros Hf. unfold countBets. f_equal.
  induction l as [| b l IH]; [reflexivity|].
  rewrite fmap_cons, !filter_cons. specialize (Hf b).
  repeat case_decide; try tauto; cbn; rewrite IH; reflexivity.
Qed.

Lemma resolvedRow_keys (predictionId : Id) (b : Bet.t) :
  Bet.userId (resolvedRow predictionId b) = Bet.userId b
  /\ Bet.predictionId (resolvedRow predictionId b) = Bet.predictionId b
  /\ Bet.optionId (resolvedRow predictionId b) = Bet.optionId b.
Proof. unfold resolvedRow. case_decide; cbn; auto. Qed.

Lemma users_lookup_back (s s' : Db) (i : Id) (u' : User.t) :
  length (users s') = length (users s) -> users s' !! i = Some u' ->
  exists u, users s !! i = Some u.
Proof.
  intros Hlen Hi. apply lookup_lt_is_Some. rewrite <- Hlen. eapply lookup_lt_Some; exact Hi.
Qed.

Lemma placeBetTx_counters (userId predictionId optionId : Id) (betAmount : Z)
    (k : JS.number) (s s' : Db) (id : Id) :
  counters_consistent s ->
  placeBetTx userId predictionId optionId betAmount k s = inr (id, s') ->
  counters_consistent s'.
Proof.
  intros [Hu Hp Ho] H.
  apply placeBetTx_inr in H as (u & p & o & Eu & Ep & Eo & _ & _ & _ & _ & _ & ->).
  constructor; cbn [users predictions options bets]; intros i r Hi;
    rewrite countBets_app; unfold countBets at 2; rewrite filter_cons, filter_nil;
    cbn [Bet.userId Bet.predictionId Bet.optionId].
  - destruct (decide (userId = i)) as [<- | Hne].
    + rewrite list_lookup_insert_eq in Hi by (eapply lookup_lt_Some; exact Eu).
      injection Hi as <-. cbn. rewrite (Hu userId u Eu). lia.
    + rewrite list_lookup_insert_ne in Hi by exact Hne.
      rewrite (Hu i r Hi). cbn. lia.
  - destruct (decide (predictionId = i)) as [<- | Hne].
    + rewrite list_lookup_insert_eq in Hi by (eapply lookup_lt_Some; exact Ep).
      injection Hi as <-. cbn. rewrite (Hp predictionId p Ep). lia.
    + rewrite list_lookup_insert_ne in Hi by exact Hne.
      rewrite (Hp i r Hi). cbn. lia.
  - destruct (decide (optionId = i)) as [<- | Hne].
    + rewrite list_lookup_insert_eq in Hi by (eapply lookup_lt_Some; exact Eo).
      injection Hi as <-. cbn. rewrite (Ho optionId o Eo). lia.
    + rewrite list_lookup_insert_ne in Hi by exact Hne.
      rewrite (Ho i r Hi). cbn. lia.
Qed.

Lemma resolveTx_counters (predictionId correctOptionId : Id) (s s' : Db) :
  counters_consistent s ->
  resolveTx predictionId correctOptionId s = inr (tt, s') -> counters_consistent s'.
Proof.
  intros [Hu Hp Ho] H.
  pose proof (resolveTx_bets _ _ _ _ H) as Hb.
  pose proof (resolveTx_users _ _ _ _ H) as Husers.
  destruct (resolveTx_accounts _ _ _ _ H) as (p2 & o2 & reward & _ & _ & _ & Hlen & _).
  unfold balances in Hlen. rewrite !length_fmap in Hlen.
  apply resolveTx_tables in H as (Hopt & p0 & Hp0 & Hpred).
  constructor; intros i r Hi; rewrite Hb.
  - destruct (users_lookup_back s s' i r Hlen Hi) as [u Eu].
    destruct (Husers i u Eu) as (u' & Eu' & _ & _ & B).
    pose proof (eq_trans (eq_sym Eu') Hi) as E. injection E as ->.
    rewrite B, (Hu i u Eu). symmetry. apply countBets_fmap.
    intros b. destruct (resolvedRow_keys predictionId b) as (-> & _ & _).
    tauto.
  - rewrite countBets_fmap.
    + rewrite Hpred in Hi. destruct (decide (predictionId = i)) as [<- | Hne].
      * rewrite list_lookup_insert_eq in Hi by (eapply lookup_lt_Some; exact Hp0).
        injection Hi as <-. cbn. exact (Hp predictionId p0 Hp0).
      * rewrite list_lookup_insert_ne in Hi by exact Hne. exact (Hp i r Hi).
    + intros b. destruct (resolvedRow_keys predictionId b) as (_ & -> & _).
      tauto.
  - rewrite countBets_fmap.
    + rewrite Hopt in Hi. exact (Ho i r Hi).
    + intros b. destruct (resolvedRow_keys predictionId b) as (_ & _ & ->).
      tauto.
Qed.

Lemma cancelTx_counters (predictionId : Id) (s s' : Db) :
  counters_consistent s -> cancelTx predictionId s = inr (tt, s') -> counters_consistent s'.
Proof.
  intros [Hu Hp Ho] H. apply cancelTx_inr in H as (_ & p0 & Hp0 & ->).
  constructor; cbn [users predictions options bets set_predictions]; [exact Hu | | exact Ho].
  intros i r Hi. destruct (decide (predictionId = i)) as [<- | Hne].
  - rewrite list_lookup_insert_eq in Hi by (eapply lookup_lt_Some; exact Hp0).
    injection Hi as <-. cbn. exact (Hp predictionId p0 Hp0).
  - rewrite list_lookup_insert_ne in Hi by exact Hne. exact (Hp i r Hi).
Qed.

(** Every committed transaction keeps the [totalBets] counters in step with
    the Bet table. *)
Lemma history_counters (s s' : Db) :
  counters_consistent s -> history s s' -> counters_consistent s'.
Proof.
  intros Hs Hh. induction Hh as [s | s s1 s2 Hh IH Hc]; [exact Hs|].
  specialize (IH Hs). destruct Hc as [u p o a k id t t' Ha H | p c t t' H | p t t' H].
  - exact (placeBetTx_counters _ _ _ _ _ _ _ _ IH H).
  - exact (resolveTx_counters _ _ _ _ IH H).
  - exact (cancelTx_counters _ _ _ IH H).
Qed.
(* ===================================================================== *)
(** * The claims *)
(* ===================================================================== *)

Local Open Scope nat_scope.

(** The payouts the winners' loop computes, [Math.floor(bet.amount *
    oddsForWinners)] for every bet of the prediction that names the correct
    option, are integers and add up to at most the pool. *)
Lemma computed_payouts_bound (l : list Bet.t) (p c : Z) :
  Forall (fun b => 0 < Bet.amount b < 2 ^ 31)%Z l ->
  (0 <= p < 2 ^ 31)%Z -> (c < 2 ^ 31)%Z -> (sumZ (Bet.amount <$> l) <= c)%Z ->
  exists payouts,
    Forall2 (fun b payout => payoutOf (Bet.amount b) (odds p c) = Some payout) l payouts
    /\ (sumZ payouts <= p)%Z.
Proof.
  intros Hl Hp Hc Hsum.
  exists ((fun b => default 0%Z (payoutOf (Bet.amount b) (odds p c))) <$> l). split.
  - assert (Hc0 : l = [] \/ (0 < c)%Z).
    { destruct l as [| b l]; [left; reflexivity | right].
      apply Forall_cons in Hl as [Hb Hl].
      assert (0 <= sumZ (Bet.amount <$> l))%Z.
      { clear - Hl. induction Hl as [| x l Hx _ IH]; cbn; unfold sumZ in *; cbn; lia. }
      rewrite fmap_cons in Hsum. unfold sumZ in *. cbn [foldr] in Hsum. lia. }
    destruct Hc0 as [-> | Hc0]; [constructor|].
    apply Forall2_fmap_r, Forall_Forall2_diag.
    eapply Forall_impl; [exact Hl|]. intros b Hb. cbn.
    destruct (payoutOf_bound (Bet.amount b) p c Hb Hp ltac:(lia)) as (r & Er & _).
    rewrite Er. reflexivity.
  - exact (sum_payout_bound l p c Hl Hp Hc Hsum).
Qed.

(** C2: the payouts never exceed the pool.  In a state in which the
    aggregates agree with the bets ([consistent], kept by every request), the
    payouts that the code's binary64 expression gives the winning bets add up
    to at most the market's pool; and a committed resolution leaves the
    market RESOLVED with the chosen option and the payouts it has written for
    the winning bets add up to at most the pool. *)
Theorem payouts_never_exceed_pool (s : Db) (predictionId correctOptionId : Id)
    (prediction : Prediction.t) (correctOption : PredictionOption.t) :
  consistent s ->
  predictions s !! predictionId = Some prediction ->
  options s !! correctOptionId = Some correctOption ->
  (exists payouts,
     Forall2 (fun b payout =>
                payoutOf (Bet.amount b) (oddsForWinners prediction correctOption) = Some payout)
       (filter (winning predictionId correctOptionId) (bets s)) payouts
     /\ (sumZ payouts <= Prediction.totalPool prediction)%Z)
  /\ forall s',
       resolveTx predictionId correctOptionId s = inr (tt, s') ->
       exists p,
         predictions s' !! predictionId = Some p
         /\ Prediction.status p = RESOLVED
         /\ Prediction.correctOptionId p = Some correctOptionId
         /\ (totalPayout predictionId correctOptionId s' <= Prediction.totalPool p)%Z.
Proof.
  intros [Ha Hp Hc] Hp0 Ho. split.
  - destruct (Hc correctOptionId correctOption Ho) as [Ecoins Hcoins].
    apply computed_payouts_bound.
    + apply Forall_forall. intros b Hin. apply list_elem_of_filter in Hin as [_ Hin].
      exact (proj1 (Forall_forall _ _) Ha b Hin).
    + exact (Forall_lookup_1 _ _ _ _ Hp Hp0).
    + exact Hcoins.
    + rewrite Ecoins. unfold stakedOn. apply sum_filter_le.
      * intros b [_ Hw]. exact Hw.
      * eapply Forall_impl; [exact Ha|]. cbn. lia.
  - intros s' H.
    destruct (resolveTx_totalPayout _ _ _ _ H) as [_ Epay].
    apply resolveTx_tables in H as (_ & p1 & Hp1 & Hpred).
    pose proof (eq_trans (eq_sym Hp0) Hp1) as E. injection E as <-.
    eexists. split.
    { rewrite Hpred. apply list_lookup_insert_eq. eapply lookup_lt_Some; exact Hp0. }
    split; [reflexivity|]. split; [reflexivity|]. cbn [Prediction.totalPool].
    rewrite Epay. exact (proj1 (Forall_lookup_1 _ _ _ _ Hp Hp0)).
Qed.


(** The two unit tests of [validateBet]. *)
Example validateBet_rejects_bet_exceeding_balance :
  validateBet 1000 500 ACTIVE = Some InsufficientBalance.
Proof. reflexivity. Qed.

Example validateBet_rejects_bet_on_ended_prediction :
  validateBet 100 500 RESOLVED = Some PredictionHasEnded.
Proof. reflexivity. Qed.

(** C5: when the account's balance is below the wager amount, placing the bet
    fails and the database is exactly as before; with the market ACTIVE and
    the amount positive, the failure is 'Insufficient balance'. *)
Theorem placeBet_insufficient_balance (s : Db) (userId predictionId optionId : Id)
    (betAmount : Z) (currentOdds : JS.number) (user : User.t) :
  users s !! userId = Some user ->
  (User.coinBalance user < betAmount)%Z ->
  let result := transaction (placeBet userId predictionId optionId betAmount currentOdds) s in
  result.1 = s
  /\ (exists e, result.2 = inl e)
  /\ (forall p, predictions s !! predictionId = Some p -> Prediction.status p = ACTIVE ->
      (0 < betAmount)%Z -> result.2 = inl InsufficientBalance).
Proof.
  intros Hu Hlt. cbn. unfold transaction, placeBet. rewrite Hu.
  destruct (predictions s !! predictionId) as [p|]; cbn.
  - unfold validateBet.
    destruct (bool_decide_reflect (Prediction.status p = ACTIVE)) as [Hact | Hact]; cbn.
    + destruct (Z.leb_spec betAmount 0) as [Hle | Hgt]; cbn.
      * split; [reflexivity|]. split; [eauto|]. intros q [= <-] _ Hpos. lia.
      * destruct (Z.ltb_spec (User.coinBalance user) betAmount) as [_ | Hge]; [|lia].
        cbn. split; [reflexivity|]. split; [eauto|]. reflexivity.
    + split; [reflexivity|]. split; [eauto|]. intros q [= <-] Hq. contradiction.
  - split; [reflexivity|]. split; [eauto|]. intros q [=].
Qed.

(** C6: from a state without negative balances, stakes, pools or option
    totals, no sequence of place-bet, resolve and cancel requests leaves an
    account with a negative balance. *)
Theorem balance_never_negative (s : Db) (ops : list Op) :
  nonneg_state s ->
  forall userId user, users (run s ops) !! userId = Some user -> (0 <= User.coinBalance user)%Z.
Proof.
  intros Hs userId user Hu.
  exact (Forall_lookup_1 _ _ _ _ (balance_nonneg _ (run_nonneg ops s Hs)) Hu).
Qed.

(** The balance check is the validation's: the transaction by itself debits
    whatever it is given. *)
Example placeBetTx_without_validation :
  exists id s', placeBetTx 1 0 0 2000 JS.lit_1_0 db0 = inr (id, s')
                /\ User.coinBalance <$> users s' !! 1 = Some (-1000)%Z.
Proof. eexists _, _. split; [vm_compute; reflexivity | reflexivity]. Qed.

(** The first unit test of [calculateOdds]: 1000 / 300 is 3.33 to two places;
    and the odds of Scenario A. *)
Example odds_binary_prediction :
  JS.floor (JS.mul (odds 1000 300) (JS.ofInt 100)) = Some 333%Z
  /\ odds 400 100 = JS.ofInt 4.
Proof. split; reflexivity. Qed.

(** C7, at the input where the code departs from it: for an option nobody has
    bet on, the odds the code computes are [totalPool / 0], which is
    [Infinity] (and [NaN] when the pool is empty too), where the claim and the
    unit test of [calculateOdds] say 1.0. *)
Theorem odds_without_coins_not_one :
  oddsAfterBet (newPrediction 0) 1 (newOption 0) 0 100 = S754_infinity false
  /\ odds 0 0 = S754_nan
  /\ oddsForWinners (Prediction.mk 0 LOCKED None 100 1) (newOption 0) = S754_infinity false
  /\ S754_infinity false <> JS.lit_1_0
  /\ S754_nan <> JS.lit_1_0.
Proof. repeat split; try reflexivity; discriminate. Qed.

Lemma pool_consistent_db0 : pool_consistent db0.
Proof.
  intros [| [| pid]] p H; cbn in H; [injection H as <-; reflexivity.. | discriminate].
Defined.

(** C8, at the input where the code departs from it: the place-bet
    transaction never checks that [optionId] is an option of [predictionId]
    (nor does step 7, which validates the balance, the status and the
    amount), and the foreign keys of Bet ask only that both rows exist.  A
    bet of 200 on prediction 0 naming option 2, which belongs to prediction
    1, commits; the pool of prediction 0 becomes 200 while its own options
    still hold 0 coins. *)
Theorem placeBet_foreign_option_breaks_pool :
  pool_consistent db0
  /\ PredictionOption.predictionId <$> options db0 !! 2 = Some 1
  /\ exists s',
       transaction (placeBetTx 1 0 2 200 JS.lit_1_0) db0 = (s', inr 0)
       /\ Prediction.totalPool <$> predictions s' !! 0 = Some 200%Z
       /\ optionCoins 0 s' = 0%Z
       /\ PredictionOption.totalCoins <$> options s' !! 2 = Some 200%Z
       /\ ~ pool_consistent s'.
Proof.
  split; [exact pool_consistent_db0|]. split; [reflexivity|].
  eexists. split; [vm_compute; reflexivity|].
  split; [reflexivity|]. split; [reflexivity|]. split; [reflexivity|].
  intros H. specialize (H 0 (Prediction.mk 0 ACTIVE None 200 1) eq_refl).
  vm_compute in H. discriminate.
Qed.

(** Every request keeps every market's options adding up to its pool, provided
    a placed bet names an option of the prediction it is placed on. *)
Lemma pool_consistent_preserved (s : Db) (op : Op) :
  pool_consistent s ->
  (forall u p o a k opt, op = OpPlaceBet u p o a k ->
     options s !! o = Some opt -> PredictionOption.predictionId opt = p) ->
  pool_consistent (step s op).
Proof.
  intros Hs Hop. destruct op as [u p o a k | p c | p]; cbn; unfold transaction.
  - destruct (placeBet u p o a k s) as [e | [id s']] eqn:E; cbn; [assumption|].
    apply placeBet_inr in E as (user & prediction & _ & _ & _ & _ & E).
    pose proof E as E'.
    apply placeBetTx_inr in E' as (_ & _ & opt & _ & _ & Ho & _).
    exact (placeBetTx_pool_consistent _ _ _ _ _ _ _ _ opt Ho
             (Hop u p o a k opt eq_refl Ho) E Hs).
  - destruct (resolveTx p c s) as [e | [[] s']] eqn:E; cbn; [assumption|].
    apply resolveTx_tables in E as (Ho & p0 & Hp0 & Hp).
    exact (pool_consistent_status s s' p p0 _ Ho Hp0 Hp eq_refl Hs).
  - destruct (cancelTx p s) as [e | [[] s']] eqn:E; cbn; [assumption|].
    apply cancelTx_tables in E as (Ho & p0 & Hp0 & Hp).
    exact (pool_consistent_status s s' p p0 _ Ho Hp0 Hp eq_refl Hs).
Qed.

(** Every row the place-bet transaction writes satisfies
    [balanceAfter = balanceBefore + amount]. *)
Lemma placeBetTx_entry_consistent (userId predictionId optionId : Id) (betAmount : Z)
    (k : JS.number) (s s' : Db) (id : Id) :
  placeBetTx userId predictionId optionId betAmount k s = inr (id, s') ->
  exists t, transactions s' = transactions s ++ [t]
            /\ entry_consistent t /\ Transaction.betId t = Some id.
Proof.
  intros H. apply placeBetTx_inr in H as (u & p & o & _ & _ & _ & -> & _ & _ & _ & _ & ->).
  eexists. split; [reflexivity|]. split; [|reflexivity].
  unfold entry_consistent. cbn. lia.
Qed.

(** ** The unique constraint *)

Lemma references_true (log : list Transaction.t) (b : Id) :
  references log b = true <-> exists i t, log !! i = Some t /\ Transaction.betId t = Some b.
Proof.
  unfold references. rewrite bool_decide_eq_true, Exists_exists. split.
  - intros (t & Hin & Hb). apply list_elem_of_lookup in Hin as [i Hi]. eauto.
  - intros (i & t & Hi & Hb). exists t. split; [|assumption].
    apply list_elem_of_lookup. eauto.
Qed.

Lemma betId_unique_snoc (log : list Transaction.t) (row : Transaction.t) :
  betId_unique log ->
  (forall b, Transaction.betId row = Some b -> references log b = false) ->
  betId_unique (log ++ [row]).
Proof.
  intros Hlog Hfresh i j t u b Hi Hj Ht Hu.
  assert (Hnot : forall n x, log !! n = Some x -> Transaction.betId x = Some b ->
                             Transaction.betId row = Some b -> False).
  { intros n x Hn Hx Hrow. specialize (Hfresh b Hrow).
    assert (references log b = true) by (apply references_true; eauto). congruence. }
  apply lookup_app_Some in Hi as [Hi | [Hi Hi']];
    apply lookup_app_Some in Hj as [Hj | [Hj Hj']].
  - exact (Hlog i j t u b Hi Hj Ht Hu).
  - apply list_lookup_singleton_Some in Hj' as [_ <-]. exfalso. eauto.
  - apply list_lookup_singleton_Some in Hi' as [_ <-]. exfalso. eauto.
  - apply list_lookup_singleton_Some in Hi' as [Hi' _].
    apply list_lookup_singleton_Some in Hj' as [Hj' _]. lia.
Qed.

(** Every committed transaction keeps the ledger free of two rows for one
    bet: a bet appends the first row that references it, and a resolution or
    a cancellation that commits appends no row. *)
Lemma history_betId_unique (s s' : Db) :
  betId_unique (transactions s) -> history s s' -> betId_unique (transactions s').
Proof.
  intros Hs Hh. induction Hh as [s | s s1 s2 Hh IH Hc]; [exact Hs|].
  specialize (IH Hs). destruct Hc as [u p o a k id t t' Ha E | p c t t' E | p t t' E].
  - pose proof (placeBetTx_fresh _ _ _ _ _ _ _ _ E) as Hfresh.
    apply placeBetTx_inr in E as (u0 & p0 & o0 & _ & _ & _ & -> & _ & _ & _ & _ & ->).
    cbn [transactions]. apply betId_unique_snoc; [exact IH|].
    intros b [= <-]. exact Hfresh.
  - destruct (resolveTx_accounts _ _ _ _ E)
      as (p0 & o & reward & _ & _ & _ & _ & _ & _ & -> & _).
    exact IH.
  - apply cancelTx_inr in E as (_ & p0 & _ & ->). exact IH.
Qed.

(** Every committed transaction keeps [balanceAfter = balanceBefore + amount]
    on every row of the ledger. *)
Lemma history_entry_consistent (s s' : Db) :
  Forall entry_consistent (transactions s) -> history s s' ->
  Forall entry_consistent (transactions s').
Proof.
  intros Hs Hh. induction Hh as [s | s s1 s2 Hh IH Hc]; [exact Hs|].
  specialize (IH Hs). destruct Hc as [u p o a k id t t' Ha E | p c t t' E | p t t' E].
  - apply placeBetTx_entry_consistent in E as (row & -> & Hrow & _).
    apply Forall_app. split; [exact IH | repeat constructor; exact Hrow].
  - destruct (resolveTx_accounts _ _ _ _ E)
      as (p0 & o & reward & _ & _ & _ & _ & _ & _ & -> & _).
    exact IH.
  - apply cancelTx_inr in E as (_ & p0 & _ & ->). exact IH.
Qed.

(** The insert of a row whose bet a stored row already references throws; it
    is the unique index that refuses it when the data are complete. *)
Lemma transaction_create_referenced (credit debit : Transaction.t) (b : Id) (s : Db) :
  debit ∈ transactions s -> Transaction.betId debit = Some b ->
  Transaction.betId credit = Some b ->
  exists e,
    transaction_create credit s = inl e
    /\ (forall before after,
          Transaction.balanceBefore credit = Some before ->
          Transaction.balanceAfter credit = Some after ->
          int4 (Transaction.amount credit) = true -> int4 before = true ->
          int4 after = true -> e = UniqueConstraintFailed).
Proof.
  intros Hin Hp Hc.
  assert (Href : references (transactions s) b = true).
  { apply references_true. apply list_elem_of_lookup in Hin as [i Hi]. eauto. }
  unfold transaction_create, create, transaction_refused. rewrite Hc, Href.
  destruct (Transaction.balanceBefore credit) as [before|];
    [|eexists; split; [reflexivity | intros ? ? [=]]].
  destruct (Transaction.balanceAfter credit) as [after|];
    [|eexists; split; [reflexivity | intros ? ? _ [=]]].
  destruct (int4 (Transaction.amount credit) && int4 before && int4 after) eqn:V; cbn.
  - eexists. split; [reflexivity|]. reflexivity.
  - eexists. split; [reflexivity|]. intros ? ? [= <-] [= <-] Va Vb Vc.
    rewrite Va, Vb, Vc in V. discriminate.
Qed.

(** C10: at most one ledger row references a bet.  Whatever transactions
    commit, from a ledger without two rows for one bet, the ledger has no two
    rows for one bet; and once a row references a bet (the BET_PLACED debit),
    the insert of any further row with that [betId] (the BET_WON credit, the
    BET_REFUNDED credit) throws: the unique index on [betId] refuses it when
    the data are complete. *)
Theorem betId_referenced_at_most_once (s s' : Db) :
  betId_unique (transactions s) -> history s s' ->
  betId_unique (transactions s')
  /\ forall debit credit b,
       debit ∈ transactions s' -> Transaction.betId debit = Some b ->
       Transaction.betId credit = Some b ->
       exists e,
         transaction_create credit s' = inl e
         /\ (forall before after,
               Transaction.balanceBefore credit = Some before ->
               Transaction.balanceAfter credit = Some after ->
               int4 (Transaction.amount credit) = true -> int4 before = true ->
               int4 after = true -> e = UniqueConstraintFailed).
Proof.
  intros Hs Hh. split; [exact (history_betId_unique s s' Hs Hh)|].
  intros debit credit b Hin Hd Hc.
  exact (transaction_create_referenced credit debit b _ Hin Hd Hc).
Qed.

(* ===================================================================== *)
(** * Further properties of the transactions *)
(* ===================================================================== *)

Local Open Scope Z_scope.

(** ** The numbers *)

(** X1: the creator reward [Math.floor(prediction.totalPool * 0.05)] is the
    twentieth of the pool rounded down, for every pool an [Int] column can
    hold: the binary64 literal 0.05 and the rounding of the product never
    cost or add a coin. *)
Theorem creatorReward_is_twentieth (totalPool : Z) :
  0 <= totalPool < 2 ^ 31 -> creatorReward totalPool = Some (totalPool / 20).
Proof. exact (creatorReward_exact totalPool). Qed.

Lemma creatorReward_is_twentieth_witness :
  0 <= 2147483647 < 2 ^ 31 /\ creatorReward 2147483647 = Some 107374182.
Proof.
  split; [lia|]. exact (creatorReward_is_twentieth 2147483647 ltac:(lia)).
Defined.

(** X2: when the pool is an exact multiple [k] of the coins on the winning
    option, [oddsForWinners] is exactly [k] and
    [Math.floor(bet.amount * oddsForWinners)] is exactly [amount * k], as
    long as that product fits the 53 bits of a number; with all coins on the
    winning option ([k = 1]) every winner gets the stake back, to the coin. *)
Theorem payout_exact_for_whole_odds (prediction : Prediction.t)
    (correctOption : PredictionOption.t) (amount k : Z) :
  0 < amount -> 0 < k -> 0 < PredictionOption.totalCoins correctOption ->
  Prediction.totalPool prediction = k * PredictionOption.totalCoins correctOption ->
  Prediction.totalPool prediction < 2 ^ 31 -> amount * k < 2 ^ 53 ->
  oddsForWinners prediction correctOption = JS.ofInt k
  /\ payoutOf amount (oddsForWinners prediction correctOption) = Some (amount * k).
Proof.
  intros Ha Hk Hc E Hp H2. unfold oddsForWinners. rewrite E in *.
  assert (H1 : k * PredictionOption.totalCoins correctOption < 2 ^ 53).
  { apply Z.lt_trans with (2 ^ 31); [exact Hp | reflexivity]. }
  exact (payoutOf_multiple amount k _ Ha Hk Hc H1 H2).
Qed.

Lemma payout_exact_for_whole_odds_witness :
  let prediction := Prediction.mk 0%nat LOCKED None 400 2 in
  let correctOption := PredictionOption.mk 0%nat 1 100 in
  oddsForWinners prediction correctOption = JS.ofInt 4
  /\ payoutOf 100 (oddsForWinners prediction correctOption) = Some (100 * 4).
Proof.
  exact (payout_exact_for_whole_odds (Prediction.mk 0%nat LOCKED None 400 2)
           (PredictionOption.mk 0%nat 1 100) 100 4
           ltac:(lia) ltac:(lia) ltac:(cbn; lia) ltac:(reflexivity) ltac:(cbn; lia) ltac:(lia)).
Defined.

(** X3: for stakes and pools whose product is below 2^50, the payout
    [Math.floor(bet.amount * (totalPool / totalCoins))] is the exact quotient
    [amount * totalPool / totalCoins] rounded down, or exactly one coin less;
    it is never more. *)
Theorem payout_floor_or_one_less (amount totalPool totalCoins : Z) :
  0 < amount < 2 ^ 31 -> 0 < totalPool < 2 ^ 31 -> 0 < totalCoins < 2 ^ 31 ->
  amount * totalPool < 2 ^ 50 ->
  exists payout,
    payoutOf amount (odds totalPool totalCoins) = Some payout
    /\ amount * totalPool / totalCoins - 1 <= payout <= amount * totalPool / totalCoins.
Proof. exact (payoutOf_within_one amount totalPool totalCoins). Qed.

Lemma payout_floor_or_one_less_witness :
  0 < 7 < 2 ^ 31 /\ 0 < 61 < 2 ^ 31 /\ 0 < 7 < 2 ^ 31 /\ 7 * 61 < 2 ^ 50
  /\ exists payout,
       payoutOf 7 (odds 61 7) = Some payout /\ 7 * 61 / 7 - 1 <= payout <= 7 * 61 / 7.
Proof.
  repeat (split; [lia|]).
  exact (payout_floor_or_one_less 7 61 7 ltac:(lia) ltac:(lia) ltac:(lia) ltac:(lia)).
Defined.

(** ** The resolution transaction *)

(** X6: a committed resolution settles every bet of the prediction as LOST,
    whatever its status was, keeps its stake and its payout column, and
    leaves alone the bets of other predictions, every option row and every
    pool total; none of the bets of the prediction names the correct
    option. *)
Theorem resolve_settles_only_its_bets (s s' : Db) (predictionId correctOptionId : Id) :
  resolveTx predictionId correctOptionId s = inr (tt, s') ->
  options s' = options s
  /\ Prediction.totalPool <$> predictions s' = Prediction.totalPool <$> predictions s
  /\ forall i b, bets s !! i = Some b ->
       (Bet.predictionId b = predictionId -> Bet.optionId b <> correctOptionId)
       /\ bets s' !! i
          = Some (if decide (Bet.predictionId b = predictionId) then lostRow b else b).
Proof.
  intros H. pose proof (resolveTx_no_winner _ _ _ _ H) as Hnone.
  pose proof (resolveTx_bets _ _ _ _ H) as Hb.
  apply resolveTx_tables in H as (Hopt & p1 & Hp1 & Hpred).
  split; [exact Hopt|]. split.
  - rewrite Hpred, list_fmap_insert. apply list_insert_id.
    rewrite list_lookup_fmap. exact (f_equal (fmap Prediction.totalPool) Hp1).
  - intros i b Hi. pose proof (Forall_lookup_1 _ _ _ _ Hnone Hi) as Hnw. cbn in Hnw.
    unfold winning in Hnw. split; [tauto|].
    rewrite Hb, list_lookup_fmap, Hi. reflexivity.
Qed.

(** X7: a committed resolution notifies every bettor of the prediction once
    per bet that the bet is lost, in the order in which the query returned
    the bets; nobody else is notified and nobody is told of a win. *)
Theorem resolve_notifies_every_bet (s s' : Db) (predictionId correctOptionId : Id) :
  resolveTx predictionId correctOptionId s = inr (tt, s') ->
  exists sent,
    notifications s' = notifications s ++ sent
    /\ sent ≡ₚ (fun b => Notification.mk (Bet.userId b) NOTIFY_BET_LOST)
                <$> filter (fun b => Bet.predictionId b = predictionId) (bets s).
Proof.
  intros H. pose proof (resolveTx_no_winner _ _ _ _ H) as Hnone.
  destruct (resolveTx_accounts _ _ _ _ H)
    as (p0 & o & reward & _ & _ & _ & _ & _ & _ & _ & sent & Hno & Hsent).
  exists sent. split; [exact Hno|]. rewrite Hsent.
  rewrite (filter_iff_Forall (losing predictionId correctOptionId)
             (fun b => Bet.predictionId b = predictionId) (bets s)); [reflexivity|].
  eapply Forall_impl; [exact Hnone|]. unfold winning, losing. cbn. tauto.
Qed.

(** X8: a resolution in favour of an option that a bet of the prediction
    names never commits: the [transaction.create] of the winner's loop leaves
    out the required [balanceBefore] and [balanceAfter], so the loop throws at
    its first bet at the latest, and the database is as it was: nobody is
    paid and the prediction is not RESOLVED. *)
Theorem resolve_with_winner_rolls_back (s : Db) (predictionId correctOptionId : Id)
    (bet : Bet.t) :
  bet ∈ bets s -> winning predictionId correctOptionId bet ->
  exists e, transaction (resolveTx predictionId correctOptionId) s = (s, inl e).
Proof.
  intros Hin Hw. unfold transaction.
  destruct (resolveTx predictionId correctOptionId s) as [e | [[] s']] eqn:E;
    [exists e; reflexivity|].
  exfalso. apply resolveTx_no_winner in E.
  exact (proj1 (Forall_forall _ _) E bet Hin Hw).
Qed.

(** X9: the edge case "No bets placed": resolving a prediction that has no
    bets and an empty pool commits and changes the prediction row alone
    (status RESOLVED, the chosen option); no balance moves, nothing is
    notified or logged.  The odds the code computes here are 0 / 0, which it
    never uses, and the creator reward is 0. *)
Theorem resolve_without_bets (s : Db) (predictionId correctOptionId : Id)
    (p0 : Prediction.t) (o : PredictionOption.t) (creator : User.t) :
  predictions s !! predictionId = Some p0 ->
  Prediction.valid p0 = true -> Prediction.totalPool p0 = 0 ->
  options s !! correctOptionId = Some o ->
  users s !! Prediction.creatorId p0 = Some creator -> User.valid creator = true ->
  Forall (fun b => Bet.predictionId b <> predictionId) (bets s) ->
  resolveTx predictionId correctOptionId s
  = inr (tt, set_predictions
               (fun t => <[predictionId := resolvedPrediction correctOptionId p0]> t) s).
Proof.
  intros Hp0 Vp Hpool Ho Hu Vu Hnone.
  assert (Hrows : filter (fun b : Id * Bet.t => Bet.predictionId b.2 = predictionId)
                    (rows (bets s)) = []).
  { apply filter_none, Forall_forall. intros [i b] Hin.
    apply elem_of_rows in Hin. cbn.
    exact (Forall_lookup_1 _ _ _ _ Hnone Hin). }
  unfold resolveTx, bind, prediction_update, update. rewrite Hp0.
  assert (Vp' : Prediction.valid
                  (Prediction.mk (Prediction.creatorId p0) RESOLVED (Some correctOptionId)
                     (Prediction.totalPool p0) (Prediction.totalBets p0)) = true) by exact Vp.
  rewrite Vp'. unfold bet_findMany. cbn [bets set_predictions]. rewrite Hrows, rowOrder_nil.
  unfold findUnique. cbn [options set_predictions].
  change (options s !! correctOptionId) with (@lookup _ _ _ _ correctOptionId (options s)).
  rewrite Ho. cbn [notNull ret filter list_filter forEach].
  cbn [Prediction.totalPool Prediction.creatorId]. rewrite Hpool.
  change (creatorReward 0) with (Some 0). cbn [asInt ret].
  unfold user_update, update. cbn [users set_predictions]. rewrite Hu.
  assert (Eu : User.mk (User.coinBalance creator + 0) (User.totalBets creator)
                       (User.totalWins creator) (User.totalLosses creator) = creator).
  { destruct creator. cbn. rewrite Z.add_0_r. reflexivity. }
  rewrite Eu, Vu. unfold ret. do 2 f_equal.
  unfold set_users, set_predictions. cbn. f_equal.
  - exact (list_insert_id _ _ _ Hu).
  - unfold resolvedPrediction. rewrite Hpool. reflexivity.
Qed.

(** X10: resolving with an option id that has no row fails after the
    prediction was already marked RESOLVED inside the transaction
    ([correctOption] is [null] and the code reads [correctOption.totalCoins]);
    the transaction rolls back, so the prediction is left unresolved and
    nothing is paid. *)
Theorem resolve_unknown_option_rolls_back (s : Db) (predictionId correctOptionId : Id)
    (p0 : Prediction.t) :
  predictions s !! predictionId = Some p0 -> Prediction.valid p0 = true ->
  options s !! correctOptionId = None ->
  transaction (resolveTx predictionId correctOptionId) s = (s, inl NullDereference).
Proof.
  intros Hp0 Vp Ho.
  unfold transaction, resolveTx, bind, prediction_update, update. rewrite Hp0.
  assert (Vp' : Prediction.valid
                  (Prediction.mk (Prediction.creatorId p0) RESOLVED (Some correctOptionId)
                     (Prediction.totalPool p0) (Prediction.totalBets p0)) = true) by exact Vp.
  rewrite Vp'. unfold bet_findMany, findUnique. cbn [options set_predictions].
  change (options s !! correctOptionId) with (@lookup _ _ _ _ correctOptionId (options s)).
  rewrite Ho. reflexivity.
Qed.

(** ** The cancellation transaction *)

(** X11: a cancellation of a prediction that has a bet never commits: the
    [transaction.create] of the refund leaves out the required
    [balanceBefore] and [balanceAfter], so the loop throws at its first bet at
    the latest, and the database is as it was: no stake is refunded and the
    prediction is not CANCELLED. *)
Theorem cancel_with_bets_rolls_back (s : Db) (predictionId : Id) (bet : Bet.t) :
  bet ∈ bets s -> Bet.predictionId bet = predictionId ->
  exists e, transaction (cancelTx predictionId) s = (s, inl e).
Proof.
  intros Hin Hp. unfold transaction.
  destruct (cancelTx predictionId s) as [e | [[] s']] eqn:E; [exists e; reflexivity|].
  exfalso. apply cancelTx_inr in E as (Hnone & _).
  exact (proj1 (Forall_forall _ _) Hnone bet Hin Hp).
Qed.

(** X12: a cancellation commits exactly when no bet was placed on the
    prediction, and then it changes the status of the prediction row and
    nothing else: no balance, no bet, no ledger row, no notification. *)
Theorem cancel_without_bets (s : Db) (predictionId : Id) (p0 : Prediction.t) :
  predictions s !! predictionId = Some p0 -> Prediction.valid p0 = true ->
  let cancelled :=
    set_predictions
      (fun t => <[predictionId :=
         Prediction.mk (Prediction.creatorId p0) CANCELLED (Prediction.correctOptionId p0)
           (Prediction.totalPool p0) (Prediction.totalBets p0)]> t) s in
  (Forall (fun b => Bet.predictionId b <> predictionId) (bets s) ->
   cancelTx predictionId s = inr (tt, cancelled))
  /\ (forall s', cancelTx predictionId s = inr (tt, s') ->
        Forall (fun b => Bet.predictionId b <> predictionId) (bets s) /\ s' = cancelled).
Proof.
  intros Hp0 Vp. cbn zeta. split.
  - intros Hnone.
    assert (Hrows : filter (fun b : Id * Bet.t => Bet.predictionId b.2 = predictionId)
                      (rows (bets s)) = []).
    { apply filter_none, Forall_forall. intros [i b] Hin.
      apply elem_of_rows in Hin. cbn.
      exact (Forall_lookup_1 _ _ _ _ Hnone Hin). }
    unfold cancelTx, bind, bet_findMany. rewrite Hrows, rowOrder_nil.
    cbn [forEach ret]. unfold prediction_update, update. rewrite Hp0.
    assert (Vp' : Prediction.valid
                    (Prediction.mk (Prediction.creatorId p0) CANCELLED
                       (Prediction.correctOptionId p0)
                       (Prediction.totalPool p0) (Prediction.totalBets p0)) = true) by exact Vp.
    rewrite Vp'. reflexivity.
  - intros s' H. apply cancelTx_inr in H as (Hnone & p1 & Hp1 & ->).
    split; [exact Hnone|].
    pose proof (eq_trans (eq_sym Hp0) Hp1) as E. injection E as <-. reflexivity.
Qed.

(** ** The betting transaction *)

(** X14: a committed bet moves its amount from the account to the pool: the
    balances lose exactly the amount the pools gain, so accounts and pools
    together hold as many coins as before; the bet row is appended, PENDING,
    and its key is returned. *)
Theorem placeBetTx_moves_coins_to_pool (s s' : Db) (userId predictionId optionId : Id)
    (betAmount : Z) (currentOdds : JS.number) (id : Id) :
  placeBetTx userId predictionId optionId betAmount currentOdds s = inr (id, s') ->
  totalBalance s' = totalBalance s - betAmount
  /\ totalPools s' = totalPools s + betAmount
  /\ bets s' = bets s ++ [Bet.mk userId predictionId optionId betAmount currentOdds PENDING 0]
  /\ bets s' !! id = Some (Bet.mk userId predictionId optionId betAmount currentOdds PENDING 0).
Proof.
  intros H.
  apply placeBetTx_inr in H as (u & p & o & Hu & Hpr & Ho & -> & _ & _ & _ & _ & ->).
  cbn [bets]. unfold totalBalance, totalPools. cbn [users predictions].
  split; [|split; [|split]].
  - rewrite balances_insert, (sumZ_insert _ _ (User.coinBalance u)).
    + cbn. lia.
    + rewrite list_lookup_fmap. exact (f_equal (fmap User.coinBalance) Hu).
  - rewrite list_fmap_insert, (sumZ_insert _ _ (Prediction.totalPool p)).
    + cbn. lia.
    + rewrite list_lookup_fmap. exact (f_equal (fmap Prediction.totalPool) Hpr).
  - reflexivity.
  - rewrite lookup_app_r by lia. rewrite Nat.sub_diag. reflexivity.
Qed.

Lemma placeBetTx_moves_coins_to_pool_witness :
  exists id s',
    placeBetTx 1%nat 1%nat 2%nat 250 JS.lit_1_0 scenarioA = inr (id, s')
    /\ totalBalance s' = totalBalance scenarioA - 250
    /\ totalPools s' = totalPools scenarioA + 250
    /\ bets s' = bets scenarioA ++ [Bet.mk 1%nat 1%nat 2%nat 250 JS.lit_1_0 PENDING 0]
    /\ bets s' !! id = Some (Bet.mk 1%nat 1%nat 2%nat 250 JS.lit_1_0 PENDING 0).
Proof.
  eexists _, _. split; [vm_compute; reflexivity|].
  apply (placeBetTx_moves_coins_to_pool scenarioA _ 1%nat 1%nat 2%nat 250 JS.lit_1_0).
  vm_compute. reflexivity.
Defined.

(** ** The client's optimistic update *)

(** X16: the roll-back of the optimistic update is exact: [onError], given
    the context [onMutate] returned, puts the query cache back as it was
    before [onMutate], whether or not the prediction was cached. *)
Theorem optimistic_update_rolls_back (cache : QueryCache) (predictionId optionId : Id)
    (amount : Z) :
  onError predictionId (Some (onMutate predictionId optionId amount cache).1)
          (onMutate predictionId optionId amount cache).2
  = cache.
Proof.
  unfold onMutate, onError. cbn [fst snd].
  destruct (cache !! predictionId) as [old |] eqn:E; cbv beta iota; [|reflexivity].
  exact (eq_trans (insert_insert_eq (M := gmap nat) cache predictionId old _)
                  (insert_id (M := gmap nat) cache predictionId old E)).
Qed.

(** X17: the optimistic update predicts the server.  If the cached entry
    mirrors the database and the bet commits, the optimistic entry has the
    pool, the number of bets and every option's coins that the database then
    has; it differs from the database in one field only, the bet counter of
    the chosen option, which the server increments and the hook leaves. *)
Theorem optimistic_update_matches_server (s s' : Db) (userId predictionId optionId : Id)
    (amount : Z) (currentOdds : JS.number) (id : Id) (cached : Cache.prediction) :
  placeBetTx userId predictionId optionId amount currentOdds s = inr (id, s') ->
  mirror s predictionId = Some cached ->
  mirror s' predictionId = Some (countBet optionId (optimisticUpdate optionId amount cached)).
Proof.
  intros H Hc.
  apply placeBetTx_inr in H as (u & p & o & Hu & Hpr & Ho & _ & _ & _ & _ & _ & ->).
  unfold mirror in *. cbn [predictions options].
  rewrite list_lookup_insert_eq by (eapply lookup_lt_Some; exact Hpr).
  rewrite Hpr in Hc. injection Hc as <-.
  unfold countBet, optimisticUpdate. cbn [Cache.totalPool Cache.totalBets Cache.options
    Prediction.totalPool Prediction.totalBets]. do 2 f_equal.
  rewrite rows_insert, filter_fmap_iff.
  - rewrite <- !list_fmap_compose. apply list_fmap_ext. intros n [i x] Hx.
    apply list_elem_of_lookup_2, list_elem_of_filter in Hx as [_ Hx].
    apply elem_of_rows in Hx. unfold compose. cbn [fst snd Cache.id].
    destruct (decide (i = optionId)) as [-> | Hne].
    + assert (x = o) by congruence. subst x. cbn [fst snd Cache.id].
      rewrite decide_True by reflexivity. reflexivity.
    + cbn [Cache.id]. rewrite decide_False by exact Hne. reflexivity.
  - intros [i x] Hx. apply elem_of_rows in Hx. cbn [fst snd].
    destruct (decide (i = optionId)) as [-> | Hne]; [|tauto].
    assert (x = o) by congruence. subst x. cbn. tauto.
Qed.

Lemma optimistic_update_matches_server_witness :
  exists id s' cached,
    placeBetTx 1%nat 0%nat 1%nat 50 JS.lit_1_0 scenarioA = inr (id, s')
    /\ mirror scenarioA 0%nat = Some cached
    /\ cached = Cache.mkPrediction 400 2 [Cache.mkOption 0%nat 100 1; Cache.mkOption 1%nat 300 1]
    /\ optimisticUpdate 1%nat 50 cached
       = Cache.mkPrediction 450 3 [Cache.mkOption 0%nat 100 1; Cache.mkOption 1%nat 350 1]
    /\ mirror s' 0%nat = Some (countBet 1%nat (optimisticUpdate 1%nat 50 cached)).
Proof.
  eexists _, _, _. split; [vm_compute; reflexivity|]. split; [vm_compute; reflexivity|].
  split; [reflexivity|]. split; [reflexivity|].
  eapply (optimistic_update_matches_server scenarioA _ 1%nat 0%nat 1%nat 50 JS.lit_1_0 2%nat).
  - vm_compute. reflexivity.
  - vm_compute. reflexivity.
Defined.

(** ** More on the betting transaction *)

(** X18: the ledger row of a committed bet is accurate: it is the one row
    appended, of type BET_PLACED, with the negated amount, the account's
    balance before the debit as [balanceBefore], the balance after it as
    [balanceAfter], and the key of the new bet. *)
Theorem placeBetTx_ledger_row (s s' : Db) (userId predictionId optionId : Id)
    (betAmount : Z) (currentOdds : JS.number) (id : Id) :
  placeBetTx userId predictionId optionId betAmount currentOdds s = inr (id, s') ->
  exists before after,
    balances s !! userId = Some before
    /\ balances s' !! userId = Some after
    /\ after = before - betAmount
    /\ transactions s'
       = transactions s
         ++ [Transaction.mk userId BET_PLACED (- betAmount) (Some before) (Some after)
               (Some id)]
    /\ bets s' !! id = Some (Bet.mk userId predictionId optionId betAmount currentOdds
                               PENDING 0).
Proof.
  intros H.
  apply placeBetTx_inr in H as (u & p & o & Hu & Hpr & Ho & -> & _ & _ & _ & _ & ->).
  exists (User.coinBalance u), (User.coinBalance u - betAmount).
  unfold balances. cbn [users transactions bets User.coinBalance].
  split; [rewrite list_lookup_fmap; exact (f_equal (fmap User.coinBalance) Hu)|].
  split.
  { rewrite balances_insert. apply list_lookup_insert_eq. rewrite length_fmap.
    eapply lookup_lt_Some; exact Hu. }
  split; [reflexivity|]. split.
  - do 3 f_equal. f_equal. lia.
  - rewrite lookup_app_r by lia. rewrite Nat.sub_diag. reflexivity.
Qed.

Lemma placeBetTx_ledger_row_witness :
  exists id s',
    placeBetTx 1%nat 1%nat 2%nat 250 JS.lit_1_0 scenarioA = inr (id, s')
    /\ transactions s'
       = transactions scenarioA
         ++ [Transaction.mk 1%nat BET_PLACED (-250) (Some 900) (Some 650) (Some 2%nat)].
Proof.
  eexists _, _. split; [vm_compute; reflexivity|].
  destruct (placeBetTx_ledger_row scenarioA _ 1%nat 1%nat 2%nat 250 JS.lit_1_0 2%nat
              ltac:(vm_compute; reflexivity))
    as (before & after & Hb & Ha & _ & Htx & _).
  vm_compute in Hb, Ha. injection Hb as <-. injection Ha as <-. exact Htx.
Defined.

(** X19: a bet that would lift the pool above the largest [Int] never
    commits: the write of the prediction row is refused after the account was
    debited and the bet row created inside the transaction, the transaction
    fails, and the database is as it was. *)
Theorem placeBetTx_pool_overflow_rolls_back (s : Db) (userId predictionId optionId : Id)
    (betAmount : Z) (currentOdds : JS.number) (prediction : Prediction.t) :
  predictions s !! predictionId = Some prediction ->
  2147483647 < Prediction.totalPool prediction + betAmount ->
  exists e,
    transaction (placeBetTx userId predictionId optionId betAmount currentOdds) s
    = (s, inl e).
Proof.
  intros Hp Hover. unfold transaction.
  destruct (placeBetTx userId predictionId optionId betAmount currentOdds s)
    as [e | [id s']] eqn:E; [exists e; reflexivity|].
  exfalso. apply placeBetTx_inr in E
    as (u & p & o & _ & Hpr & _ & _ & _ & _ & Vp & _ & _).
  assert (p = prediction) by congruence. subst p.
  unfold Prediction.valid in Vp. cbn in Vp.
  apply andb_true_iff in Vp as [Vp _]. apply int4_range in Vp.
  change (2 ^ 31) with 2147483648 in Vp. lia.
Qed.

Lemma placeBetTx_pool_overflow_rolls_back_witness :
  let s := mkDb [User.mk 2147483647 0 0 0] [Prediction.mk 0%nat ACTIVE None 2147483000 9]
                [PredictionOption.mk 0%nat 9 2147483000] [] [] [] in
  transaction (placeBetTx 0%nat 0%nat 0%nat 648 JS.lit_1_0) s = (s, inl InvalidIntValue).
Proof.
  cbv zeta.
  destruct (placeBetTx_pool_overflow_rolls_back
           (mkDb [User.mk 2147483647 0 0 0] [Prediction.mk 0%nat ACTIVE None 2147483000 9]
                 [PredictionOption.mk 0%nat 9 2147483000] [] [] [])
           0%nat 0%nat 0%nat 648 JS.lit_1_0
           (Prediction.mk 0%nat ACTIVE None 2147483000 9)
           eq_refl ltac:(cbn; lia)) as [e He].
  rewrite He. vm_compute in He. injection He as <-. reflexivity.
Defined.

(** ** More on the resolution *)

(** X20: when no bet of the prediction names the correct option, a committed
    resolution pays nobody: every account keeps its balance except the
    creator, who receives the reward; all the staked coins are gone, no
    ledger row is written, and every bet of the prediction is LOST. *)
Theorem resolve_without_winners (s s' : Db) (predictionId correctOptionId : Id) :
  Forall (fun b => ~ winning predictionId correctOptionId b) (bets s) ->
  resolveTx predictionId correctOptionId s = inr (tt, s') ->
  exists p0 reward,
    predictions s !! predictionId = Some p0
    /\ creatorReward (Prediction.totalPool p0) = Some reward
    /\ (forall userId balance, balances s !! userId = Some balance ->
          balances s' !! userId
          = Some (balance + (if decide (userId = Prediction.creatorId p0) then reward else 0)))
    /\ totalBalance s' = totalBalance s + reward
    /\ transactions s' = transactions s
    /\ (forall i b, bets s !! i = Some b -> Bet.predictionId b = predictionId ->
          Bet.status <$> bets s' !! i = Some LOST).
Proof.
  intros Hnone H.
  pose proof (resolveTx_bets _ _ _ _ H) as Hb.
  destruct (resolveTx_accounts _ _ _ _ H)
    as (p0 & o & reward & Hp0 & Ho & Hrew & _ & Hper & Hsum & Htx & _).
  exists p0, reward. split; [exact Hp0|]. split; [exact Hrew|].
  split; [exact Hper|]. split; [|split].
  - unfold totalBalance. fold (balances s'). fold (balances s). exact Hsum.
  - exact Htx.
  - intros i b Hi Hp. rewrite Hb, list_lookup_fmap, Hi. cbn. f_equal.
    unfold resolvedRow. rewrite decide_True by exact Hp. reflexivity.
Qed.

(** ** An invariant of every history *)

(** X21: every committed transaction keeps the option totals in step with the
    bets.  From a state where each option's [totalCoins] is the sum of the
    stakes of the bets that name it (stakes positive, pools and totals within
    32 bits), any sequence of committed bets, resolutions and cancellations
    leads to such a state again: resolutions and cancellations change no
    stake and no total, and a bet adds its amount to both. *)
Theorem option_totals_track_the_stakes (s s' : Db) :
  consistent s -> history s s' -> consistent s'.
Proof. exact (history_consistent s s'). Qed.

(** X24: the potential payout shown for a bet is never below the amount of
    the bet: for an option that holds no more than the pool, the preview
    [Math.floor(betAmount * odds)], with the amount added to both, is at least
    [betAmount]. *)
Theorem potentialPayout_at_least_the_stake (prediction : Prediction.t) (optionId : Id)
    (option : PredictionOption.t) (betAmount : Z) :
  0 < betAmount ->
  0 <= PredictionOption.totalCoins option <= Prediction.totalPool prediction ->
  Prediction.totalPool prediction + betAmount < 2 ^ 31 ->
  exists payout,
    potentialPayout betAmount (oddsAfterBet prediction optionId option optionId betAmount)
    = Some payout
    /\ betAmount <= payout.
Proof.
  intros Ha Hc Hp. unfold potentialPayout, oddsAfterBet.
  rewrite decide_True by reflexivity.
  apply (payoutOf_ge_stake betAmount (Prediction.totalPool prediction + betAmount)
           (PredictionOption.totalCoins option + betAmount)); lia.
Qed.

Lemma potentialPayout_at_least_the_stake_witness :
  potentialPayout 7 (oddsAfterBet (Prediction.mk 0%nat ACTIVE None 54 1) 0%nat
                       (PredictionOption.mk 0%nat 0 0) 0%nat 7) = Some 60
  /\ exists payout,
       potentialPayout 7 (oddsAfterBet (Prediction.mk 0%nat ACTIVE None 54 1) 0%nat
                            (PredictionOption.mk 0%nat 0 0) 0%nat 7) = Some payout
       /\ 7 <= payout.
Proof.
  split; [reflexivity|].
  exact (potentialPayout_at_least_the_stake (Prediction.mk 0%nat ACTIVE None 54 1) 0%nat
           (PredictionOption.mk 0%nat 0 0) 7 ltac:(lia) ltac:(cbn; lia) ltac:(cbn; lia)).
Defined.

(** ** The statistics counters *)

(** X25: a committed resolution counts every bet of the prediction once as a
    loss in the statistics of its account: [totalLosses] grows by the number
    of the account's bets on the prediction, [totalWins] and [totalBets] stay
    as they were; the creator's reward touches no counter. *)
Theorem resolve_counts_losses (s s' : Db) (predictionId correctOptionId : Id) :
  resolveTx predictionId correctOptionId s = inr (tt, s') ->
  forall userId user, users s !! userId = Some user ->
    exists user', users s' !! userId = Some user'
      /\ User.totalWins user' = User.totalWins user
      /\ User.totalLosses user'
         = User.totalLosses user
           + countBets (fun b => Bet.userId b = userId /\ Bet.predictionId b = predictionId)
               (bets s)
      /\ User.totalBets user' = User.totalBets user.
Proof. exact (resolveTx_users predictionId correctOptionId s s'). Qed.

(** X27: the denormalised [totalBets] counters never drift from the Bet
    table.  From a state where every account's, prediction's and option's
    [totalBets] is the number of bets that name it, any sequence of committed
    bets, resolutions and cancellations leads to such a state again: a bet
    raises the three counters of the rows it names by one, and resolutions and
    cancellations neither add a bet nor touch a counter. *)
Theorem bet_counters_track_the_bets (s s' : Db) :
  counters_consistent s -> history s s' -> counters_consistent s'.
Proof. exact (history_counters s s'). Qed.

(** ** The ledger *)

(** X29: every row the ledger holds satisfies [balanceAfter = balanceBefore +
    amount], whatever transactions commit: the row a bet appends records the
    balance before and after its debit, and no resolution or cancellation
    that commits appends a row (one that would append a row without the two
    balances is refused and rolls back). *)
Theorem ledger_rows_consistent (s s' : Db) :
  Forall entry_consistent (transactions s) -> history s s' ->
  Forall entry_consistent (transactions s').
Proof. exact (history_entry_consistent s s'). Qed.

(** X28: a bet that names an account, a prediction or an option without a row
    never commits, and the database is as it was.  When it is the account
    that is missing, the first write, [tx.user.update], throws for the record
    it does not find; when the account exists and the debit and the bet are
    within the [Int] columns, it is the foreign keys of the new Bet row that
    [tx.bet.create] finds broken, after the account was debited inside the
    transaction. *)
Theorem placeBetTx_missing_row_rolls_back (s : Db) (userId predictionId optionId : Id)
    (betAmount : Z) (currentOdds : JS.number) :
  users s !! userId = None \/ predictions s !! predictionId = None
  \/ options s !! optionId = None ->
  exists e,
    transaction (placeBetTx userId predictionId optionId betAmount currentOdds) s
    = (s, inl e)
    /\ (users s !! userId = None -> e = RecordNotFound)
    /\ (forall user, users s !! userId = Some user ->
          int4 (User.coinBalance user - betAmount) = true ->
          int4 (User.totalBets user + 1) = true -> User.valid user = true ->
          int4 betAmount = true ->
          e = ForeignKeyConstraintFailed).
Proof.
  intros Hmiss. unfold transaction.
  destruct (placeBetTx userId predictionId optionId betAmount currentOdds s)
    as [e | [id s']] eqn:E.
  - exists e. split; [reflexivity|].
    unfold placeBetTx, bind, user_update, update in E. split.
    + intros Hu.
      change (users s !! userId) with (@lookup _ _ _ _ userId (users s)) in Hu.
      rewrite Hu in E. injection E as <-. reflexivity.
    + intros user Hu V1 V2 Vu Va.
      change (users s !! userId) with (@lookup _ _ _ _ userId (users s)) in Hu.
      rewrite Hu in E.
      assert (Vu' : User.valid (User.mk (User.coinBalance user - betAmount)
                                  (User.totalBets user + 1) (User.totalWins user)
                                  (User.totalLosses user)) = true).
      { unfold User.valid in *. cbn. rewrite V1, V2.
        apply andb_true_iff in Vu as [Vu ->]. apply andb_true_iff in Vu as [_ ->].
        reflexivity. }
      rewrite Vu' in E. unfold bet_create, create, bet_refused in E.
      assert (Vb : Bet.valid (Bet.mk userId predictionId optionId betAmount currentOdds
                                PENDING 0) = true).
      { unfold Bet.valid. cbn. rewrite Va. reflexivity. }
      rewrite Vb in E. cbn [negb Bet.userId Bet.predictionId Bet.optionId] in E.
      destruct (has_row _ _ && has_row _ _ && has_row _ _) eqn:Hrows in E.
      * exfalso. apply andb_true_iff in Hrows as [Hrows Hro].
        apply andb_true_iff in Hrows as [_ Hrp].
        apply has_row_true in Hrp as [p Hp]. apply has_row_true in Hro as [o Ho].
        cbn [predictions options set_users] in Hp, Ho.
        destruct Hmiss as [H | [H | H]].
        -- pose proof (eq_trans (eq_sym H) Hu) as X. discriminate X.
        -- pose proof (eq_trans (eq_sym H) Hp) as X. discriminate X.
        -- pose proof (eq_trans (eq_sym H) Ho) as X. discriminate X.
      * injection E as <-. reflexivity.
  - exfalso. apply placeBetTx_inr in E as (u & p & o & Hu & Hp & Ho & _).
    destruct Hmiss as [H | [H | H]].
    + pose proof (eq_trans (eq_sym H) Hu) as X. discriminate X.
    + pose proof (eq_trans (eq_sym H) Hp) as X. discriminate X.
    + pose proof (eq_trans (eq_sym H) Ho) as X. discriminate X.
Qed.

Lemma placeBetTx_missing_row_rolls_back_witness :
  options scenarioA !! 7%nat = None
  /\ transaction (placeBetTx 1%nat 0%nat 7%nat 50 JS.lit_1_0) scenarioA
     = (scenarioA, inl ForeignKeyConstraintFailed)
  /\ transaction (placeBetTx 9%nat 0%nat 0%nat 50 JS.lit_1_0) scenarioA
     = (scenarioA, inl RecordNotFound).
Proof.
  split; [reflexivity|]. split.
  - destruct (placeBetTx_missing_row_rolls_back scenarioA 1%nat 0%nat 7%nat 50 JS.lit_1_0
                (or_intror (or_intror eq_refl))) as (e & He & _ & Hfk).
    rewrite He. f_equal. f_equal.
    exact (Hfk (User.mk 900 1 0 0) eq_refl eq_refl eq_refl eq_refl eq_refl).
  - destruct (placeBetTx_missing_row_rolls_back scenarioA 9%nat 0%nat 0%nat 50 JS.lit_1_0
                (or_introl eq_refl)) as (e & He & Hnf & _).
    rewrite He. f_equal. f_equal. exact (Hnf eq_refl).
Defined.

End Order.

(* ===================================================================== *)
(** * Whatever the order of the rows *)
(* ===================================================================== *)

(** The resolution looks at the order of [findMany] through the rows of its
    prediction only. *)
Lemma resolveTx_ext (order1 order2 : RowOrder) (predictionId correctOptionId : Id) (s : Db) :
  order1 (filter (fun b : Id * Bet.t => Bet.predictionId b.2 = predictionId) (rows (bets s)))
  = order2 (filter (fun b : Id * Bet.t => Bet.predictionId b.2 = predictionId) (rows (bets s))) ->
  resolveTx order1 predictionId correctOptionId s
  = resolveTx order2 predictionId correctOptionId s.
Proof.
  intros E. unfold resolveTx, bind, prediction_update, update.
  destruct (predictions s !! predictionId) as [p|]; [|reflexivity].
  destruct (Prediction.valid _); [|reflexivity].
  unfold bet_findMany. cbn [bets set_predictions]. rewrite E. reflexivity.
Qed.

(** Two rows come back in key order or in the reverse of it. *)
Lemma resolveTx_two_rows (rowOrder : RowOrder) (predictionId correctOptionId : Id) (s : Db)
    (x y : Id * Bet.t) :
  filter (fun b : Id * Bet.t => Bet.predictionId b.2 = predictionId) (rows (bets s)) = [x; y] ->
  resolveTx rowOrder predictionId correctOptionId s
  = resolveTx keyOrder predictionId correctOptionId s
  \/ resolveTx rowOrder predictionId correctOptionId s
     = resolveTx reverseKeyOrder predictionId correctOptionId s.
Proof.
  intros E.
  destruct (Permutation_length_2_inv (Permutation_sym (arrange_perm rowOrder [x; y])))
    as [H | H]; [left | right]; apply resolveTx_ext; rewrite E; exact H.
Qed.

(* ===================================================================== *)
(** * The scenarios, whatever the order of the rows *)
(* ===================================================================== *)

(** The two bets of a scenario, as [findMany] finds them. *)
Lemma rows_scenario61 :
  filter (fun b : Id * Bet.t => Bet.predictionId b.2 = 0%nat) (rows (bets scenario61))
  = [(0%nat, Bet.mk 1%nat 0%nat 0%nat 7 JS.lit_1_0 PENDING 0);
     (1%nat, Bet.mk 2%nat 0%nat 1%nat 54 JS.lit_1_0 PENDING 0)].
Proof. reflexivity. Qed.

Lemma rows_scenarioAllOnB :
  filter (fun b : Id * Bet.t => Bet.predictionId b.2 = 0%nat) (rows (bets scenarioAllOnB))
  = [(0%nat, Bet.mk 1%nat 0%nat 1%nat 100 JS.lit_1_0 PENDING 0);
     (1%nat, Bet.mk 2%nat 0%nat 1%nat 300 JS.lit_1_0 PENDING 0)].
Proof. reflexivity. Qed.

Lemma resolve_scenarioAllOnB (rowOrder : RowOrder) :
  exists sent,
    resolveTx rowOrder 0%nat 0%nat scenarioAllOnB = inr (tt, resolvedOnce sent)
    /\ sent ≡ₚ [Notification.mk 1%nat NOTIFY_BET_LOST; Notification.mk 2%nat NOTIFY_BET_LOST].
Proof.
  destruct (resolveTx_two_rows rowOrder 0%nat 0%nat scenarioAllOnB _ _ rows_scenarioAllOnB)
    as [E | E]; rewrite E.
  - eexists. split; [vm_compute; reflexivity | reflexivity].
  - eexists. split; [vm_compute; reflexivity | apply Permutation_swap].
Qed.

Lemma resolve_resolvedOnce (rowOrder : RowOrder) (sent : list Notification.t) :
  exists n1 n2,
    resolveTx rowOrder 0%nat 0%nat (resolvedOnce sent)
    = inr (tt, mkDb [User.mk 1040 0 0 0; User.mk 900 1 0 2; User.mk 700 1 0 2]
                    (predictions (resolvedOnce sent)) (options (resolvedOnce sent))
                    (bets (resolvedOnce sent)) (transactions scenarioAllOnB)
                    ((sent ++ [n1]) ++ [n2])).
Proof.
  destruct (resolveTx_two_rows rowOrder 0%nat 0%nat (resolvedOnce sent) _ _ eq_refl)
    as [E | E]; rewrite E; eexists _, _; vm_compute; reflexivity.
Qed.

(* ===================================================================== *)
(** * The claims at their inputs *)
(* ===================================================================== *)

(** C1, at the input where the code departs from it: a pool of 61 with 7 coins
    on the winning option, and a winning bet of 7.  The claim's payout is
    [floor(7 * 61 / 7)] = 61; the code's [Math.floor(bet.amount *
    oddsForWinners)] is 60, the quotient 61 / 7 having been rounded to a
    number first.  And no payout is assigned: the [transaction.create] of the
    winner's loop leaves out the required [balanceBefore] and [balanceAfter],
    it throws, and the resolution is rolled back, in whatever order the bets
    are returned. *)
Theorem resolve_payout_one_short (rowOrder : RowOrder) :
  Prediction.totalPool <$> predictions scenario61 !! 0%nat = Some 61
  /\ PredictionOption.totalCoins <$> options scenario61 !! 0%nat = Some 7
  /\ bets scenario61 !! 0%nat = Some (Bet.mk 1%nat 0%nat 0%nat 7 JS.lit_1_0 PENDING 0)
  /\ 7 * 61 / 7 = 61
  /\ payoutOf 7 (odds 61 7) = Some 60
  /\ transaction (resolveTx rowOrder 0%nat 0%nat) scenario61
     = (scenario61, inl ArgumentMissing).
Proof.
  split; [reflexivity|]. split; [reflexivity|]. split; [reflexivity|].
  split; [reflexivity|]. split; [vm_compute; reflexivity|].
  unfold transaction.
  destruct (resolveTx_two_rows rowOrder 0%nat 0%nat scenario61 _ _ rows_scenario61)
    as [E | E]; rewrite E; vm_compute; reflexivity.
Qed.

(** C4, at the input where the code departs from it: both bets on B, and the
    prediction resolved in favour of A twice.  The transaction begins with an
    unconditional update of the status and never reads the status it
    replaces: the second call commits as the first did, credits the creator a
    second reward, counts a second loss for every bettor and notifies each of
    them again, in whatever order the bets are returned. *)
Theorem resolve_twice_pays_twice (rowOrder : RowOrder) :
  exists s1 s2,
    transaction (resolveTx rowOrder 0%nat 0%nat) scenarioAllOnB = (s1, inr tt)
    /\ Prediction.status <$> predictions s1 !! 0%nat = Some RESOLVED
    /\ transaction (resolveTx rowOrder 0%nat 0%nat) s1 = (s2, inr tt)
    /\ balances scenarioAllOnB = [1000; 900; 700]
    /\ balances s1 = [1020; 900; 700]
    /\ balances s2 = [1040; 900; 700]
    /\ User.totalLosses <$> users s1 = [0; 1; 1]
    /\ User.totalLosses <$> users s2 = [0; 2; 2]
    /\ length (notifications s1) = 2%nat
    /\ length (notifications s2) = 4%nat.
Proof.
  destruct (resolve_scenarioAllOnB rowOrder) as (sent & E1 & Hsent).
  destruct (resolve_resolvedOnce rowOrder sent) as (n1 & n2 & E2).
  eexists _, _. unfold transaction. rewrite E1. split; [reflexivity|].
  split; [reflexivity|]. rewrite E2. split; [reflexivity|].
  do 5 (split; [reflexivity|]).
  apply Permutation_length in Hsent. cbn [notifications resolvedOnce].
  rewrite !length_app, Hsent. split; reflexivity.
Qed.

(** C9, at the input where the code departs from it: both bets on B, and the
    prediction resolved in favour of A.  The resolution commits and credits
    the creator, account 0, the reward of 20 coins through [user.update]
    alone: the ledger is left as it was, so the rows of account 0 still add
    up to 0 while its balance has moved from 1000 to 1020.  The rows the
    ledger holds do satisfy [balanceAfter = balanceBefore + amount]. *)
Theorem creator_reward_not_in_ledger (rowOrder : RowOrder) :
  exists s',
    transaction (resolveTx rowOrder 0%nat 0%nat) scenarioAllOnB = (s', inr tt)
    /\ Forall entry_consistent (transactions s')
    /\ transactions s' = transactions scenarioAllOnB
    /\ replay 0%nat (transactions scenarioAllOnB) = 0
    /\ replay 0%nat (transactions s') = 0
    /\ balances scenarioAllOnB !! 0%nat = Some 1000
    /\ balances s' !! 0%nat = Some 1020.
Proof.
  destruct (resolve_scenarioAllOnB rowOrder) as (sent & E1 & _).
  eexists. unfold transaction. rewrite E1. split; [reflexivity|].
  split; [repeat constructor|]. repeat split; reflexivity.
Qed.

(* ===================================================================== *)
(** * Instances *)
(* ===================================================================== *)

Lemma nonneg_state_db0 : nonneg_state db0.
Proof. constructor; cbn; repeat constructor; cbn; lia. Defined.

(** The histories of the scenarios. *)
Lemma history_scenarioA : history keyOrder db0 scenarioA.
Proof.
  eapply history_then; [eapply history_then; [apply history_start|]|].
  - apply (commits_bet keyOrder 1%nat 0%nat 0%nat 100 JS.lit_1_0 0%nat); [lia|].
    vm_compute. reflexivity.
  - apply (commits_bet keyOrder 2%nat 0%nat 1%nat 300 JS.lit_1_0 1%nat); [lia|].
    vm_compute. reflexivity.
Defined.

Lemma history_scenarioAllOnB : history keyOrder db0 scenarioAllOnB.
Proof.
  eapply history_then; [eapply history_then; [apply history_start|]|].
  - apply (commits_bet keyOrder 1%nat 0%nat 1%nat 100 JS.lit_1_0 0%nat); [lia|].
    vm_compute. reflexivity.
  - apply (commits_bet keyOrder 2%nat 0%nat 1%nat 300 JS.lit_1_0 1%nat); [lia|].
    vm_compute. reflexivity.
Defined.

Lemma consistent_scenarioA : consistent scenarioA.
Proof. exact (history_consistent keyOrder db0 scenarioA consistent_db0 history_scenarioA). Defined.

Lemma consistent_scenarioAllOnB : consistent scenarioAllOnB.
Proof.
  exact (history_consistent keyOrder db0 scenarioAllOnB consistent_db0 history_scenarioAllOnB).
Defined.

Lemma counters_consistent_db0 : counters_consistent db0.
Proof.
  constructor.
  - intros [| [| [| i]]] r H; cbn in H; [injection H as <-.. | discriminate]; reflexivity.
  - intros [| [| i]] r H; cbn in H; [injection H as <-.. | discriminate]; reflexivity.
  - intros [| [| [| i]]] r H; cbn in H; [injection H as <-.. | discriminate]; reflexivity.
Defined.

(** The scenario "all on B", resolved in favour of A, with the cancellation
    of prediction 1, which has no bet. *)
Lemma history_resolved_cancelled :
  exists s1 s2,
    resolveTx keyOrder 0%nat 0%nat scenarioAllOnB = inr (tt, s1)
    /\ cancelTx keyOrder 1%nat s1 = inr (tt, s2)
    /\ history keyOrder db0 s2.
Proof.
  eexists _, _. split; [vm_compute; reflexivity|]. split; [vm_compute; reflexivity|].
  eapply history_then; [eapply history_then; [exact history_scenarioAllOnB|]|].
  - apply (commits_resolve keyOrder 0%nat 0%nat). vm_compute. reflexivity.
  - apply (commits_cancel keyOrder 1%nat). vm_compute. reflexivity.
Defined.

(** Scenario A, whose bet on A would win 400 of the pool of 400; and the
    scenario "all on B", resolved in favour of A. *)
Lemma payouts_never_exceed_pool_witness :
  consistent scenarioA
  /\ (exists payouts,
        Forall2 (fun b payout =>
                   payoutOf (Bet.amount b)
                     (oddsForWinners (Prediction.mk 0%nat ACTIVE None 400 2)
                                     (PredictionOption.mk 0%nat 1 100)) = Some payout)
          (filter (winning 0%nat 0%nat) (bets scenarioA)) payouts
        /\ sumZ payouts <= 400)
  /\ consistent scenarioAllOnB
  /\ exists s',
       resolveTx keyOrder 0%nat 0%nat scenarioAllOnB = inr (tt, s')
       /\ exists p,
            predictions s' !! 0%nat = Some p
            /\ Prediction.status p = RESOLVED
            /\ Prediction.correctOptionId p = Some 0%nat
            /\ totalPayout 0%nat 0%nat s' <= Prediction.totalPool p.
Proof.
  split; [exact consistent_scenarioA|]. split.
  { exact (proj1 (payouts_never_exceed_pool keyOrder scenarioA 0%nat 0%nat
                    (Prediction.mk 0%nat ACTIVE None 400 2) (PredictionOption.mk 0%nat 1 100)
                    consistent_scenarioA eq_refl eq_refl)). }
  split; [exact consistent_scenarioAllOnB|].
  eexists. split; [vm_compute; reflexivity|].
  apply (proj2 (payouts_never_exceed_pool keyOrder scenarioAllOnB 0%nat 0%nat
                  (Prediction.mk 0%nat ACTIVE None 400 2) (PredictionOption.mk 0%nat 0 0)
                  consistent_scenarioAllOnB eq_refl eq_refl)).
  vm_compute. reflexivity.
Defined.


(** Scenario B: balance 500, wager attempt of 600. *)
Lemma placeBet_insufficient_balance_scenarioB :
  users scenarioB !! 0%nat = Some (User.mk 500 0 0 0)
  /\ 500 < 600
  /\ transaction (placeBet 0%nat 0%nat 0%nat 600 JS.lit_1_0) scenarioB
     = (scenarioB, inl InsufficientBalance).
Proof.
  split; [reflexivity|]. split; [reflexivity|].
  destruct (placeBet_insufficient_balance scenarioB 0%nat 0%nat 0%nat 600 JS.lit_1_0
              (User.mk 500 0 0 0) eq_refl eq_refl) as (Hs & _ & He).
  specialize (He (newPrediction 0%nat) eq_refl eq_refl eq_refl).
  destruct (transaction _ _) as [s r]. cbn in *. congruence.
Defined.

(** A bet, a bet the validation rejects, a resolution that commits, one that
    rolls back, and two cancellations. *)
Lemma balance_never_negative_witness :
  nonneg_state db0
  /\ forall userId user,
       users (run keyOrder db0
                [OpPlaceBet 1%nat 0%nat 1%nat 100 JS.lit_1_0;
                 OpPlaceBet 2%nat 0%nat 1%nat 1200 JS.lit_1_0;
                 OpResolve 0%nat 0%nat; OpResolve 0%nat 1%nat;
                 OpCancel 0%nat; OpCancel 1%nat]) !! userId = Some user ->
       0 <= User.coinBalance user.
Proof.
  split; [exact nonneg_state_db0|].
  exact (balance_never_negative keyOrder db0 _ nonneg_state_db0).
Defined.

(** Scenario A: the ledger holds the two BET_PLACED rows; the BET_WON row of
    the resolution for bet 0 and the BET_REFUNDED row of the cancellation are
    refused, and so is a row for bet 0 that has its balances. *)
Lemma betId_referenced_at_most_once_witness :
  betId_unique (transactions db0)
  /\ history keyOrder db0 scenarioA
  /\ length (transactions scenarioA) = 2%nat
  /\ betId_unique (transactions scenarioA)
  /\ transaction_create
       (Transaction.mk 1%nat BET_WON 400 (Some 900) (Some 1300) (Some 0%nat)) scenarioA
     = inl UniqueConstraintFailed
  /\ (exists e, transaction_create
                  (Transaction.mk 1%nat BET_WON 400 None None (Some 0%nat)) scenarioA
                = inl e)
  /\ (exists e, transaction_create
                  (Transaction.mk 1%nat BET_REFUNDED 100 None None (Some 0%nat)) scenarioA
                = inl e).
Proof.
  assert (H0 : betId_unique (transactions db0)).
  { intros i j t u b Hi. cbn in Hi. discriminate Hi. }
  destruct (betId_referenced_at_most_once keyOrder db0 scenarioA H0 history_scenarioA)
    as [Hu Hrej].
  assert (Hin : Transaction.mk 1%nat BET_PLACED (-100) (Some 1000) (Some 900) (Some 0%nat)
                ∈ transactions scenarioA) by (vm_compute; left).
  split; [exact H0|]. split; [exact history_scenarioA|]. split; [reflexivity|].
  split; [exact Hu|]. split; [|split].
  - destruct (Hrej _ (Transaction.mk 1%nat BET_WON 400 (Some 900) (Some 1300) (Some 0%nat))
                0%nat Hin eq_refl eq_refl) as (e & He & Hpin).
    rewrite He. f_equal. exact (Hpin 900 1300 eq_refl eq_refl eq_refl eq_refl eq_refl).
  - destruct (Hrej _ (Transaction.mk 1%nat BET_WON 400 None None (Some 0%nat))
                0%nat Hin eq_refl eq_refl) as (e & He & _).
    exists e. exact He.
  - destruct (Hrej _ (Transaction.mk 1%nat BET_REFUNDED 100 None None (Some 0%nat))
                0%nat Hin eq_refl eq_refl) as (e & He & _).
    exists e. exact He.
Defined.

(** The scenario "all on B", resolved in favour of A. *)
Lemma resolve_settles_only_its_bets_witness :
  exists s', resolveTx keyOrder 0%nat 0%nat scenarioAllOnB = inr (tt, s')
    /\ Bet.status <$> bets s' = [LOST; LOST]
    /\ options s' = options scenarioAllOnB
    /\ Prediction.totalPool <$> predictions s' = Prediction.totalPool <$> predictions scenarioAllOnB
    /\ forall i b, bets scenarioAllOnB !! i = Some b ->
         (Bet.predictionId b = 0%nat -> Bet.optionId b <> 0%nat)
         /\ bets s' !! i = Some (if decide (Bet.predictionId b = 0%nat) then lostRow b else b).
Proof.
  eexists. split; [vm_compute; reflexivity|]. split; [reflexivity|].
  apply (resolve_settles_only_its_bets keyOrder scenarioAllOnB _ 0%nat 0%nat).
  vm_compute. reflexivity.
Defined.

Lemma resolve_notifies_every_bet_witness :
  exists s', resolveTx keyOrder 0%nat 0%nat scenarioAllOnB = inr (tt, s')
    /\ notifications s'
       = [Notification.mk 1%nat NOTIFY_BET_LOST; Notification.mk 2%nat NOTIFY_BET_LOST]
    /\ exists sent,
         notifications s' = notifications scenarioAllOnB ++ sent
         /\ sent ≡ₚ (fun b => Notification.mk (Bet.userId b) NOTIFY_BET_LOST)
                     <$> filter (fun b => Bet.predictionId b = 0%nat) (bets scenarioAllOnB).
Proof.
  eexists. split; [vm_compute; reflexivity|]. split; [reflexivity|].
  apply (resolve_notifies_every_bet keyOrder scenarioAllOnB _ 0%nat 0%nat).
  vm_compute. reflexivity.
Defined.

(** Scenario A, resolved in favour of A, on which account 1 has staked 100. *)
Lemma resolve_with_winner_rolls_back_witness :
  Bet.mk 1%nat 0%nat 0%nat 100 JS.lit_1_0 PENDING 0 ∈ bets scenarioA
  /\ transaction (resolveTx keyOrder 0%nat 0%nat) scenarioA = (scenarioA, inl ArgumentMissing).
Proof.
  assert (Hin : Bet.mk 1%nat 0%nat 0%nat 100 JS.lit_1_0 PENDING 0 ∈ bets scenarioA)
    by (vm_compute; left).
  split; [exact Hin|].
  destruct (resolve_with_winner_rolls_back keyOrder scenarioA 0%nat 0%nat _ Hin
              (conj eq_refl eq_refl)) as [e He].
  rewrite He. vm_compute in He. injection He as <-. reflexivity.
Defined.

Lemma resolve_without_bets_witness :
  resolveTx keyOrder 1%nat 2%nat scenarioA
  = inr (tt, set_predictions
               (fun t => <[1%nat := resolvedPrediction 2%nat (newPrediction 0%nat)]> t) scenarioA).
Proof.
  refine (resolve_without_bets keyOrder scenarioA 1%nat 2%nat (newPrediction 0%nat)
            (newOption 1%nat) newUser eq_refl eq_refl eq_refl eq_refl eq_refl eq_refl _).
  repeat constructor; cbn; lia.
Defined.

Lemma resolve_unknown_option_rolls_back_witness :
  transaction (resolveTx keyOrder 0%nat 7%nat) scenarioA = (scenarioA, inl NullDereference).
Proof.
  exact (resolve_unknown_option_rolls_back keyOrder scenarioA 0%nat 7%nat
           (Prediction.mk 0%nat ACTIVE None 400 2) eq_refl eq_refl eq_refl).
Defined.

(** Scenario A, whose prediction 0 has two bets. *)
Lemma cancel_with_bets_rolls_back_witness :
  Bet.mk 1%nat 0%nat 0%nat 100 JS.lit_1_0 PENDING 0 ∈ bets scenarioA
  /\ transaction (cancelTx keyOrder 0%nat) scenarioA = (scenarioA, inl ArgumentMissing).
Proof.
  assert (Hin : Bet.mk 1%nat 0%nat 0%nat 100 JS.lit_1_0 PENDING 0 ∈ bets scenarioA)
    by (vm_compute; left).
  split; [exact Hin|].
  destruct (cancel_with_bets_rolls_back keyOrder scenarioA 0%nat _ Hin eq_refl) as [e He].
  rewrite He. vm_compute in He. injection He as <-. reflexivity.
Defined.

(** Scenario A, whose prediction 1 has no bet. *)
Lemma cancel_without_bets_witness :
  Forall (fun b => Bet.predictionId b <> 1%nat) (bets scenarioA)
  /\ cancelTx keyOrder 1%nat scenarioA
     = inr (tt, set_predictions
                  (fun t => <[1%nat := Prediction.mk 0%nat CANCELLED None 0 0]> t) scenarioA).
Proof.
  assert (Hnone : Forall (fun b => Bet.predictionId b <> 1%nat) (bets scenarioA))
    by (repeat constructor; cbn; lia).
  split; [exact Hnone|].
  exact (proj1 (cancel_without_bets keyOrder scenarioA 1%nat (newPrediction 0%nat)
                  eq_refl eq_refl) Hnone).
Defined.

Lemma resolve_without_winners_witness :
  exists s', resolveTx keyOrder 0%nat 2%nat scenarioA = inr (tt, s')
    /\ balances scenarioA = [1000; 900; 700] /\ balances s' = [1020; 900; 700]
    /\ totalBalance s' = totalBalance scenarioA + 20
    /\ transactions s' = transactions scenarioA.
Proof.
  eexists. split; [vm_compute; reflexivity|]. split; [reflexivity|]. split; [reflexivity|].
  destruct (resolve_without_winners keyOrder scenarioA _ 0%nat 2%nat
              ltac:(repeat constructor; intros [_ E]; discriminate E)
              ltac:(vm_compute; reflexivity))
    as (p0 & reward & Hp0 & Hrew & _ & Hsum & Htx & _).
  vm_compute in Hp0. injection Hp0 as <-. vm_compute in Hrew. injection Hrew as <-.
  split; [exact Hsum | exact Htx].
Defined.

Lemma option_totals_track_the_stakes_witness :
  exists s1 s2,
    resolveTx keyOrder 0%nat 0%nat scenarioAllOnB = inr (tt, s1)
    /\ cancelTx keyOrder 1%nat s1 = inr (tt, s2)
    /\ consistent db0 /\ history keyOrder db0 s2 /\ consistent s2.
Proof.
  destruct history_resolved_cancelled as (s1 & s2 & H1 & H2 & Hh).
  exists s1, s2. split; [exact H1|]. split; [exact H2|].
  split; [exact consistent_db0|]. split; [exact Hh|].
  exact (option_totals_track_the_stakes keyOrder db0 s2 consistent_db0 Hh).
Defined.

Lemma resolve_counts_losses_witness :
  exists s', resolveTx keyOrder 0%nat 0%nat scenarioAllOnB = inr (tt, s')
    /\ User.totalWins <$> users s' = [0; 0; 0]
    /\ User.totalLosses <$> users s' = [0; 1; 1]
    /\ forall userId user, users scenarioAllOnB !! userId = Some user ->
         exists user', users s' !! userId = Some user'
           /\ User.totalWins user' = User.totalWins user
           /\ User.totalLosses user'
              = User.totalLosses user
                + countBets (fun b => Bet.userId b = userId /\ Bet.predictionId b = 0%nat)
                    (bets scenarioAllOnB)
           /\ User.totalBets user' = User.totalBets user.
Proof.
  eexists. split; [vm_compute; reflexivity|].
  split; [reflexivity|]. split; [reflexivity|].
  apply (resolve_counts_losses keyOrder scenarioAllOnB _ 0%nat 0%nat). vm_compute. reflexivity.
Defined.

Lemma bet_counters_track_the_bets_witness :
  exists s1 s2,
    resolveTx keyOrder 0%nat 0%nat scenarioAllOnB = inr (tt, s1)
    /\ cancelTx keyOrder 1%nat s1 = inr (tt, s2)
    /\ counters_consistent db0 /\ history keyOrder db0 s2 /\ counters_consistent s2.
Proof.
  destruct history_resolved_cancelled as (s1 & s2 & H1 & H2 & Hh).
  exists s1, s2. split; [exact H1|]. split; [exact H2|].
  split; [exact counters_consistent_db0|]. split; [exact Hh|].
  exact (bet_counters_track_the_bets keyOrder db0 s2 counters_consistent_db0 Hh).
Defined.

(** The ledger after the two bets on B, the resolution in favour of A and the
    cancellation of prediction 1. *)
Lemma ledger_rows_consistent_witness :
  exists s1 s2,
    resolveTx keyOrder 0%nat 0%nat scenarioAllOnB = inr (tt, s1)
    /\ cancelTx keyOrder 1%nat s1 = inr (tt, s2)
    /\ Forall entry_consistent (transactions db0)
    /\ history keyOrder db0 s2
    /\ length (transactions s2) = 2%nat
    /\ Forall entry_consistent (transactions s2).
Proof.
  destruct history_resolved_cancelled as (s1 & s2 & H1 & H2 & Hh).
  exists s1, s2. split; [exact H1|]. split; [exact H2|].
  split; [constructor|]. split; [exact Hh|]. split.
  - vm_compute in H1. injection H1 as <-. vm_compute in H2. injection H2 as <-. reflexivity.
  - exact (ledger_rows_consistent keyOrder db0 s2 ltac:(constructor) Hh).
Defined.
